(** * gcs-manifest: a shallow embedding of [upload/main.go]

    The program walks a local tree, uploads every regular file to a
    bucket while hashing the same bytes with SHA-256, collects the
    [(path, digest)] pairs into a manifest and publishes the manifest.

    The functions of [main.go] ([parseUri], [uploadFile], the walk
    callback and [main]) are transcribed statement by statement.  What
    they call is modelled by its documented behaviour:

    - [strings], [path/filepath] (Unix), [encoding/hex], [crypto/sha256]
      and [encoding/json] are functions on strings and bytes;
    - the local file system is a tree that does not change during the
      run; a directory may refuse to be listed, and every entry of a
      listed directory can be examined; the tree holds no symbolic link
      that leads to a file or a directory, no device and no pipe; the
      system may refuse to open a file, and an open regular file is read
      through the buffer of [io.Copy] without errors of the device;
    - the bucket holds the committed objects, and the service decides
      which writes and which commits fail;
    - the goroutines are run in the order given by two schedules (the
      commits of the uploads, and the receives on the channel); a
      separate transition system takes them step by step;
    - [os.Getwd] and [filepath.Abs] do not fail, and what is logged to
      standard error is left out. *)

From Stdlib Require Import ZArith Ascii String List Lia Permutation.
From Stdlib.Strings Require Import Byte.
From stdpp Require Import gmap strings list fin_maps.

(** ** Results of fallible calls

    A Go call returning [(T, error)] becomes [Ok v] when the error is
    [nil] and [Err msg] otherwise. *)

Inductive result (A : Type) : Type :=
| Ok (v : A)
| Err (msg : string).
Arguments Ok {A} v.
Arguments Err {A} msg.

Definition is_err {A} (r : result A) : bool :=
  match r with Ok _ => false | Err _ => true end.

(** ** Package [strings] *)

Module strings.

(** [strings.HasPrefix(s, prefix)] *)
Fixpoint HasPrefix (s prefix : string) {struct prefix} : bool :=
  match prefix, s with
  | EmptyString, _ => true
  | String _ _, EmptyString => false
  | String p prefix', String c s' =>
      if Ascii.eqb p c then HasPrefix s' prefix' else false
  end.

(** [s[n:]] *)
Fixpoint drop_prefix (n : nat) (s : string) : string :=
  match n, s with
  | O, _ => s
  | S _, EmptyString => EmptyString
  | S n', String _ s' => drop_prefix n' s'
  end.

(** [strings.TrimPrefix(s, prefix)] *)
Definition TrimPrefix (s prefix : string) : string :=
  if HasPrefix s prefix then drop_prefix (String.length prefix) s else s.

(** [strings.Index] for a one-byte separator, returning the two
    sides of the first occurrence: [s[:m]] and [s[m+1:]]. *)
Fixpoint cut (sep : ascii) (s : string) : option (string * string) :=
  match s with
  | EmptyString => None
  | String c s' =>
      if Ascii.eqb c sep then Some (EmptyString, s')
      else match cut sep s' with
           | Some (a, b) => Some (String c a, b)
           | None => None
           end
  end.

(** [strings.SplitN(s, sep, n)] for a one-byte separator and [n >= 0]:
    at most [n] pieces, the last one being the unsplit remainder. *)
Fixpoint SplitN (s : string) (sep : ascii) (n : nat) : list string :=
  match n with
  | O => []
  | S O => [s]
  | S n' =>
      match cut sep s with
      | None => [s]
      | Some (a, b) => a :: SplitN b sep n'
      end
  end.

(** [strings.Split(s, sep)]: every piece. *)
Fixpoint Split (sep : ascii) (s : string) : list string :=
  match s with
  | EmptyString => [EmptyString]
  | String c s' =>
      if Ascii.eqb c sep then EmptyString :: Split sep s'
      else match Split sep s' with
           | p :: ps => String c p :: ps
           | [] => [String c EmptyString]
           end
  end.

(** [strings.Join(elems, sep)] *)
Fixpoint Join (elems : list string) (sep : string) : string :=
  match elems with
  | [] => EmptyString
  | [e] => e
  | e :: rest => e +:+ sep +:+ Join rest sep
  end.

(** The byte [c] occurs in [s]. *)
Fixpoint contains (c : ascii) (s : string) : Prop :=
  match s with
  | EmptyString => False
  | String d s' => d = c \/ contains c s'
  end.

End strings.

(** ** [parseUri] (main.go, lines 138-147) *)

Definition slash : ascii := "/"%char.

Definition strip_scheme (uri : string) : string :=
  if strings.HasPrefix uri "gs://" then strings.TrimPrefix uri "gs://" else uri.

Definition parseUri (uri : string) : result (string * string) :=
  let uri := strip_scheme uri in
  let split := strings.SplitN uri slash 2 in
  if negb (length split =? 2) then Err ("invalid uri: " +:+ uri)
  else Ok (nth 0 split EmptyString, nth 1 split EmptyString).


(** ** Bytes *)

Definition byte_to_Z (b : byte) : Z := Z.of_N (Byte.to_N b).

(** The low eight bits of [z], as a byte. *)
Definition byte_of_Z (z : Z) : byte :=
  match Byte.of_N (Z.to_N (z mod 256)) with
  | Some b => b
  | None => x00
  end.

Definition bytes_of_string (s : string) : list byte :=
  List.map byte_of_ascii (list_ascii_of_string s).

Definition string_of_bytes (l : list byte) : string :=
  string_of_list_ascii (List.map ascii_of_byte l).

(** ** Package [encoding/hex] *)

Module hex.

Definition hextable : string := "0123456789abcdef".

Definition digit (v : Z) : ascii :=
  match String.get (Z.to_nat v) hextable with
  | Some c => c
  | None => "0"%char
  end.

(** [hex.EncodeToString]: for every byte [v], [hextable[v>>4]] then
    [hextable[v&0x0f]]. *)
Fixpoint EncodeToString (src : list byte) : string :=
  match src with
  | [] => EmptyString
  | v :: rest =>
      String (digit (Z.shiftr (byte_to_Z v) 4))
        (String (digit (Z.land (byte_to_Z v) 15)) (EncodeToString rest))
  end.

(** One of [0-9a-f]. *)
Definition is_lower_hex (c : ascii) : bool :=
  let n := nat_of_ascii c in
  ((48 <=? n) && (n <=? 57)) || ((97 <=? n) && (n <=? 102)).

Fixpoint all_lower_hex (s : string) : bool :=
  match s with
  | EmptyString => true
  | String c s' => is_lower_hex c && all_lower_hex s'
  end.

End hex.

(** ** Package [crypto/sha256]

    32-bit words are integers in [0, 2^32); every addition wraps. *)

Module sha256.

Definition Size : nat := 32.
Definition chunk : nat := 64.

Definition u32 (x : Z) : Z := x mod 2 ^ 32.

(** [bits.RotateLeft32(x, -k)] *)
Definition rotr (x k : Z) : Z :=
  Z.lor (Z.shiftr x k) (u32 (Z.shiftl x (32 - k))).

(** The round constants, eight per line of [sha256block.go]. *)
Definition _K : list Z :=
  ([0x428a2f98; 0x71374491; 0xb5c0fbcf; 0xe9b5dba5;
      0x3956c25b; 0x59f111f1; 0x923f82a4; 0xab1c5ed5]
   ++ [0xd807aa98; 0x12835b01; 0x243185be; 0x550c7dc3;
      0x72be5d74; 0x80deb1fe; 0x9bdc06a7; 0xc19bf174]
   ++ [0xe49b69c1; 0xefbe4786; 0x0fc19dc6; 0x240ca1cc;
      0x2de92c6f; 0x4a7484aa; 0x5cb0a9dc; 0x76f988da]
   ++ [0x983e5152; 0xa831c66d; 0xb00327c8; 0xbf597fc7;
      0xc6e00bf3; 0xd5a79147; 0x06ca6351; 0x14292967]
   ++ [0x27b70a85; 0x2e1b2138; 0x4d2c6dfc; 0x53380d13;
      0x650a7354; 0x766a0abb; 0x81c2c92e; 0x92722c85]
   ++ [0xa2bfe8a1; 0xa81a664b; 0xc24b8b70; 0xc76c51a3;
      0xd192e819; 0xd6990624; 0xf40e3585; 0x106aa070]
   ++ [0x19a4c116; 0x1e376c08; 0x2748774c; 0x34b0bcb5;
      0x391c0cb3; 0x4ed8aa4a; 0x5b9cca4f; 0x682e6ff3]
   ++ [0x748f82ee; 0x78a5636f; 0x84c87814; 0x8cc70208;
      0x90befffa; 0xa4506ceb; 0xbef9a3f7; 0xc67178f2])%Z.

(** The eight chaining words [h[0..7]]. *)
Definition regs : Type := Z * Z * Z * Z * Z * Z * Z * Z.

Definition init : regs :=
  (0x6a09e667, 0xbb67ae85, 0x3c6ef372, 0xa54ff53a,
   0x510e527f, 0x9b05688c, 0x1f83d9ab, 0x5be0cd19)%Z.

(** Big-endian 32-bit words of a byte string, four bytes at a time. *)
Fixpoint be_words (p : list byte) : list Z :=
  match p with
  | b0 :: b1 :: b2 :: b3 :: rest =>
      Z.lor (Z.lor (Z.lor (Z.shiftl (byte_to_Z b0) 24)
                          (Z.shiftl (byte_to_Z b1) 16))
                   (Z.shiftl (byte_to_Z b2) 8))
            (byte_to_Z b3)
      :: be_words rest
  | _ => []
  end.

(** One step of the message schedule on the window [w[i-16..i-1]]:
    [w[i] = t1 + w[i-7] + t2 + w[i-16]]. *)
Definition next_w (win : list Z) : Z :=
  let v1 := nth 14 win 0%Z in
  let t1 := Z.lxor (Z.lxor (rotr v1 17) (rotr v1 19)) (Z.shiftr v1 10) in
  let v2 := nth 1 win 0%Z in
  let t2 := Z.lxor (Z.lxor (rotr v2 7) (rotr v2 18)) (Z.shiftr v2 3) in
  u32 (t1 + nth 9 win 0 + t2 + nth 0 win 0)%Z.

(** One round with constant [k]; the schedule window slides by one. *)
Definition round (st : regs * list Z) (k : Z) : regs * list Z :=
  let '((a, b, c, d, e, f, g, h), win) := st in
  let wi := nth 0 win 0%Z in
  let t1 := (h + Z.lxor (Z.lxor (rotr e 6) (rotr e 11)) (rotr e 25)
               + Z.lxor (Z.land e f) (Z.land (u32 (Z.lnot e)) g)
               + k + wi)%Z in
  let t2 := (Z.lxor (Z.lxor (rotr a 2) (rotr a 13)) (rotr a 22)
               + Z.lxor (Z.lxor (Z.land a b) (Z.land a c)) (Z.land b c))%Z in
  ((u32 (t1 + t2), a, b, c, u32 (d + t1), e, f, g),
   List.tl win ++ [next_w win]).

(** [block] on one 64-byte chunk. *)
Definition block1 (hh : regs) (p : list byte) : regs :=
  let '(h0, h1, h2, h3, h4, h5, h6, h7) := hh in
  let '((a, b, c, d, e, f, g, h), _) :=
    List.fold_left round _K (hh, be_words p) in
  (u32 (h0 + a), u32 (h1 + b), u32 (h2 + c), u32 (h3 + d),
   u32 (h4 + e), u32 (h5 + f), u32 (h6 + g), u32 (h7 + h)).

(** [block] on every whole chunk of [p]; [n] bounds the number of chunks. *)
Fixpoint blocks (n : nat) (hh : regs) (p : list byte) : regs :=
  match n with
  | O => hh
  | S n' =>
      if (chunk <=? length p)%nat
      then blocks n' (block1 hh (firstn chunk p)) (skipn chunk p)
      else hh
  end.

Definition be_bytes (nbytes : nat) (x : Z) : list byte :=
  List.map (fun i => byte_of_Z (Z.shiftr x (8 * Z.of_nat i)))
           (List.rev (List.seq 0 nbytes)).

(** The padding appended by [checkSum]: [0x80], zeros up to 56 modulo
    64, then the bit length as a big-endian [uint64]. *)
Definition padding (len : nat) : list byte :=
  let r := (len mod 64)%nat in
  let zeros := if (r <? 56)%nat then (56 - r - 1)%nat else (64 + 56 - r - 1)%nat in
  x80 :: List.repeat x00 zeros
      ++ be_bytes 8 ((Z.of_nat len * 8) mod 2 ^ 64).

Definition put_regs (hh : regs) : list byte :=
  let '(h0, h1, h2, h3, h4, h5, h6, h7) := hh in
  List.concat (List.map (be_bytes 4) [h0; h1; h2; h3; h4; h5; h6; h7]).

(** [sha256.Sum256] *)
Definition Sum256 (data : list byte) : list byte :=
  let padded := data ++ padding (length data) in
  put_regs (blocks (S (length padded / 64)) init padded).

(** A [hash.Hash] in progress.  [Write] never fails; the state is the
    concatenation of everything written.  [Sum(nil)] is the SHA-256 of
    that concatenation. *)
Record digest : Type := mkDigest { written : list byte }.

Definition New : digest := mkDigest [].
Definition Write (d : digest) (p : list byte) : digest :=
  mkDigest (written d ++ p).
Definition Sum (d : digest) : list byte := Sum256 (written d).

End sha256.

(** The digest string of a byte sequence. *)
Definition digest_of (content : list byte) : string :=
  "sha256:" +:+ hex.EncodeToString (sha256.Sum256 content).

(** ** Package [path/filepath] (Unix)

    A path is a string; [Clean] and its clients work on the elements
    between separators. *)

Module filepath.

Definition IsAbs (p : string) : bool := strings.HasPrefix p "/".

(** One element of the lexical processing done by [Clean], on the
    stack [stk] of elements kept so far (innermost first): empty and
    [.] elements vanish, [..] removes the element before it, is dropped
    at the root and is kept at the start of a relative path. *)
Definition push (rooted : bool) (stk : list string) (c : string) : list string :=
  if String.eqb c "" || String.eqb c "." then stk
  else if String.eqb c ".." then
    match stk with
    | top :: rest => if String.eqb top ".." then c :: stk else rest
    | [] => if rooted then [] else [c]
    end
  else c :: stk.

(** The elements of the cleaned path. *)
Definition elems (p : string) : list string :=
  List.rev (List.fold_left (push (IsAbs p)) (strings.Split slash p) []).

(** The rooted path with elements [cs]. *)
Definition rooted (cs : list string) : string := "/" +:+ strings.Join cs "/".

(** [filepath.Clean] *)
Definition Clean (p : string) : string :=
  let cs := elems p in
  if IsAbs p then rooted cs
  else match cs with
       | [] => "."
       | _ => strings.Join cs "/"
       end.

(** [filepath.Join(a, b)]: empty arguments are ignored, the rest is
    joined by a separator and cleaned. *)
Definition Join (a b : string) : string :=
  match a, b with
  | EmptyString, EmptyString => EmptyString
  | EmptyString, _ => Clean b
  | _, EmptyString => Clean a
  | _, _ => Clean (a +:+ "/" +:+ b)
  end.

(** [filepath.Abs] in working directory [wd]. *)
Definition Abs (wd p : string) : string :=
  if IsAbs p then Clean p else Join wd p.

(** The separator-delimited elements that the loop of [Rel] compares. *)
Definition rel_elems (p : string) : list string :=
  if String.eqb p "" then []
  else if String.eqb p "/" then [EmptyString]
  else strings.Split slash p.

(** Drop the leading elements that [b] and [t] share. *)
Fixpoint strip_common (b t : list string) : list string * list string :=
  match b, t with
  | x :: b', y :: t' => if String.eqb x y then strip_common b' t' else (b, t)
  | _, _ => (b, t)
  end.

(** [filepath.Rel(basepath, targpath)] *)
Definition Rel (basepath targpath : string) : result string :=
  let base := Clean basepath in
  let targ := Clean targpath in
  if String.eqb targ base then Ok "."
  else
    let base := if String.eqb base "." then EmptyString else base in
    if negb (Bool.eqb (IsAbs base) (IsAbs targ))
    then Err ("Rel: can't make " +:+ targpath +:+ " relative to " +:+ basepath)
    else
      let '(b, t) := strip_common (rel_elems base) (rel_elems targ) in
      match b, t with
      | x :: _, _ :: _ =>
          if String.eqb x ".."
          then Err ("Rel: can't make " +:+ targpath +:+ " relative to " +:+ basepath)
          else Ok (strings.Join (List.map (fun _ => "..") b ++ t) "/")
      | _, _ => Ok (strings.Join (List.map (fun _ => "..") b ++ t) "/")
      end.

End filepath.

(** ** Package [os]: the local file system

    A tree of nodes below the root directory.  A directory may refuse to
    be listed (no read permission).  [Irregular] is an entry that is
    neither a regular file nor a directory and that cannot be opened,
    such as a socket or a symbolic link whose target is missing. *)

Module os.

#[warnings="-register-all"]
Inductive node : Type :=
| Reg (content : list byte)
| Dir (listable : bool) (entries : list (string * node))
| Irregular.

Inductive FileMode : Type := ModeRegular | ModeDir | ModeOther.

Record FileInfo : Type := mkInfo { Mode : FileMode }.

Definition IsRegular (m : FileMode) : bool :=
  match m with ModeRegular => true | _ => false end.

Definition IsDir (m : FileMode) : bool :=
  match m with ModeDir => true | _ => false end.

Definition info_of (n : node) : FileInfo :=
  match n with
  | Reg _ => mkInfo ModeRegular
  | Dir _ _ => mkInfo ModeDir
  | Irregular => mkInfo ModeOther
  end.

(** The entry called [name] of a directory listing. *)
Fixpoint entry (name : string) (es : list (string * node)) : option node :=
  match es with
  | [] => None
  | (n, child) :: rest => if String.eqb n name then Some child else entry name rest
  end.

(** The node reached from [n] along the elements [cs]. *)
Fixpoint find (n : node) (cs : list string) : option node :=
  match cs with
  | [] => Some n
  | c :: cs' =>
      match n with
      | Dir _ es =>
          match entry c es with
          | Some child => find child cs'
          | None => None
          end
      | _ => None
      end
  end.

(** A file name: not empty, not [.] or [..], without separator. *)
Fixpoint no_slash (s : string) : bool :=
  match s with
  | EmptyString => true
  | String c s' => negb (Ascii.eqb c slash) && no_slash s'
  end.

Definition valid_name (s : string) : bool :=
  negb (String.eqb s "") && negb (String.eqb s ".")
  && negb (String.eqb s "..") && no_slash s.

Fixpoint fresh (name : string) (es : list (string * node)) : bool :=
  match es with
  | [] => true
  | (n, _) :: rest => negb (String.eqb n name) && fresh name rest
  end.

(** Every directory holds valid, pairwise different names. *)
Fixpoint wf (n : node) : bool :=
  match n with
  | Dir _ es =>
      (fix wf_entries (es : list (string * node)) : bool :=
         match es with
         | [] => true
         | (name, child) :: rest =>
             valid_name name && fresh name rest && wf child && wf_entries rest
         end) es
  | _ => true
  end.

(** The listing of a directory as [readDirNames] returns it: sorted by
    name.  [sorted n] is the tree [n] with every listing in that order. *)
Fixpoint insert (e : string * node) (es : list (string * node))
  : list (string * node) :=
  match es with
  | [] => [e]
  | e' :: rest =>
      if String.leb (fst e) (fst e') then e :: es else e' :: insert e rest
  end.

Fixpoint sorted (n : node) : node :=
  match n with
  | Dir l es =>
      Dir l ((fix each (es : list (string * node)) : list (string * node) :=
                match es with
                | [] => []
                | (name, child) :: rest => insert (name, sorted child) (each rest)
                end) es)
  | _ => n
  end.

(** Every directory at or below [n] can be listed. *)
Fixpoint all_listable (n : node) : bool :=
  match n with
  | Dir l es =>
      l && (fix go (es : list (string * node)) : bool :=
              match es with
              | [] => true
              | (_, child) :: rest => all_listable child && go rest
              end) es
  | _ => true
  end.

End os.

(** ** Package [io] *)

Module io.

Inductive error : Type :=
| EOF
| Failure (msg : string).

(** What one [Read] call returns: the bytes put in the buffer, and the
    error. *)
Definition read : Type := list byte * option error.

(** A reader is the sequence of results its [Read] calls will return;
    once the sequence is used up, [Read] returns [0, EOF]. *)
Definition Reader : Type := list read.

(** The bytes a consumer gets that reads until the first error. *)
Fixpoint delivered (r : Reader) : list byte :=
  match r with
  | [] => []
  | (p, None) :: rest => p ++ delivered rest
  | (p, Some _) :: _ => p
  end.

End io.

(** The buffer size of [io.Copy]. *)
Definition copy_buf : nat := 32 * 1024.

(** [l] cut into pieces of [n] bytes, the last one possibly shorter. *)
Fixpoint pieces (fuel n : nat) (l : list byte) : list (list byte) :=
  match fuel with
  | O => []
  | S fuel' =>
      match l with
      | [] => []
      | _ => firstn n l :: pieces fuel' n (skipn n l)
      end
  end.

(** The reads of an open regular file through the buffer of [io.Copy]. *)
Definition file_reader (content : list byte) : io.Reader :=
  List.map (fun p => (p, None)) (pieces (length content) copy_buf content).

(** ** The storage client

    A bucket holds the committed objects.  The service decides which
    [Write] calls on an object stream fail, and whether the [Close] of
    the stream commits the object. *)

Module storage.

Record Bucket : Type := mkBucket {
  objects : gmap string (list byte);
  (** [write_fault name k = Some n]: the [k]-th [Write] on the stream of
      object [name] accepts [n] bytes and returns an error. *)
  write_fault : string -> nat -> option nat;
  (** [Close] on the stream of the object returns an error and nothing
      is committed. *)
  close_fault : string -> bool
}.

(** [bucket.Object(name).NewWriter(ctx)]: the stream, nothing sent yet. *)
Record Writer : Type := mkWriter {
  name : string;
  sent : list byte;
  calls : nat;
  failed : bool
}.

Definition NewWriter (name : string) : Writer := mkWriter name [] 0 false.

(** [w.Write(p)]: the number of bytes accepted, the error, the stream. *)
Definition Write (b : Bucket) (w : Writer) (p : list byte)
  : nat * option string * Writer :=
  match write_fault b (name w) (calls w) with
  | Some n =>
      let n := Nat.min n (length p) in
      (n, Some ("write " +:+ name w),
       mkWriter (name w) (sent w ++ firstn n p) (S (calls w)) true)
  | None =>
      (length p, None, mkWriter (name w) (sent w ++ p) (S (calls w)) (failed w))
  end.

(** [w.Close()]: commits the bytes sent as the object, or returns the
    error of the stream. *)
Definition Close (b : Bucket) (w : Writer) : option string * Bucket :=
  if failed w || close_fault b (name w)
  then (Some ("close " +:+ name w), b)
  else (None, mkBucket (<[name w := sent w]> (objects b))
                       (write_fault b) (close_fault b)).

End storage.

(** ** The tee and the copy loop of [uploadFile] (lines 127-133)

    [tee := io.TeeReader(f, gcsObj)] and [io.Copy(h, tee)].  The trace
    records, for one upload, what happens in which order. *)

Inductive event : Type :=
| EvRead (p : list byte)        (** [f.Read] gave [p] to the tee *)
| EvSinkWrite (p : list byte)   (** the tee called [gcsObj.Write(p)] *)
| EvTeeReturn (p : list byte)   (** [tee.Read] returned [p] to [io.Copy] *)
| EvHashWrite (p : list byte).  (** [io.Copy] called [h.Write(p)] *)

(** [teeReader.Read]: read from the source; if that gave [n > 0] bytes,
    write them to the sink and, if the write fails, return the count and
    error of the write; otherwise return what the source returned. *)
Definition tee_Read (b : storage.Bucket) (r : io.read) (w : storage.Writer)
  : io.read * storage.Writer * list event :=
  let '(p, err) := r in
  if (0 <? length p)%nat then
    match storage.Write b w p with
    | (n, Some e, w') =>
        ((firstn n p, Some (io.Failure e)), w',
         [EvRead p; EvSinkWrite p; EvTeeReturn (firstn n p)])
    | (_, None, w') =>
        ((p, err), w', [EvRead p; EvSinkWrite p; EvTeeReturn p])
    end
  else ((p, err), w, [EvRead p; EvTeeReturn p]).

Record copied : Type := mkCopied {
  c_err : option string;
  c_hash : sha256.digest;
  c_sink : storage.Writer;
  c_trace : list event
}.

(** The loop of [io.Copy(h, tee)]: read; if [nr > 0] write the bytes to
    [h] (which cannot fail); stop on any error of the read, which is
    reported unless it is [EOF]. *)
Fixpoint Copy (b : storage.Bucket) (h : sha256.digest) (f : io.Reader)
    (w : storage.Writer) : copied :=
  match f with
  | [] =>
      (* [f.Read] returns [0, EOF], so does the tee; the loop ends *)
      mkCopied None h w [EvRead []; EvTeeReturn []]
  | r :: rest =>
      let '((p, er), w', evs) := tee_Read b r w in
      let h' := if (0 <? length p)%nat then sha256.Write h p else h in
      let evs' := if (0 <? length p)%nat then evs ++ [EvHashWrite p] else evs in
      match er with
      | Some io.EOF => mkCopied None h' w' evs'
      | Some (io.Failure e) => mkCopied (Some e) h' w' evs'
      | None =>
          let c := Copy b h' rest w' in
          mkCopied (c_err c) (c_hash c) (c_sink c) (evs' ++ c_trace c)
      end
  end.

(** ** The process environment *)

Record World : Type := mkWorld {
  wd : string;                    (** the working directory *)
  fs : os.node;                   (** the local file system, from [/] *)
  bucket : storage.Bucket;        (** the destination bucket *)
  client_fault : option string;   (** [storage.NewClient] fails *)
  local_fault : option string;    (** [ioutil.WriteFile] fails *)
  (** [os.Open(name)] fails for a reason the tree does not show: no
      permission to read, too many open files. *)
  open_fault : string -> option string
}.

Definition openable : string -> option string := fun _ => None.

(** [os.Lstat(name)] *)
Definition Lstat (w : World) (name : string) : option os.node :=
  if String.eqb name "" then None
  else os.find (fs w) (filepath.elems (filepath.Abs (wd w) name)).

(** [os.Open(name)]: a relative [name] is resolved in the working
    directory.  Reading an open directory fails. *)
Definition Open (w : World) (name : string) : result io.Reader :=
  match open_fault w name with
  | Some e => Err ("open " +:+ name +:+ ": " +:+ e)
  | None =>
      match Lstat w name with
      | Some (os.Reg content) => Ok (file_reader content)
      | Some (os.Dir _ _) =>
          Ok [([], Some (io.Failure ("read " +:+ name +:+ ": is a directory")))]
      | Some os.Irregular =>
          Err ("open " +:+ name +:+ ": no such device or address")
      | None => Err ("open " +:+ name +:+ ": no such file or directory")
      end
  end.

(** ** [uploadFile] (main.go, lines 115-136)

    Besides the returned pair the model keeps what the deferred
    [gcsObj.Close()] did (its error is dropped by the code), the final
    state of the remote stream and the trace of the copy. *)

Record upload : Type := mkUpload {
  up_ret : result string;
  up_stream : storage.Writer;
  up_close : option string;
  up_bucket : storage.Bucket;
  up_trace : list event
}.

Definition uploadFile (w : World) (b : storage.Bucket)
    (relPath gcsPath : string) : upload :=
  let gcsObj := storage.NewWriter (filepath.Join gcsPath relPath) in
  match Open w relPath with
  | Err e =>
      let '(cerr, b') := storage.Close b gcsObj in
      mkUpload (Err e) gcsObj cerr b' []
  | Ok f =>
      let h := sha256.New in
      let c := Copy b h f gcsObj in
      let '(cerr, b') := storage.Close b (c_sink c) in
      match c_err c with
      | Some e => mkUpload (Err e) (c_sink c) cerr b' (c_trace c)
      | None =>
          mkUpload (Ok ("sha256:" +:+ hex.EncodeToString (sha256.Sum (c_hash c))))
                   (c_sink c) cerr b' (c_trace c)
      end
  end.

(** ** The walk callback of [main] (main.go, lines 56-86)

    The callback gets the path, the [FileInfo] (a nil interface is
    [None]) and the incoming error.  It either panics or returns an
    error, and may have started one upload goroutine, identified by the
    [relPath] that goroutine was given. *)

Inductive called : Type :=
| CbPanic
| CbReturn (err : option string) (spawned : option string).

Definition walkFn (absRoot : string) (path : string)
    (fi : option os.FileInfo) (err : option string) : called :=
  match fi with
  | None => CbPanic                      (* [fi.Mode()] on a nil [FileInfo] *)
  | Some fi =>
      if negb (os.IsRegular (os.Mode fi)) then CbReturn None None
      else if String.eqb absRoot path then CbReturn None (Some path)
      else match filepath.Rel absRoot path with
           | Err e => CbReturn (Some e) None
           | Ok relPath => CbReturn None (Some relPath)
           end
  end.

(** ** [filepath.Walk]

    The walk calls the callback on the root and on every entry below it,
    the entries of a directory in the order of their names.  A directory
    that cannot be listed is reported to the callback with its
    [FileInfo] and the error, and is not entered; a root that cannot be
    examined is reported with a nil [FileInfo].  The callback of
    [main] never returns [SkipDir], so any non-nil error it returns ends
    the walk.  The result also lists the goroutines started so far. *)

Definition WalkFunc : Type :=
  string -> option os.FileInfo -> option string -> called.

Inductive walked : Type :=
| WPanic
| WReturn (err : option string) (tasks : list string).

Definition spawn (tasks : list string) (t : option string) : list string :=
  match t with
  | Some relPath => tasks ++ [relPath]
  | None => tasks
  end.

Fixpoint walk (fn : WalkFunc) (path : string) (n : os.node)
    (tasks : list string) {struct n} : walked :=
  match n with
  | os.Dir listable entries =>
      let err := if listable then None
                 else Some ("open " +:+ path +:+ ": permission denied") in
      match fn path (Some (os.info_of n)) err with
      | CbPanic => WPanic
      | CbReturn err1 t =>
          let tasks := spawn tasks t in
          match err, err1 with
          | None, None =>
              (fix each (es : list (string * os.node)) (tasks : list string)
                 : walked :=
                 match es with
                 | [] => WReturn None tasks
                 | (name, child) :: rest =>
                     match walk fn (filepath.Join path name) child tasks with
                     | WReturn None tasks' => each rest tasks'
                     | stop => stop
                     end
                 end) entries tasks
          | _, _ => WReturn err1 tasks
          end
      end
  | _ =>
      match fn path (Some (os.info_of n)) None with
      | CbPanic => WPanic
      | CbReturn err1 t => WReturn err1 (spawn tasks t)
      end
  end.

Definition Walk (w : World) (root : string) (fn : WalkFunc) : walked :=
  match Lstat w root with
  | None =>
      match fn root None (Some ("lstat " +:+ root +:+ ": no such file or directory")) with
      | CbPanic => WPanic
      | CbReturn err t => WReturn err (spawn [] t)
      end
  | Some n => walk fn root (os.sorted n) []
  end.

(** ** The goroutines and the channel

    Every started goroutine runs [uploadFile] and, if that succeeds,
    sends one [uploaded] value on the unbuffered channel; a failure ends
    the process ([log.Fatal]).  The main goroutine receives until the
    channel is closed, which happens once every goroutine is done.  The
    scheduler decides the order in which the uploads commit and the
    order in which the values are received: a schedule picks, at every
    step, one of the goroutines that are still waiting.  An upload
    touches the shared bucket only when its [Close] commits the object,
    and the file system only by reading, so running the uploads one
    after the other in the order of their commits loses nothing. *)

Record uploaded : Type := mkUploaded { sha : string; path : string }.

Fixpoint arrange {A : Type} (fuel : nat) (sched : list nat) (l : list A)
  : list A :=
  match fuel with
  | O => []
  | S fuel' =>
      let k := (List.hd 0 sched mod length l)%nat in
      match l !! k with
      | Some x => x :: arrange fuel' (List.tl sched) (delete k l)
      | None => []
      end
  end.

Definition schedule {A : Type} (sched : list nat) (l : list A) : list A :=
  arrange (length l) sched l.

(** The uploads, in the order they commit. *)
Fixpoint run_uploads (w : World) (b : storage.Bucket) (gcsPath : string)
    (tasks : list string) : result (list uploaded) * storage.Bucket :=
  match tasks with
  | [] => (Ok [], b)
  | relPath :: rest =>
      let u := uploadFile w b relPath gcsPath in
      match up_ret u with
      | Err e => (Err e, up_bucket u)
      | Ok s =>
          match run_uploads w (up_bucket u) gcsPath rest with
          | (Ok us, b') => (Ok (mkUploaded s relPath :: us), b')
          | (Err e, b') => (Err e, b')
          end
      end
  end.

(** [for f := range shaCh { mfst[f.path] = f.sha }] *)
Definition collect (received : list uploaded) : gmap string string :=
  List.fold_left (fun m f => <[path f := sha f]> m) received ∅.

(** ** Package [unicode/utf8] *)

Module utf8.
Local Open Scope Z_scope.

Definition RuneError : Z := 65533.   (* U+FFFD *)
Definition RuneSelf : Z := 128.
Definition UTFMax : nat := 4.

Definition locb : Z := 128.
Definition hicb : Z := 191.

(** The byte as a number. *)
Definition code (c : ascii) : Z := Z.of_N (N_of_ascii c).

(** The table [first] for the bytes from [0x80]: the size of the
    encoding that the byte starts and the range accepted for the second
    byte; [None] for a byte that starts no encoding. *)
Definition first (s0 : Z) : option (nat * Z * Z) :=
  if s0 <? 194 then None                         (* 0x80-0xC1 *)
  else if s0 <=? 223 then Some (2%nat, locb, hicb)   (* 0xC2-0xDF *)
  else if s0 =? 224 then Some (3%nat, 160, hicb)     (* 0xE0 *)
  else if s0 =? 237 then Some (3%nat, locb, 159)     (* 0xED *)
  else if s0 <=? 239 then Some (3%nat, locb, hicb)   (* 0xE1-0xEF *)
  else if s0 =? 240 then Some (4%nat, 144, hicb)     (* 0xF0 *)
  else if s0 <=? 243 then Some (4%nat, locb, hicb)   (* 0xF1-0xF3 *)
  else if s0 =? 244 then Some (4%nat, locb, 143)     (* 0xF4 *)
  else None.                                     (* 0xF5-0xFF *)

(** [s[k]], for [k] below the length. *)
Definition byte_at (k : nat) (s : string) : Z :=
  match String.get k s with
  | Some c => code c
  | None => 0
  end.

(** [utf8.DecodeRuneInString(s)]: the first rune of [s] and the number
    of bytes of its encoding; [(RuneError, 1)] for an encoding that is
    invalid or cut short. *)
Definition DecodeRuneInString (s : string) : Z * nat :=
  let n := String.length s in
  if (n <? 1)%nat then (RuneError, 0%nat)
  else
    let s0 := byte_at 0 s in
    if s0 <? RuneSelf then (s0, 1%nat)
    else
      match first s0 with
      | None => (RuneError, 1%nat)
      | Some (sz, lo, hi) =>
          if (n <? sz)%nat then (RuneError, 1%nat)
          else
            let s1 := byte_at 1 s in
            if (s1 <? lo) || (hi <? s1) then (RuneError, 1%nat)
            else if (sz <=? 2)%nat then
              (Z.lor (Z.shiftl (Z.land s0 31) 6) (Z.land s1 63), 2%nat)
            else
              let s2 := byte_at 2 s in
              if (s2 <? locb) || (hicb <? s2) then (RuneError, 1%nat)
              else if (sz <=? 3)%nat then
                (Z.lor (Z.shiftl (Z.land s0 15) 12)
                   (Z.lor (Z.shiftl (Z.land s1 63) 6) (Z.land s2 63)), 3%nat)
              else
                let s3 := byte_at 3 s in
                if (s3 <? locb) || (hicb <? s3) then (RuneError, 1%nat)
                else
                  (Z.lor (Z.shiftl (Z.land s0 7) 18)
                     (Z.lor (Z.shiftl (Z.land s1 63) 12)
                        (Z.lor (Z.shiftl (Z.land s2 63) 6) (Z.land s3 63))),
                   4%nat)
      end.

End utf8.

(** ** Package [encoding/json], for a [map[string]string]

    Keys are written in increasing order, and strings as [encoding/json]
    of Go 1.22 and later writes them with HTML escaping on: the quote,
    the backslash, the control characters and [<], [>], [&] are escaped,
    so are U+2028 and U+2029, and every byte that is not part of a valid
    UTF-8 encoding becomes [\ufffd]. *)

Module json.

Definition dquote : ascii := "034"%char.
Definition backslash : ascii := "092"%char.

(** What is written for a byte below [utf8.RuneSelf]. *)
Definition escape (c : ascii) : string :=
  let n := nat_of_ascii c in
  if Ascii.eqb c dquote then String backslash (String dquote EmptyString)
  else if Ascii.eqb c backslash then String backslash (String backslash EmptyString)
  else if (n =? 8)%nat then String backslash "b"
  else if (n =? 12)%nat then String backslash "f"
  else if (n =? 10)%nat then String backslash "n"
  else if (n =? 13)%nat then String backslash "r"
  else if (n =? 9)%nat then String backslash "t"
  else if (n <? 32)%nat || Ascii.eqb c "<" || Ascii.eqb c ">" || Ascii.eqb c "&"
  then String backslash "u00"
         +:+ String (hex.digit (Z.of_nat (n / 16)))
               (String (hex.digit (Z.of_nat (n mod 16))) EmptyString)
  else String c EmptyString.

(** The loop of [appendString] over what is left of the source; every
    turn takes at least one byte, so the length of the source is fuel
    enough. *)
Fixpoint appendString (fuel : nat) (src : string) : string :=
  match fuel with
  | O => EmptyString
  | S fuel' =>
      match src with
      | EmptyString => EmptyString
      | String b rest =>
          if (utf8.code b <? utf8.RuneSelf)%Z then escape b +:+ appendString fuel' rest
          else
            let '(c, size) :=
              utf8.DecodeRuneInString (String.substring 0 utf8.UTFMax src) in
            if (c =? utf8.RuneError)%Z && (size =? 1)%nat
            then String backslash "ufffd" +:+ appendString fuel' rest
            else if (c =? 8232)%Z || (c =? 8233)%Z   (* U+2028, U+2029 *)
            then String backslash "u202"
                   +:+ String (hex.digit (Z.land c 15)) EmptyString
                   +:+ appendString fuel' (strings.drop_prefix size src)
            else String.substring 0 size src
                   +:+ appendString fuel' (strings.drop_prefix size src)
      end
  end.

Definition escaped (s : string) : string := appendString (String.length s) s.

Definition quote (s : string) : string :=
  String dquote (escaped s) +:+ String dquote EmptyString.

Fixpoint insert_by_key (kv : string * string) (l : list (string * string))
  : list (string * string) :=
  match l with
  | [] => [kv]
  | kv' :: rest =>
      if String.leb (fst kv) (fst kv') then kv :: l
      else kv' :: insert_by_key kv rest
  end.

Definition sort_by_key (l : list (string * string)) : list (string * string) :=
  List.fold_right insert_by_key [] l.

Definition Marshal (m : gmap string string) : string :=
  "{" +:+ strings.Join
            (List.map (fun kv => quote (fst kv) +:+ ":" +:+ quote (snd kv))
                      (sort_by_key (map_to_list m))) ","
      +:+ "}".

End json.

(** ** [main] (main.go, lines 32-113) *)

Record flags : Type := mkFlags {
  src : string;
  dst : string;
  manifestPath : string
}.

(** What the main goroutine does to the outside, in order. *)
Inductive action : Type :=
| ActNewClient
| ActWalk (root : string)
| ActGo (relPath : string)                      (** an upload goroutine started *)
| ActRemoteWrite (object : string) (data : string)
| ActWriteFile (file : string) (data : string)
| ActPrint (data : string)
| ActRemoteClose (object : string) (err : option string).

Inductive outcome : Type :=
| Fatal (msg : string) (acts : list action)     (** [log.Fatal]: exit status 1 *)
| Panic (acts : list action)                    (** run-time panic: exit status 2 *)
| Exit0 (mfst : gmap string string) (b : storage.Bucket) (acts : list action).

Definition main (fl : flags) (w : World) (commits receives : list nat) : outcome :=
  match parseUri (dst fl) with
  | Err e => Fatal e []
  | Ok (bucketName, gcsPath) =>
  match client_fault w with
  | Some e => Fatal ("Failed to create new GCS client: " +:+ e) [ActNewClient]
  | None =>
  let absRoot := filepath.Abs (wd w) (src fl) in
  let acts := [ActNewClient; ActWalk absRoot] in
  match Walk w absRoot (walkFn absRoot) with
  | WPanic => Panic acts
  | WReturn (Some e) tasks => Fatal e (acts ++ List.map ActGo tasks)
  | WReturn None tasks =>
  let acts := acts ++ List.map ActGo tasks in
  match run_uploads w (bucket w) gcsPath (schedule commits tasks) with
  | (Err e, _) => Fatal e acts
  | (Ok done, b) =>
  let mfst := collect (schedule receives done) in
  let m := json.Marshal mfst in
  let object := filepath.Join gcsPath "manifest.json" in
  let mfstObj := storage.NewWriter object in
  match storage.Write b mfstObj (bytes_of_string m) with
  | (_, Some e, _) => Fatal e (acts ++ [ActRemoteWrite object m])
  | (_, None, mfstObj) =>
  let file := filepath.Join (manifestPath fl) "manifest.json" in
  match local_fault w with
  | Some e => Fatal e (acts ++ [ActRemoteWrite object m; ActWriteFile file m])
  | None =>
  let '(cerr, b') := storage.Close b mfstObj in
  Exit0 mfst b'
        (acts ++ [ActRemoteWrite object m; ActWriteFile file m; ActPrint m;
                  ActRemoteClose object cerr])
  end end end end end end.


(** ** The goroutines, step by step (main.go, lines 72-97)

    The same pipeline as a transition system, to check that the
    schedules above cover what the goroutines, the [WaitGroup] and the
    unbuffered channel can do.  After the walk every started goroutine
    is running [uploadFile].  When that returns a digest the goroutine
    blocks in the send; the send completes together with a receive of the
    range loop of the main goroutine, which stores the entry; then the
    deferred [wg.Done()] runs.  The closing goroutine closes the channel
    once the counter is zero, and the range loop ends on the closed
    channel. *)

Inductive goroutine : Type :=
| Running (relPath : string)   (** [uploadFile] has not returned yet *)
| Sending (u : uploaded)       (** blocked in [shaCh <- u] *)
| Sent                         (** the value was received, [wg.Done()] to come *)
| Finished.

Record pipeline : Type := mkPipeline {
  routines : list goroutine;
  counter : nat;                      (** the [WaitGroup] counter *)
  closed : bool;                      (** [close(shaCh)] has run *)
  remote : storage.Bucket;
  manifest : gmap string string;      (** the map [mfst] of the main goroutine *)
  received : list uploaded;           (** the values received so far, in order *)
  ranging : bool                      (** the main goroutine is in the range loop *)
}.

(** The state when [filepath.Walk] has returned. *)
Definition start (tasks : list string) (b : storage.Bucket) : pipeline :=
  mkPipeline (List.map Running tasks) (length tasks) false b ∅ [] true.

Inductive step (w : World) (gcsPath : string) : pipeline -> pipeline -> Prop :=
| step_upload (st : pipeline) (i : nat) (relPath s : string) :
    routines st !! i = Some (Running relPath) ->
    up_ret (uploadFile w (remote st) relPath gcsPath) = Ok s ->
    step w gcsPath st
      (mkPipeline (<[i := Sending (mkUploaded s relPath)]> (routines st))
         (counter st) (closed st)
         (up_bucket (uploadFile w (remote st) relPath gcsPath))
         (manifest st) (received st) (ranging st))
| step_receive (st : pipeline) (i : nat) (u : uploaded) :
    routines st !! i = Some (Sending u) ->
    closed st = false ->
    ranging st = true ->
    step w gcsPath st
      (mkPipeline (<[i := Sent]> (routines st)) (counter st) (closed st)
         (remote st) (<[path u := sha u]> (manifest st)) (received st ++ [u])
         (ranging st))
| step_done (st : pipeline) (i : nat) :
    routines st !! i = Some Sent ->
    step w gcsPath st
      (mkPipeline (<[i := Finished]> (routines st)) (counter st - 1) (closed st)
         (remote st) (manifest st) (received st) (ranging st))
| step_close (st : pipeline) :
    counter st = 0%nat ->
    closed st = false ->
    step w gcsPath st
      (mkPipeline (routines st) (counter st) true (remote st) (manifest st)
         (received st) (ranging st))
| step_leave (st : pipeline) :
    closed st = true ->
    ranging st = true ->
    step w gcsPath st
      (mkPipeline (routines st) (counter st) (closed st) (remote st)
         (manifest st) (received st) false).

(** A goroutine whose [wg.Done()] has not run counts one. *)
Definition weight (g : goroutine) : nat :=
  match g with
  | Finished => 0
  | _ => 1
  end.

(** The task a goroutine still owes a value for. *)
Definition owes (g : goroutine) : list string :=
  match g with
  | Running relPath => [relPath]
  | Sending u => [path u]
  | _ => []
  end.

(** The value is the digest of the local file its path opens. *)
Definition faithful (w : World) (u : uploaded) : Prop :=
  exists content : list byte,
    Lstat w (path u) = Some (os.Reg content) /\ sha u = digest_of content.

Definition faithful_routine (w : World) (g : goroutine) : Prop :=
  match g with
  | Sending u => faithful w u
  | _ => True
  end.

(** What every reachable state of the pipeline satisfies. *)
Record invariant (w : World) (tasks : list string) (st : pipeline) : Prop :=
  mkInvariant {
    inv_counter : counter st = sum_list_with weight (routines st);
    inv_manifest : manifest st = collect (received st);
    inv_closed : closed st = true -> counter st = 0%nat;
    inv_ranging : ranging st = false -> closed st = true;
    inv_tasks :
      List.concat (List.map owes (routines st)) ++ List.map path (received st)
      ≡ₚ tasks;
    inv_received : Forall (faithful w) (received st);
    inv_routines : Forall (faithful_routine w) (routines st)
  }.

(** ** Induction on the file tree *)

Section NodeInduction.
Variable P : os.node -> Prop.
Hypothesis HReg : forall content, P (os.Reg content).
Hypothesis HIrregular : P os.Irregular.
Hypothesis HDir : forall listable entries,
  Forall (fun e => P (snd e)) entries -> P (os.Dir listable entries).

Fixpoint node_induction (n : os.node) : P n :=
  match n with
  | os.Reg content => HReg content
  | os.Irregular => HIrregular
  | os.Dir listable entries =>
      HDir listable entries
        ((fix each (es : list (string * os.node)) : Forall (fun e => P (snd e)) es :=
            match es with
            | [] => @List.Forall_nil _ (fun e => P (snd e))
            | (name, child) :: rest =>
                @List.Forall_cons _ (fun e => P (snd e)) (name, child) rest
                  (node_induction child) (each rest)
            end) entries)
  end.
End NodeInduction.

(** The loop of [walk] over the entries of a directory. *)
Definition walk_each (fn : WalkFunc) (dir : string)
  : list (string * os.node) -> list string -> walked :=
  fix each (es : list (string * os.node)) (tasks : list string) : walked :=
    match es with
    | [] => WReturn None tasks
    | (name, child) :: rest =>
        match walk fn (filepath.Join dir name) child tasks with
        | WReturn None tasks' => each rest tasks'
        | stop => stop
        end
    end.

(** The entries of a directory of [os.sorted]. *)
Definition sort_entries : list (string * os.node) -> list (string * os.node) :=
  fix each (es : list (string * os.node)) : list (string * os.node) :=
    match es with
    | [] => []
    | (name, child) :: rest => os.insert (name, os.sorted child) (each rest)
    end.

(** A valid file name. *)
Definition valid (c : string) : Prop := os.valid_name c = true.

(** ** Vocabulary of the statements *)

(** [sha256:] followed by 64 lower-case hexadecimal digits. *)
Definition digest_format (d : string) : Prop :=
  exists h : string,
    d = "sha256:" +:+ h /\ String.length h = 64 /\ hex.all_lower_hex h = true.

(** What one chunk that passes the tee and the copy loop leaves in the
    trace. *)
Definition chunk_events (p : list byte) : list event :=
  [EvRead p; EvSinkWrite p; EvTeeReturn p; EvHashWrite p].

(** In the trace, the digest is updated with the bytes of every
    non-empty chunk before the tee returns that chunk to its caller. *)
Definition hash_before_return (tr : list event) : Prop :=
  forall (i : nat) (p : list byte),
    tr !! i = Some (EvTeeReturn p) -> p <> [] ->
    exists j : nat, (j < i)%nat /\ tr !! j = Some (EvHashWrite p).

(** In the trace, every non-empty chunk is written to the sink before
    the tee returns it to its caller. *)
Definition sink_before_return (tr : list event) : Prop :=
  forall (i : nat) (p : list byte),
    tr !! i = Some (EvTeeReturn p) -> p <> [] ->
    exists j : nat, (j < i)%nat /\ tr !! j = Some (EvSinkWrite p).

(** The regular files at or below a node, each as the list of names
    leading to it. *)
Fixpoint regular_paths (n : os.node) : list (list string) :=
  match n with
  | os.Reg _ => [[]]
  | os.Irregular => []
  | os.Dir _ es =>
      (fix each (es : list (string * os.node)) : list (list string) :=
         match es with
         | [] => []
         | (name, child) :: rest =>
             List.map (cons name) (regular_paths child) ++ each rest
         end) es
  end.

(** ** Concrete environments used in the examples *)

Definition text (s : string) : list byte := bytes_of_string s.

(** An empty bucket of a service that never fails. *)
Definition quiet_bucket : storage.Bucket :=
  storage.mkBucket ∅ (fun _ _ => None) (fun _ => false).

(** [/data] holds [a.txt], [sub/b.txt] and an irregular entry. *)
Definition tree_fs : os.node :=
  os.Dir true
    [("data", os.Dir true
        [("a.txt", os.Reg (text "hello"));
         ("sub", os.Dir true [("b.txt", os.Reg (text "abc"));
                              ("lnk", os.Irregular)])])].

Definition tree_world : World := mkWorld "/data" tree_fs quiet_bucket None None openable.

(** [/data/a.txt] and [/home/a.txt] have different contents. *)
Definition twin_fs : os.node :=
  os.Dir true
    [("data", os.Dir true [("a.txt", os.Reg (text "hello"))]);
     ("home", os.Dir true [("a.txt", os.Reg (text "other"))])].

(** The process runs in [/home]. *)
Definition twin_world : World := mkWorld "/home" twin_fs quiet_bucket None None openable.

(** A service that refuses to commit the named object. *)
Definition refusing (object : string) : storage.Bucket :=
  storage.mkBucket ∅ (fun _ _ => None) (fun name => String.eqb name object).

Definition refused_world (object : string) : World :=
  mkWorld "/data" twin_fs (refusing object) None None openable.

(** [/data/secret] cannot be listed. *)
Definition locked_fs : os.node :=
  os.Dir true
    [("data", os.Dir true
        [("a.txt", os.Reg (text "hello"));
         ("secret", os.Dir false [("k.txt", os.Reg (text "key"))])])].

Definition locked_world : World := mkWorld "/data" locked_fs quiet_bucket None None openable.

(** [/data] holds directories and an irregular entry, no regular file. *)
Definition bare_fs : os.node :=
  os.Dir true
    [("data", os.Dir true [("empty", os.Dir true []); ("lnk", os.Irregular)])].

Definition bare_world : World := mkWorld "/srv" bare_fs quiet_bucket None None openable.

(** Whether [main] returned, and what it left behind (empty for a run
    that did not return). *)
Definition returned (o : outcome) : bool :=
  match o with
  | Exit0 _ _ _ => true
  | _ => false
  end.

Definition final_manifest (o : outcome) : gmap string string :=
  match o with
  | Exit0 mfst _ _ => mfst
  | _ => ∅
  end.

Definition final_bucket (o : outcome) : storage.Bucket :=
  match o with
  | Exit0 _ b _ => b
  | _ => quiet_bucket
  end.

Definition final_acts (o : outcome) : list action :=
  match o with
  | Exit0 _ _ acts | Fatal _ acts | Panic acts => acts
  end.

(** ** Vocabulary of the further properties *)

(** A service that refuses the first write on the named object's stream
    after [n] bytes. *)
Definition stalling (object : string) (n : nat) : storage.Bucket :=
  storage.mkBucket ∅
    (fun name k => if String.eqb name object && (k =? 0) then Some n else None)
    (fun _ => false).

(** The two last things a run does: print the manifest and commit the
    remote manifest object. *)
Definition concluding (a : action) : bool :=
  match a with
  | ActPrint _ | ActRemoteClose _ _ => true
  | _ => false
  end.

(** The node reached from [n] along the names [cs] when every directory
    that has to be read on the way can be listed. *)
Fixpoint find_listed (n : os.node) (cs : list string) : option os.node :=
  match cs with
  | [] => Some n
  | c :: cs' =>
      match n with
      | os.Dir true es =>
          match os.entry c es with
          | Some child => find_listed child cs'
          | None => None
          end
      | _ => None
      end
  end.

(** The regular files at or below a node that can be reached through
    directories that can be listed. *)
Fixpoint visible_paths (n : os.node) : list (list string) :=
  match n with
  | os.Reg _ => [[]]
  | os.Irregular => []
  | os.Dir l es =>
      if l then
        (fix each (es : list (string * os.node)) : list (list string) :=
           match es with
           | [] => []
           | (name, child) :: rest =>
               List.map (cons name) (visible_paths child) ++ each rest
           end) es
      else []
  end.

(** What the walk from the root with elements [R] does to a node found
    along the names [S] below the root, whether or not its directories
    can be listed. *)
Definition sees (R : list string) (n : os.node) : Prop :=
  os.wf n = true ->
  forall (S : list string) (tasks : list string),
    Forall valid S -> S <> [] ->
    walk (walkFn (filepath.rooted R)) (filepath.rooted (R ++ S)) n tasks
    = WReturn None
        (tasks ++ List.map (fun T => strings.Join (S ++ T) "/") (visible_paths n)).

(** [/data] holds [manifest.json] besides [a.txt]. *)
Definition clash_fs : os.node :=
  os.Dir true
    [("data", os.Dir true
        [("a.txt", os.Reg (text "hello"));
         ("manifest.json", os.Reg (text "mine"))])].

Definition clash_world : World := mkWorld "/data" clash_fs quiet_bucket None None openable.

(** Two goroutines that overlap: the upload of [sub/b.txt] commits
    first, then that of [a.txt]; both block in the send; the range loop
    receives the value for [sub/b.txt] first; both run [wg.Done()] and
    the channel is closed.  [crossed true] is the state before the range
    loop sees the closed channel, [crossed false] the one after. *)
Definition two_tasks : list string := ["a.txt"; "sub/b.txt"].

Definition file_a : uploaded := mkUploaded (digest_of (text "hello")) "a.txt".
Definition file_b : uploaded := mkUploaded (digest_of (text "abc")) "sub/b.txt".

Definition crossed_bucket : storage.Bucket :=
  up_bucket (uploadFile tree_world
               (up_bucket (uploadFile tree_world quiet_bucket "sub/b.txt" "pre"))
               "a.txt" "pre").

Definition crossed (in_loop : bool) : pipeline :=
  mkPipeline [Finished; Finished] 0 true crossed_bucket
    (<["a.txt" := sha file_a]> (<["sub/b.txt" := sha file_b]> ∅))
    [file_b; file_a] in_loop.

(** The number of [Write] calls that a copy of the reader [f] makes on
    the sink: one for every non-empty read, up to the first read that
    comes with an error. *)
Fixpoint writes (f : io.Reader) : nat :=
  match f with
  | [] => 0
  | (p, er) :: rest =>
      ((if (0 <? length p)%nat then 1 else 0)
       + match er with
         | None => writes rest
         | Some _ => 0
         end)%nat
  end.

(** No [Read] of [f] fails: the first error, if any, is [io.EOF]. *)
Fixpoint ends_well (f : io.Reader) : bool :=
  match f with
  | [] => true
  | (_, None) :: rest => ends_well rest
  | (_, Some io.EOF) :: _ => true
  | (_, Some (io.Failure _)) :: _ => false
  end.
(** * Properties *)

(** ** The library model on known values *)

Example Sum256_of_nothing :
  hex.EncodeToString (sha256.Sum256 [])
  = "e3b0c44298fc1c149afbf4c8996fb92427ae41e4649b934ca495991b7852b855".
Proof. vm_compute. reflexivity. Qed.

Example Sum256_of_abc :
  hex.EncodeToString (sha256.Sum256 (text "abc"))
  = "ba7816bf8f01cfea414140de5dae2223b00361a396177a9cb410ff61f20015ad".
Proof. vm_compute. reflexivity. Qed.

Example Sum256_of_two_blocks :
  hex.EncodeToString
    (sha256.Sum256 (text "abcdbcdecdefdefgefghfghighijhijkijkljklmklmnlmnomnopnopq"))
  = "248d6a61d20638b8e5c026930c3e6039a33ce45964ff2167f6ecedd419db06c1".
Proof. vm_compute. reflexivity. Qed.

Example Clean_examples :
  filepath.Clean "/a//b/./c/../d/" = "/a/b/d"
  /\ filepath.Clean "a/../../b" = "../b"
  /\ filepath.Clean "" = "."
  /\ filepath.Clean "/.." = "/".
Proof. repeat split. Qed.

Example Join_examples :
  filepath.Join "/a/b" "c/d" = "/a/b/c/d"
  /\ filepath.Join "/" "x" = "/x"
  /\ filepath.Join "pre" "/data/a.txt" = "pre/data/a.txt"
  /\ filepath.Join "." "manifest.json" = "manifest.json"
  /\ filepath.Join "" "a" = "a".
Proof. repeat split. Qed.

Example Rel_examples :
  filepath.Rel "/a/b" "/a/b/c/d" = Ok "c/d"
  /\ filepath.Rel "/" "/a" = Ok "a"
  /\ filepath.Rel "/a/b" "/a/x" = Ok "../x"
  /\ filepath.Rel "/a/b" "/a/b" = Ok "."
  /\ is_err (filepath.Rel "a" "/a") = true.
Proof. repeat split. Qed.

Example parseUri_examples :
  parseUri "gs://bkt/a/b" = Ok ("bkt", "a/b")
  /\ parseUri "bkt/a" = Ok ("bkt", "a")
  /\ parseUri "bkt" = Err "invalid uri: bkt"
  /\ parseUri "gs://bkt" = Err "invalid uri: bkt".
Proof. repeat split. Qed.

Example Marshal_example :
  json.Marshal (<["b" := "2"]> (<["a<" := "1"]> ∅))
  = String "{" (json.quote "a<") +:+ ":" +:+ json.quote "1" +:+ ","
      +:+ json.quote "b" +:+ ":" +:+ json.quote "2" +:+ "}"
  /\ String.length (json.quote "a<") = 9%nat.
Proof. split; vm_compute; reflexivity. Qed.

(** Strings as [encoding/json] writes them: short escapes for the
    control characters that have one, [\u2028] for the line separator,
    [\ufffd] for every byte that is not part of a valid encoding (a
    lone byte, an encoding cut short, a surrogate), other valid runes
    and [DEL] as they are. *)
Example quote_examples :
  json.quote (String "008" (String "012" (String "010" (String "001" EmptyString))))
  = String json.dquote
      (String json.backslash "b" +:+ String json.backslash "f"
       +:+ String json.backslash "n" +:+ String json.backslash "u0001")
    +:+ String json.dquote EmptyString
  /\ json.escaped (String "226" (String "128" (String "168" "a")))
     = String json.backslash "u2028a"
  /\ json.escaped (String "226" (String "128" (String "169" EmptyString)))
     = String json.backslash "u2029"
  /\ json.escaped (String "255" "a") = String json.backslash "ufffda"
  /\ json.escaped (String "226" (String "128" EmptyString))
     = String json.backslash "ufffd" +:+ String json.backslash "ufffd"
  /\ json.escaped (String "237" (String "160" (String "128" EmptyString)))
     = String json.backslash "ufffd" +:+ String json.backslash "ufffd"
       +:+ String json.backslash "ufffd"
  /\ json.escaped (String "195" (String "169" EmptyString))
     = String "195" (String "169" EmptyString)
  /\ json.escaped (String "239" (String "191" (String "189" EmptyString)))
     = String "239" (String "191" (String "189" EmptyString))
  /\ json.escaped (String "240" (String "159" (String "152" (String "128" "!"))))
     = String "240" (String "159" (String "152" (String "128" "!")))
  /\ json.escaped (String "127" EmptyString) = String "127" EmptyString.
Proof. repeat split; vm_compute; reflexivity. Qed.

Example main_on_a_tree :
  final_acts (main (mkFlags "." "gs://bkt/pre" "/out") tree_world [1] [0])
  = [ActNewClient; ActWalk "/data"; ActGo "a.txt"; ActGo "sub/b.txt";
     ActRemoteWrite "pre/manifest.json"
       (json.Marshal (<["a.txt" := digest_of (text "hello")]>
                        (<["sub/b.txt" := digest_of (text "abc")]> ∅)));
     ActWriteFile "/out/manifest.json"
       (json.Marshal (<["a.txt" := digest_of (text "hello")]>
                        (<["sub/b.txt" := digest_of (text "abc")]> ∅)));
     ActPrint
       (json.Marshal (<["a.txt" := digest_of (text "hello")]>
                        (<["sub/b.txt" := digest_of (text "abc")]> ∅)));
     ActRemoteClose "pre/manifest.json" None].
Proof. vm_compute. reflexivity. Qed.


(** The walk takes the entries of a directory in the order of their
    names, byte by byte, whatever the order in which the tree holds
    them. *)
Example Walk_in_the_order_of_the_names :
  Walk (mkWorld "/data"
          (os.Dir true
             [("data", os.Dir true
                 [("b.txt", os.Reg (text "2")); ("a.txt", os.Reg (text "1"));
                  ("sub", os.Dir true [("z", os.Reg []); ("y", os.Reg [])]);
                  ("B", os.Reg (text "3"))])])
          quiet_bucket None None openable)
       "/data" (walkFn "/data")
  = WReturn None ["B"; "a.txt"; "b.txt"; "sub/y"; "sub/z"].
Proof. vm_compute. reflexivity. Qed.

(** ** Splitting strings at a separator *)

Section Cut.
Variable sep : ascii.

Lemma contains_app (a b : string) :
  strings.contains sep (a +:+ String sep b).
Proof. induction a as [|c a IH]; simpl; [now left | now right]. Qed.

Lemma cut_Some (s a b : string) :
  strings.cut sep s = Some (a, b) ->
  s = a +:+ String sep b /\ ~ strings.contains sep a.
Proof.
  revert a b. induction s as [|c s IH]; simpl; intros a b H; [discriminate|].
  destruct (Ascii.eqb_spec c sep) as [->|Hne].
  - injection H as <- <-. simpl. tauto.
  - destruct (strings.cut sep s) as [[a' b']|]; [|discriminate].
    injection H as <- <-. destruct (IH a' b' eq_refl) as [-> Hno].
    split; [reflexivity|]. simpl. intros [Hc|Hc]; [now apply Hne | now apply Hno].
Qed.

Lemma cut_None (s : string) :
  strings.cut sep s = None <-> ~ strings.contains sep s.
Proof.
  split.
  - induction s as [|c s IH]; simpl; [tauto|].
    destruct (Ascii.eqb_spec c sep) as [->|Hne]; [discriminate|].
    destruct (strings.cut sep s) as [[a b]|]; [discriminate|].
    intros _ [Hc|Hc]; [now apply Hne | now apply IH].
  - intros Hno. destruct (strings.cut sep s) as [[a b]|] eqn:E; [|reflexivity].
    apply cut_Some in E as [-> _]. destruct Hno. apply contains_app.
Qed.

Lemma cut_app (a b : string) :
  ~ strings.contains sep a ->
  strings.cut sep (a +:+ String sep b) = Some (a, b).
Proof.
  induction a as [|c a IH]; simpl; intros Hno.
  - now rewrite Ascii.eqb_refl.
  - destruct (Ascii.eqb_spec c sep) as [->|Hne]; [tauto|].
    rewrite IH; [reflexivity|tauto].
Qed.

Lemma SplitN_2 (s : string) :
  strings.SplitN s sep 2 =
  match strings.cut sep s with
  | Some (a, b) => [a; b]
  | None => [s]
  end.
Proof. simpl. now destruct (strings.cut sep s) as [[a b]|]. Qed.

End Cut.

(** ** [parseUri] *)

Lemma parseUri_cut (uri : string) :
  parseUri uri =
  match strings.cut slash (strip_scheme uri) with
  | Some (bkt, pre) => Ok (bkt, pre)
  | None => Err ("invalid uri: " +:+ strip_scheme uri)
  end.
Proof.
  unfold parseUri. rewrite SplitN_2.
  now destruct (strings.cut slash (strip_scheme uri)) as [[a b]|].
Qed.

Lemma main_parse_error (fl : flags) (w : World) (cs rs : list nat) :
  (exists e, main fl w cs rs = Fatal e []) <-> is_err (parseUri (dst fl)) = true.
Proof.
  unfold main. destruct (parseUri (dst fl)) as [[bkt pre]|e]; simpl.
  - split; [|discriminate]. intros [e He]. exfalso.
    destruct (client_fault w); [discriminate|].
    destruct (Walk _ _ _) as [|[e'|] tasks]; [discriminate..|].
    destruct (run_uploads _ _ _ _) as [[done|e'] b]; [|discriminate].
    destruct (storage.Write _ _ _) as [[n [e'|]] o]; [discriminate|].
    destruct (local_fault w); [discriminate|].
    destruct (storage.Close _ _). discriminate.
  - split; [reflexivity|]. intros _. now exists e.
Qed.

(** C1, as the code has it: [parseUri] fails exactly when the URI, after
    an optional leading [gs://] is removed, holds no [/] at all.  When it
    succeeds, the bucket is what precedes the first [/] and the prefix is
    everything after it, and either of them may be empty.  [main] ends
    with a fatal error before it has created the client, walked or
    started an upload exactly when [parseUri] fails on the [dst] flag. *)
Theorem parseUri_fails_iff_no_separator (uri : string) :
  (is_err (parseUri uri) = true <-> ~ strings.contains slash (strip_scheme uri))
  /\ (forall bkt pre : string,
        parseUri uri = Ok (bkt, pre) <->
        strip_scheme uri = bkt +:+ "/" +:+ pre /\ ~ strings.contains slash bkt)
  /\ (forall (fl : flags) (w : World) (cs rs : list nat),
        dst fl = uri ->
        ((exists e, main fl w cs rs = Fatal e []) <-> is_err (parseUri uri) = true)).
Proof.
  rewrite parseUri_cut. split; [|split].
  - rewrite <- cut_None.
    destruct (strings.cut slash (strip_scheme uri)) as [[a b]|]; simpl;
      split; congruence.
  - intros bkt pre. split.
    + destruct (strings.cut slash (strip_scheme uri)) as [[a b]|] eqn:E;
        [|discriminate].
      intros [= <- <-]. now apply cut_Some in E.
    + intros [-> Hno]. change (bkt +:+ "/" +:+ pre) with (bkt +:+ String slash pre).
      now rewrite cut_app.
  - intros fl w cs rs <-. rewrite <- parseUri_cut. apply main_parse_error.
Qed.

(** C1 as stated fails: a URI with an empty bucket part, and one with an
    empty prefix part, are both accepted. *)
Lemma parseUri_accepts_empty_components :
  parseUri "/prefix" = Ok ("", "prefix")
  /\ parseUri "bucket/" = Ok ("bucket", "")
  /\ parseUri "gs:///" = Ok ("", "").
Proof. repeat split. Qed.

(** ** The walk *)

Lemma walk_Dir (fn : WalkFunc) (dir : string) (l : bool)
    (es : list (string * os.node)) (tasks : list string) :
  walk fn dir (os.Dir l es) tasks =
  match fn dir (Some (os.mkInfo os.ModeDir))
           (if l then None else Some ("open " +:+ dir +:+ ": permission denied")) with
  | CbPanic => WPanic
  | CbReturn err1 t =>
      match (if l then None else Some ("open " +:+ dir +:+ ": permission denied")), err1 with
      | None, None => walk_each fn dir es (spawn tasks t)
      | _, _ => WReturn err1 (spawn tasks t)
      end
  end.
Proof. reflexivity. Qed.

Lemma walkFn_Dir (absRoot dir : string) (err : option string) :
  walkFn absRoot dir (Some (os.mkInfo os.ModeDir)) err = CbReturn None None.
Proof. reflexivity. Qed.

Lemma walkFn_never_panics_on_info (absRoot p : string) (fi : os.FileInfo)
    (err : option string) :
  walkFn absRoot p (Some fi) err <> CbPanic.
Proof.
  unfold walkFn. destruct (negb _); [discriminate|].
  destruct (String.eqb _ _); [discriminate|].
  destruct (filepath.Rel _ _); discriminate.
Qed.

Lemma walk_never_panics (absRoot : string) (n : os.node) :
  forall (p : string) (tasks : list string),
    walk (walkFn absRoot) p n tasks <> WPanic.
Proof.
  induction n as [content| |l es IH] using node_induction; intros p tasks.
  - simpl. destruct (String.eqb absRoot p); [discriminate|].
    destruct (filepath.Rel absRoot p); discriminate.
  - simpl. discriminate.
  - rewrite walk_Dir, walkFn_Dir. destruct l; [|discriminate].
    simpl spawn. revert tasks. induction IH as [|[name child] rest Hc _ IHrest];
      intros tasks; simpl; [discriminate|].
    specialize (Hc (filepath.Join p name) tasks). simpl in Hc.
    destruct (walk _ _ child tasks) as [|[e|] tasks']; [congruence|discriminate|].
    apply IHrest.
Qed.

(** C10: the callback never looks at the incoming error (its result is
    the same for every error value) and calls [fi.Mode()] first: it
    panics exactly when the [FileInfo] is nil.  [filepath.Walk] makes
    that call when the root cannot be examined, so the walk of [main]
    panics exactly in that case instead of returning the error. *)
Theorem walkFn_panics_iff_nil_FileInfo (absRoot p : string) :
  (forall (fi : option os.FileInfo) (err : option string),
      walkFn absRoot p fi err = CbPanic <-> fi = None)
  /\ (forall (fi : option os.FileInfo) (err err' : option string),
        walkFn absRoot p fi err = walkFn absRoot p fi err')
  /\ (forall (w : World) (root : string),
        Walk w root (walkFn absRoot) = WPanic <-> Lstat w root = None).
Proof.
  split; [|split].
  - intros [fi|] err; split; try reflexivity; try discriminate.
    intros H. now apply walkFn_never_panics_on_info in H.
  - intros fi err err'. reflexivity.
  - intros w root. unfold Walk. destruct (Lstat w root) as [n|]; simpl.
    + split; [|discriminate]. intros H. now apply walk_never_panics in H.
    + tauto.
Qed.

(** ** Hexadecimal digests *)

Lemma digit_hi_lower_hex (v : byte) :
  hex.is_lower_hex (hex.digit (Z.shiftr (byte_to_Z v) 4)) = true.
Proof. destruct v; reflexivity. Qed.

Lemma digit_lo_lower_hex (v : byte) :
  hex.is_lower_hex (hex.digit (Z.land (byte_to_Z v) 15)) = true.
Proof. destruct v; reflexivity. Qed.

Lemma EncodeToString_length (src : list byte) :
  String.length (hex.EncodeToString src) = (2 * length src)%nat.
Proof. induction src as [|v src IH]; simpl; [reflexivity|]. rewrite IH. lia. Qed.

Lemma EncodeToString_lower_hex (src : list byte) :
  hex.all_lower_hex (hex.EncodeToString src) = true.
Proof.
  induction src as [|v src IH]; simpl; [reflexivity|].
  now rewrite digit_hi_lower_hex, digit_lo_lower_hex, IH.
Qed.

Lemma be_bytes_length (n : nat) (x : Z) : length (sha256.be_bytes n x) = n.
Proof.
  unfold sha256.be_bytes.
  now rewrite List.length_map, List.length_rev, List.length_seq.
Qed.

Lemma put_regs_length (hh : sha256.regs) :
  length (sha256.put_regs hh) = sha256.Size.
Proof.
  destruct hh as [[[[[[[h0 h1] h2] h3] h4] h5] h6] h7].
  unfold sha256.put_regs. simpl List.concat.
  repeat rewrite List.length_app. repeat rewrite be_bytes_length. reflexivity.
Qed.

Lemma Sum256_length (data : list byte) :
  length (sha256.Sum256 data) = sha256.Size.
Proof. apply put_regs_length. Qed.

Lemma digest_of_format (content : list byte) : digest_format (digest_of content).
Proof.
  exists (hex.EncodeToString (sha256.Sum256 content)). split; [reflexivity|].
  split; [|apply EncodeToString_lower_hex].
  now rewrite EncodeToString_length, Sum256_length.
Qed.

(** ** The tee and the copy loop *)

Lemma pieces_concat (n : nat) (l : list byte) :
  (0 < n)%nat -> forall fuel : nat, (length l <= fuel)%nat ->
  List.concat (pieces fuel n l) = l.
Proof.
  intros Hn fuel. revert l.
  induction fuel as [|fuel IH]; intros l Hl.
  - destruct l; [reflexivity | simpl in Hl; lia].
  - destruct l as [|x l]; [reflexivity|].
    cbn [pieces List.concat]. rewrite IH.
    + apply List.firstn_skipn.
    + rewrite List.length_skipn. simpl in *. lia.
Qed.

Lemma delivered_chunks (ps : list (list byte)) :
  io.delivered (List.map (fun p => (p, None)) ps) = List.concat ps.
Proof. induction ps as [|p ps IH]; simpl; [reflexivity|]. now rewrite IH. Qed.

Lemma delivered_file_reader (content : list byte) :
  io.delivered (file_reader content) = content.
Proof.
  unfold file_reader. rewrite delivered_chunks.
  apply pieces_concat; [unfold copy_buf; lia | lia].
Qed.

(** A copy that reports no error has sent to the sink, and written to
    the hash, exactly the bytes the source delivered, in order. *)
Lemma Copy_no_error (b : storage.Bucket) (f : io.Reader) :
  forall (h : sha256.digest) (w : storage.Writer),
    c_err (Copy b h f w) = None ->
    storage.sent (c_sink (Copy b h f w)) = storage.sent w ++ io.delivered f
    /\ sha256.written (c_hash (Copy b h f w)) = sha256.written h ++ io.delivered f
    /\ storage.name (c_sink (Copy b h f w)) = storage.name w
    /\ storage.failed (c_sink (Copy b h f w)) = storage.failed w.
Proof.
  induction f as [|[p er] rest IH]; intros h w.
  - simpl. now rewrite !List.app_nil_r.
  - destruct p as [|x p].
    + destruct er as [[|e]|]; cbn; [intros _|discriminate|].
      * now rewrite !List.app_nil_r.
      * intros H. apply (IH _ _ H).
    + cbn [Copy tee_Read io.delivered length Nat.ltb Nat.leb]. unfold storage.Write.
      destruct (storage.write_fault b (storage.name w) (storage.calls w)) as [n|];
        [discriminate|].
      destruct er as [[|e]|]; cbn; [intros _|discriminate|].
      * repeat split; reflexivity.
      * intros H. destruct (IH _ _ H) as (Hs & Hh & Hn & Hf).
        cbn in Hs, Hh, Hn, Hf. rewrite Hs, Hh, Hn, Hf.
        now rewrite <- !List.app_assoc.
Qed.

(** Whatever happens, the bytes sent to the sink and the bytes written
    to the hash by one copy are the same sequence. *)
Lemma Copy_in_step (b : storage.Bucket) (f : io.Reader) :
  forall (h : sha256.digest) (w : storage.Writer),
  exists X : list byte,
    storage.sent (c_sink (Copy b h f w)) = storage.sent w ++ X
    /\ sha256.written (c_hash (Copy b h f w)) = sha256.written h ++ X.
Proof.
  induction f as [|[p er] rest IH]; intros h w.
  - exists []. cbn. now rewrite !List.app_nil_r.
  - destruct p as [|x p].
    + destruct er as [[|e]|]; cbn;
        [exists []; now rewrite !List.app_nil_r..|apply IH].
    + cbn [Copy tee_Read length Nat.ltb Nat.leb]. unfold storage.Write.
      destruct (storage.write_fault b (storage.name w) (storage.calls w)) as [n|].
      * exists (firstn (Nat.min n (length (x :: p))) (x :: p)).
        destruct (firstn (Nat.min n (length (x :: p))) (x :: p)) as [|y q] eqn:E;
          cbn; rewrite ?E; cbn; now rewrite ?List.app_nil_r.
      * destruct er as [[|e]|]; cbn; [now exists (x :: p)..|].
        match goal with |- context [Copy b ?h' rest ?w'] =>
          destruct (IH h' w') as (X & Hs & Hh) end.
        exists ((x :: p) ++ X). cbn in Hs, Hh. rewrite Hs, Hh.
        now rewrite <- !List.app_assoc.
Qed.

Lemma Copy_chunks_trace (b : storage.Bucket) (chunks : list (list byte)) :
  Forall (fun p => p <> []) chunks ->
  forall (h : sha256.digest) (w : storage.Writer),
    (forall k, storage.write_fault b (storage.name w) k = None) ->
    c_err (Copy b h (List.map (fun p => (p, None)) chunks) w) = None
    /\ c_trace (Copy b h (List.map (fun p => (p, None)) chunks) w) =
       List.concat (List.map chunk_events chunks) ++ [EvRead []; EvTeeReturn []].
Proof.
  induction 1 as [|p chunks Hp _ IH]; intros h w Hw; [now split|].
  destruct p as [|x p]; [congruence|].
  cbn [List.map Copy tee_Read length Nat.ltb Nat.leb]. unfold storage.Write.
  rewrite Hw. cbn.
  match goal with |- context [Copy b ?h' _ ?w'] =>
    destruct (IH h' w') as [-> ->]; [exact Hw|] end.
  now split.
Qed.

Lemma sink_before_return_chunks (chunks : list (list byte)) (tl : list event) :
  sink_before_return tl ->
  sink_before_return (List.concat (List.map chunk_events chunks) ++ tl).
Proof.
  intros Htl. induction chunks as [|q chunks IH]; [exact Htl|].
  intros i p Hi Hp. cbn in Hi.
  destruct i as [|[|[|[|i]]]]; cbn in Hi; try discriminate.
  - injection Hi as <-. exists 1%nat. split; [lia | reflexivity].
  - destruct (IH i p Hi Hp) as (j & Hj & Hlook).
    exists (4 + j)%nat. split; [lia | exact Hlook].
Qed.

Lemma Copy_chunks_state (b : storage.Bucket) (chunks : list (list byte)) :
  Forall (fun p => p <> []) chunks ->
  forall (h : sha256.digest) (w : storage.Writer),
    (forall k, storage.write_fault b (storage.name w) k = None) ->
    storage.sent (c_sink (Copy b h (List.map (fun p => (p, None)) chunks) w))
    = storage.sent w ++ List.concat chunks
    /\ storage.calls (c_sink (Copy b h (List.map (fun p => (p, None)) chunks) w))
       = (storage.calls w + length chunks)%nat
    /\ sha256.written (c_hash (Copy b h (List.map (fun p => (p, None)) chunks) w))
       = sha256.written h ++ List.concat chunks.
Proof.
  induction 1 as [|p chunks Hp _ IH]; intros h w Hw.
  - cbn. rewrite !List.app_nil_r. repeat split. lia.
  - destruct p as [|x p]; [congruence|].
    cbn [List.map Copy tee_Read length Nat.ltb Nat.leb]. unfold storage.Write.
    rewrite Hw. cbn.
    match goal with |- context [Copy b ?h' _ ?w'] =>
      destruct (IH h' w') as (-> & -> & ->); [exact Hw|] end.
    cbn. rewrite <- !List.app_assoc. repeat split. lia.
Qed.

(** C9, as the code has it: every non-empty chunk read through the tee
    is written once to the remote sink before [tee.Read] returns it to
    its caller, the copy loop; the caller then updates the digest once
    with the same bytes, before the next read.  So per chunk the order is
    sink write, return, digest update.  The events are what happens to
    the stream and to the digest: one read through the tee is one
    [Write] of the chunk on the stream, and after the copy the stream
    has been written once per chunk and holds the chunks in order, as
    does the digest. *)
Theorem tee_writes_sink_then_caller_hashes (b : storage.Bucket)
    (h : sha256.digest) (w : storage.Writer) (chunks : list (list byte)) :
  Forall (fun p => p <> []) chunks ->
  (forall k, storage.write_fault b (storage.name w) k = None) ->
  let c := Copy b h (List.map (fun p => (p, None)) chunks) w in
  c_err c = None
  /\ c_trace c =
     List.concat (List.map chunk_events chunks) ++ [EvRead []; EvTeeReturn []]
  /\ sink_before_return (c_trace c)
  /\ storage.sent (c_sink c) = storage.sent w ++ List.concat chunks
  /\ storage.calls (c_sink c) = (storage.calls w + length chunks)%nat
  /\ sha256.written (c_hash c) = sha256.written h ++ List.concat chunks
  /\ (forall (p : list byte) (er : option io.error) (w0 : storage.Writer),
        p <> [] -> storage.name w0 = storage.name w ->
        tee_Read b (p, er) w0
        = ((p, er),
           storage.mkWriter (storage.name w0) (storage.sent w0 ++ p)
             (S (storage.calls w0)) (storage.failed w0),
           [EvRead p; EvSinkWrite p; EvTeeReturn p]))
  /\ (forall (p : list byte) (rest : io.Reader) (h0 : sha256.digest)
             (w0 : storage.Writer),
        p <> [] -> storage.name w0 = storage.name w ->
        let next :=
          Copy b (sha256.Write h0 p) rest
            (storage.mkWriter (storage.name w0) (storage.sent w0 ++ p)
               (S (storage.calls w0)) (storage.failed w0)) in
        c_sink (Copy b h0 ((p, None) :: rest) w0) = c_sink next
        /\ c_hash (Copy b h0 ((p, None) :: rest) w0) = c_hash next
        /\ c_trace (Copy b h0 ((p, None) :: rest) w0)
           = chunk_events p ++ c_trace next).
Proof.
  intros Hne Hw c. destruct (Copy_chunks_trace b chunks Hne h w Hw) as [He Ht].
  destruct (Copy_chunks_state b chunks Hne h w Hw) as (Hs & Hc & Hh).
  split; [exact He|]. split; [exact Ht|]. split.
  { subst c. rewrite Ht. apply sink_before_return_chunks.
    intros [|[|i]] p Hi Hp; cbn in Hi; try discriminate. congruence. }
  split; [exact Hs|]. split; [exact Hc|]. split; [exact Hh|]. split.
  - intros p er w0 Hp Hn. destruct p as [|x p]; [congruence|].
    cbn [tee_Read length Nat.ltb Nat.leb]. unfold storage.Write.
    now rewrite Hn, Hw.
  - intros p rest h0 w0 Hp Hn next. subst next.
    destruct p as [|x p]; [congruence|].
    cbn [Copy tee_Read length Nat.ltb Nat.leb]. unfold storage.Write.
    rewrite Hn, Hw. cbn. now repeat split.
Qed.

Lemma chunk_order_witness :
  c_trace (Copy quiet_bucket sha256.New
             [(text "ab", None); (text "c", None)] (storage.NewWriter "o"))
  = chunk_events (text "ab") ++ chunk_events (text "c")
    ++ [EvRead []; EvTeeReturn []]
  /\ storage.sent (c_sink (Copy quiet_bucket sha256.New
                             [(text "ab", None); (text "c", None)]
                             (storage.NewWriter "o"))) = text "abc"
  /\ storage.calls (c_sink (Copy quiet_bucket sha256.New
                              [(text "ab", None); (text "c", None)]
                              (storage.NewWriter "o"))) = 2%nat
  /\ sha256.written (c_hash (Copy quiet_bucket sha256.New
                               [(text "ab", None); (text "c", None)]
                               (storage.NewWriter "o"))) = text "abc".
Proof.
  destruct (tee_writes_sink_then_caller_hashes quiet_bucket sha256.New
              (storage.NewWriter "o") [text "ab"; text "c"])
    as (_ & Ht & _ & Hs & Hc & Hh & _ & _).
  - repeat constructor; discriminate.
  - reflexivity.
  - split; [exact Ht|]. split; [exact Hs|]. split; [exact Hc | exact Hh].
Defined.

(** C9 as stated fails: on a one-chunk file the tee returns the chunk
    to the copy loop before the digest has been updated with it. *)
Lemma tee_returns_before_hash_update :
  c_trace (Copy quiet_bucket sha256.New (file_reader (text "abc"))
             (storage.NewWriter "pre/a.txt"))
  = [EvRead (text "abc"); EvSinkWrite (text "abc"); EvTeeReturn (text "abc");
     EvHashWrite (text "abc"); EvRead []; EvTeeReturn []]
  /\ ~ hash_before_return
         (c_trace (Copy quiet_bucket sha256.New (file_reader (text "abc"))
                     (storage.NewWriter "pre/a.txt"))).
Proof.
  split; [reflexivity|]. intros H.
  destruct (H 2%nat (text "abc") eq_refl ltac:(discriminate)) as (j & Hj & Hlook).
  destruct j as [|[|j]]; [discriminate..|lia].
Qed.

(** ** [uploadFile] *)

Lemma uploadFile_Ok (w : World) (b : storage.Bucket) (relPath gcsPath d : string) :
  up_ret (uploadFile w b relPath gcsPath) = Ok d ->
  exists content : list byte,
    Lstat w relPath = Some (os.Reg content)
    /\ d = digest_of content
    /\ up_stream (uploadFile w b relPath gcsPath)
       = storage.mkWriter (filepath.Join gcsPath relPath) content
           (storage.calls (up_stream (uploadFile w b relPath gcsPath))) false
    /\ storage.Close b (up_stream (uploadFile w b relPath gcsPath))
       = (up_close (uploadFile w b relPath gcsPath),
          up_bucket (uploadFile w b relPath gcsPath)).
Proof.
  unfold uploadFile, Open.
  destruct (open_fault w relPath) as [e0|];
    [destruct (storage.Close b _); cbn; discriminate|].
  destruct (Lstat w relPath) as [[content|l es|]|] eqn:EL.
  - pose proof (Copy_no_error b (file_reader content) sha256.New
                  (storage.NewWriter (filepath.Join gcsPath relPath))) as HC.
    destruct (storage.Close b _) as [cerr b'] eqn:EC.
    destruct (c_err _) as [e|]; [discriminate|].
    destruct (HC eq_refl) as (Hs & Hh & Hn & Hf). cbn in Hs, Hh, Hn, Hf.
    rewrite delivered_file_reader in Hs, Hh.
    cbn. intros [= <-]. exists content. split; [reflexivity|].
    split; [unfold digest_of, sha256.Sum; now rewrite Hh|].
    split; [|exact EC].
    destruct (c_sink _) as [nm st cl fl]. cbn in *. congruence.
  - cbn. destruct (storage.Close b _). cbn. discriminate.
  - destruct (storage.Close b _). cbn. discriminate.
  - destruct (storage.Close b _). cbn. discriminate.
Qed.

(** ** The scheduler *)

Lemma arrange_Permutation {A : Type} (fuel : nat) :
  forall (sched : list nat) (l : list A),
    length l = fuel -> arrange fuel sched l ≡ₚ l.
Proof.
  induction fuel as [|fuel IH]; intros sched l Hl.
  - destruct l; [reflexivity | discriminate].
  - cbn [arrange].
    assert (Hk : (List.hd 0 sched mod length l < length l)%nat)
      by (apply Nat.mod_upper_bound; lia).
    destruct (lookup_lt_is_Some_2 _ _ Hk) as [x Hx]. rewrite Hx.
    etransitivity; [|symmetry; apply (delete_Permutation l _ x Hx)].
    constructor. apply IH. rewrite length_delete by eauto. lia.
Qed.

Lemma schedule_Permutation {A : Type} (sched : list nat) (l : list A) :
  schedule sched l ≡ₚ l.
Proof. now apply arrange_Permutation. Qed.

Lemma schedule_singleton {A : Type} (sched : list nat) (x : A) :
  schedule sched [x] = [x].
Proof. apply Permutation_singleton_r, schedule_Permutation. Qed.

Lemma schedule_nil {A : Type} (sched : list nat) : schedule sched (@nil A) = [].
Proof. reflexivity. Qed.

(** ** The uploads and the receive loop *)

Lemma run_uploads_Ok (w : World) (gcsPath : string) (tasks : list string) :
  forall (b b' : storage.Bucket) (done : list uploaded),
    run_uploads w b gcsPath tasks = (Ok done, b') ->
    List.map path done = tasks
    /\ Forall (fun u => exists content : list byte,
                 Lstat w (path u) = Some (os.Reg content)
                 /\ sha u = digest_of content) done.
Proof.
  induction tasks as [|relPath rest IH]; intros b b' done; cbn [run_uploads].
  - intros [= <- <-]. split; [reflexivity | constructor].
  - destruct (up_ret (uploadFile w b relPath gcsPath)) as [s|e] eqn:Eu;
      [|discriminate].
    destruct (run_uploads w _ gcsPath rest) as [[us|e] b''] eqn:Er;
      [|discriminate].
    intros [= <- <-]. destruct (IH _ _ _ Er) as [Hm Hf].
    split; [cbn; now rewrite Hm|]. constructor; [|exact Hf].
    destruct (uploadFile_Ok _ _ _ _ _ Eu) as (content & HL & Hd & _).
    now exists content.
Qed.

Lemma collect_from_lookup (l : list uploaded) :
  forall (m : gmap string string) (k d : string),
    List.fold_left (fun m f => <[path f := sha f]> m) l m !! k = Some d ->
    m !! k = Some d \/ exists u, u ∈ l /\ path u = k /\ sha u = d.
Proof.
  induction l as [|u l IH]; intros m k d; cbn [List.fold_left]; [now left|].
  intros H. destruct (IH _ _ _ H) as [Hm|(u' & Hin & Hp & Hs)].
  - destruct (decide (path u = k)) as [<-|Hne].
    + rewrite lookup_insert_eq in Hm. injection Hm as <-.
      right. exists u. split; [left|]. now split.
    + rewrite lookup_insert_ne in Hm by exact Hne. now left.
  - right. exists u'. split; [now right|]. now split.
Qed.

Lemma collect_lookup (l : list uploaded) (k d : string) :
  collect l !! k = Some d -> exists u, u ∈ l /\ path u = k /\ sha u = d.
Proof.
  intros H. apply collect_from_lookup in H as [H|H]; [|exact H].
  now rewrite lookup_empty in H.
Qed.

Lemma dom_collect_from (l : list uploaded) :
  forall m : gmap string string,
    dom (List.fold_left (fun m f => <[path f := sha f]> m) l m)
    = list_to_set (List.map path l) ∪ dom m.
Proof.
  induction l as [|u l IH]; intros m; cbn [List.fold_left List.map list_to_set].
  - set_solver.
  - rewrite IH, dom_insert_L. set_solver.
Qed.

Lemma dom_collect (l : list uploaded) :
  dom (collect l) = list_to_set (List.map path l).
Proof. unfold collect. rewrite dom_collect_from. set_solver. Qed.

(** What a run that returns from [main] went through. *)
Lemma main_Exit0 (fl : flags) (w : World) (cs rs : list nat)
    (mfst : gmap string string) (b : storage.Bucket) (acts : list action) :
  main fl w cs rs = Exit0 mfst b acts ->
  exists (bucketName gcsPath : string) (tasks : list string)
         (done : list uploaded) (b1 : storage.Bucket),
    parseUri (dst fl) = Ok (bucketName, gcsPath)
    /\ client_fault w = None
    /\ local_fault w = None
    /\ Walk w (filepath.Abs (wd w) (src fl))
            (walkFn (filepath.Abs (wd w) (src fl))) = WReturn None tasks
    /\ run_uploads w (bucket w) gcsPath (schedule cs tasks) = (Ok done, b1)
    /\ mfst = collect (schedule rs done)
    /\ storage.write_fault b1 (filepath.Join gcsPath "manifest.json") 0 = None
    /\ b = (storage.Close b1
              (storage.mkWriter (filepath.Join gcsPath "manifest.json")
                 (bytes_of_string (json.Marshal mfst)) 1 false)).2
    /\ acts =
       [ActNewClient; ActWalk (filepath.Abs (wd w) (src fl))]
       ++ List.map ActGo tasks
       ++ [ActRemoteWrite (filepath.Join gcsPath "manifest.json") (json.Marshal mfst);
           ActWriteFile (filepath.Join (manifestPath fl) "manifest.json")
                        (json.Marshal mfst);
           ActPrint (json.Marshal mfst);
           ActRemoteClose (filepath.Join gcsPath "manifest.json")
             (storage.Close b1
                (storage.mkWriter (filepath.Join gcsPath "manifest.json")
                   (bytes_of_string (json.Marshal mfst)) 1 false)).1].
Proof.
  unfold main.
  destruct (parseUri (dst fl)) as [[bucketName gcsPath]|e]; [|discriminate].
  destruct (client_fault w) as [e|]; [discriminate|].
  destruct (Walk _ _ _) as [|[e|] tasks] eqn:EW; [discriminate..|].
  destruct (run_uploads _ _ _ _) as [[done|e] b1] eqn:ER; [|discriminate].
  unfold storage.Write. cbn [storage.name storage.calls storage.NewWriter].
  destruct (storage.write_fault b1 _ 0) as [n|] eqn:Ew; [discriminate|].
  destruct (local_fault w) as [e|]; [discriminate|].
  cbn [storage.sent storage.failed storage.NewWriter app].
  destruct (storage.Close b1 _) as [cerr b'] eqn:Ec.
  intros [= <- <- <-].
  exists bucketName, gcsPath, tasks, done, b1.
  rewrite Ec. repeat (split; [reflexivity || assumption|]). reflexivity.
Qed.

Lemma manifest_entry (fl : flags) (w : World) (cs rs : list nat)
    (mfst : gmap string string) (b : storage.Bucket) (acts : list action)
    (k d : string) :
  main fl w cs rs = Exit0 mfst b acts ->
  mfst !! k = Some d ->
  exists content : list byte,
    Lstat w k = Some (os.Reg content) /\ d = digest_of content.
Proof.
  intros Hmain Hk.
  destruct (main_Exit0 _ _ _ _ _ _ _ Hmain)
    as (bn & gp & tasks & done & b1 & _ & _ & _ & _ & Hrun & -> & _).
  apply collect_lookup in Hk as (u & Hin & <- & <-).
  apply run_uploads_Ok in Hrun as [_ Hall].
  rewrite Forall_forall in Hall. apply Hall.
  now rewrite <- (schedule_Permutation rs done).
Qed.

(** C4: whenever [uploadFile] returns a digest, the bytes it sent on
    the remote stream of the object are exactly the content of the local
    file it opened, in order, and the digest is the SHA-256 of exactly
    those bytes; if the close reported no error, they are the committed
    object.  Every digest recorded in the manifest of a run that returned
    is the SHA-256 of the content of the file opened for its key.  And
    whatever a source yields and wherever a copy stops, the bytes sent to
    the sink and the bytes fed to the hash are one and the same sequence. *)
Theorem uploaded_bytes_are_the_hashed_bytes (w : World) :
  (forall (b : storage.Bucket) (relPath gcsPath d : string),
      up_ret (uploadFile w b relPath gcsPath) = Ok d ->
      exists content : list byte,
        Lstat w relPath = Some (os.Reg content)
        /\ storage.name (up_stream (uploadFile w b relPath gcsPath))
           = filepath.Join gcsPath relPath
        /\ storage.sent (up_stream (uploadFile w b relPath gcsPath)) = content
        /\ d = "sha256:" +:+ hex.EncodeToString (sha256.Sum256 content)
        /\ (up_close (uploadFile w b relPath gcsPath) = None ->
            storage.objects (up_bucket (uploadFile w b relPath gcsPath))
              !! filepath.Join gcsPath relPath = Some content))
  /\ (forall (fl : flags) (cs rs : list nat) (mfst : gmap string string)
             (b : storage.Bucket) (acts : list action) (k d : string),
        main fl w cs rs = Exit0 mfst b acts ->
        mfst !! k = Some d ->
        exists content : list byte,
          Lstat w k = Some (os.Reg content)
          /\ d = "sha256:" +:+ hex.EncodeToString (sha256.Sum256 content))
  /\ (forall (b : storage.Bucket) (f : io.Reader) (object : string),
        storage.sent (c_sink (Copy b sha256.New f (storage.NewWriter object)))
        = sha256.written (c_hash (Copy b sha256.New f (storage.NewWriter object)))).
Proof.
  split; [|split].
  3: { intros b f object.
       destruct (Copy_in_step b f sha256.New (storage.NewWriter object))
         as (X & -> & ->). reflexivity. }
  - intros b relPath gcsPath d Hret.
    destruct (uploadFile_Ok _ _ _ _ _ Hret) as (content & HL & Hd & Hs & Hc).
    exists content. rewrite Hs. cbn [storage.name storage.sent].
    repeat (split; [assumption || reflexivity|]).
    intros Hnone. rewrite Hs, Hnone in Hc. unfold storage.Close in Hc.
    cbn [storage.name storage.sent storage.failed orb] in Hc.
    destruct (storage.close_fault b _); [discriminate|].
    injection Hc as <-. cbn. apply lookup_insert_eq.
  - intros fl cs rs mfst b acts k d Hmain Hk.
    exact (manifest_entry _ _ _ _ _ _ _ _ _ Hmain Hk).
Qed.

Lemma uploaded_bytes_witness :
  exists content : list byte,
    Lstat tree_world "sub/b.txt" = Some (os.Reg content)
    /\ storage.name (up_stream (uploadFile tree_world quiet_bucket "sub/b.txt" "pre"))
       = filepath.Join "pre" "sub/b.txt"
    /\ storage.sent (up_stream (uploadFile tree_world quiet_bucket "sub/b.txt" "pre"))
       = content
    /\ "sha256:ba7816bf8f01cfea414140de5dae2223b00361a396177a9cb410ff61f20015ad"
       = "sha256:" +:+ hex.EncodeToString (sha256.Sum256 content)
    /\ (up_close (uploadFile tree_world quiet_bucket "sub/b.txt" "pre") = None ->
        storage.objects (up_bucket (uploadFile tree_world quiet_bucket "sub/b.txt" "pre"))
          !! filepath.Join "pre" "sub/b.txt" = Some content).
Proof.
  apply (proj1 (uploaded_bytes_are_the_hashed_bytes tree_world)).
  vm_compute. reflexivity.
Defined.

(** C6: every digest string [uploadFile] returns, and so every value of
    the manifest of a run that returned, is [sha256:] followed by exactly
    64 characters, each one of [0-9a-f]. *)
Theorem digests_are_sha256_lower_hex (w : World) :
  (forall (b : storage.Bucket) (relPath gcsPath d : string),
      up_ret (uploadFile w b relPath gcsPath) = Ok d ->
      exists h : string,
        d = "sha256:" +:+ h /\ String.length h = 64
        /\ hex.all_lower_hex h = true)
  /\ (forall (fl : flags) (cs rs : list nat) (mfst : gmap string string)
             (b : storage.Bucket) (acts : list action) (k d : string),
        main fl w cs rs = Exit0 mfst b acts ->
        mfst !! k = Some d ->
        digest_format d).
Proof.
  split.
  - intros b relPath gcsPath d Hret.
    destruct (uploadFile_Ok _ _ _ _ _ Hret) as (content & _ & -> & _).
    apply digest_of_format.
  - intros fl cs rs mfst b acts k d Hmain Hk.
    destruct (manifest_entry _ _ _ _ _ _ _ _ _ Hmain Hk) as (content & _ & ->).
    apply digest_of_format.
Qed.

Lemma digest_format_witness :
  digest_format
    "sha256:2cf24dba5fb0a30e26e83b2ac5b9e29e1b161e5c1fa7425e73043362938b9824".
Proof.
  apply (proj1 (digests_are_sha256_lower_hex tree_world) quiet_bucket "a.txt" "pre").
  vm_compute. reflexivity.
Defined.

(** ** Runs on concrete environments *)

(** C3, the code at a failing input: the service refuses to commit
    [pre/a.txt].  [uploadFile] drops the error of the deferred [Close] and
    returns the digest; [main] returns normally with the file in the
    manifest although the bucket holds no such object.  Likewise, when
    the commit of [pre/manifest.json] is refused, [main] still returns
    normally and the bucket holds no manifest. *)
Theorem uncommitted_object_counts_as_uploaded :
  (up_ret (uploadFile (refused_world "pre/a.txt") (refusing "pre/a.txt") "a.txt" "pre")
   = Ok (digest_of (text "hello"))
   /\ up_close (uploadFile (refused_world "pre/a.txt") (refusing "pre/a.txt") "a.txt" "pre")
      = Some "close pre/a.txt"
   /\ storage.objects
        (up_bucket (uploadFile (refused_world "pre/a.txt") (refusing "pre/a.txt")
                      "a.txt" "pre")) !! "pre/a.txt" = None)
  /\ (returned (main (mkFlags "." "gs://bkt/pre" ".") (refused_world "pre/a.txt") [] [])
      = true
      /\ final_manifest (main (mkFlags "." "gs://bkt/pre" ".")
                           (refused_world "pre/a.txt") [] []) !! "a.txt"
         = Some (digest_of (text "hello"))
      /\ storage.objects
           (final_bucket (main (mkFlags "." "gs://bkt/pre" ".")
                            (refused_world "pre/a.txt") [] [])) !! "pre/a.txt"
         = None)
  /\ (returned (main (mkFlags "." "gs://bkt/pre" ".")
                  (refused_world "pre/manifest.json") [] []) = true
      /\ storage.objects
           (final_bucket (main (mkFlags "." "gs://bkt/pre" ".")
                            (refused_world "pre/manifest.json") [] []))
           !! "pre/manifest.json" = None).
Proof. repeat split; vm_compute; reflexivity. Qed.

(** C2, the code at a failing input: the process runs in [/home] and is
    asked to upload [/data].  The walk finds [/data/a.txt] and starts an
    upload for [a.txt]; [uploadFile] opens that relative path in the
    working directory, so the bytes of [/home/a.txt] are uploaded and
    hashed, not those of the file the walk found. *)
Theorem upload_reads_from_the_working_directory :
  Lstat twin_world "/data/a.txt" = Some (os.Reg (text "hello"))
  /\ Walk twin_world "/data" (walkFn "/data") = WReturn None ["a.txt"]
  /\ Open twin_world "a.txt" = Ok (file_reader (text "other"))
  /\ returned (main (mkFlags "/data" "gs://bkt/pre" ".") twin_world [] []) = true
  /\ storage.objects
       (final_bucket (main (mkFlags "/data" "gs://bkt/pre" ".") twin_world [] []))
       !! "pre/a.txt" = Some (text "other")
  /\ final_manifest (main (mkFlags "/data" "gs://bkt/pre" ".") twin_world [] [])
       !! "a.txt" = Some (digest_of (text "other")).
Proof. repeat split; vm_compute; reflexivity. Qed.

(** ** A root that is a regular file *)

(** C7: when the resolved root is a regular file and the run returns,
    the manifest has exactly one entry; its key is the resolved root path
    itself and its value is the digest of that file. *)
Theorem single_file_root_gives_one_entry (fl : flags) (w : World)
    (cs rs : list nat) (mfst : gmap string string) (b : storage.Bucket)
    (acts : list action) (content : list byte) :
  Lstat w (filepath.Abs (wd w) (src fl)) = Some (os.Reg content) ->
  main fl w cs rs = Exit0 mfst b acts ->
  mfst = {[ filepath.Abs (wd w) (src fl) := digest_of content ]}
  /\ size mfst = 1%nat.
Proof.
  intros Hroot Hmain.
  destruct (main_Exit0 _ _ _ _ _ _ _ Hmain)
    as (bn & gp & tasks & done & b1 & _ & _ & _ & Hwalk & Hrun & -> & _).
  unfold Walk in Hwalk. rewrite Hroot in Hwalk. cbn in Hwalk.
  rewrite String.eqb_refl in Hwalk. injection Hwalk as <-.
  rewrite schedule_singleton in Hrun.
  apply run_uploads_Ok in Hrun as [Hpaths Hall].
  destruct done as [|u [|u' done]]; try discriminate.
  injection Hpaths as Hpath. apply Forall_inv in Hall as (content' & HL & Hsha).
  rewrite Hpath, Hroot in HL. injection HL as <-.
  rewrite schedule_singleton. unfold collect. cbn [List.fold_left].
  rewrite Hpath, Hsha, insert_empty. split; [reflexivity|].
  apply map_size_singleton.
Qed.

Lemma single_file_root_witness :
  final_manifest (main (mkFlags "a.txt" "gs://bkt/pre" "/tmp") tree_world [] [])
  = {[ filepath.Abs "/data" "a.txt" := digest_of (text "hello") ]}
  /\ size (final_manifest (main (mkFlags "a.txt" "gs://bkt/pre" "/tmp")
                             tree_world [] [])) = 1%nat.
Proof.
  apply (single_file_root_gives_one_entry
           (mkFlags "a.txt" "gs://bkt/pre" "/tmp") tree_world [] []
           (final_manifest (main (mkFlags "a.txt" "gs://bkt/pre" "/tmp") tree_world [] []))
           (final_bucket (main (mkFlags "a.txt" "gs://bkt/pre" "/tmp") tree_world [] []))
           (final_acts (main (mkFlags "a.txt" "gs://bkt/pre" "/tmp") tree_world [] []))
           (text "hello")).
  - vm_compute. reflexivity.
  - vm_compute. reflexivity.
Defined.

(** ** Paths as element lists *)

Lemma Split_nonempty (sep : ascii) (s : string) : strings.Split sep s <> [].
Proof.
  destruct s as [|c s]; simpl; [discriminate|].
  destruct (Ascii.eqb c sep); [discriminate|].
  destruct (strings.Split sep s); discriminate.
Qed.

Lemma Split_app (sep : ascii) (a b : string) :
  strings.Split sep (a +:+ String sep b)
  = strings.Split sep a ++ strings.Split sep b.
Proof.
  induction a as [|c a IH]; simpl.
  - now rewrite Ascii.eqb_refl.
  - destruct (Ascii.eqb c sep); [now rewrite IH|].
    rewrite IH. pose proof (Split_nonempty sep a).
    destruct (strings.Split sep a); [congruence | reflexivity].
Qed.

Lemma Split_no_slash (s : string) :
  os.no_slash s = true -> strings.Split slash s = [s].
Proof.
  induction s as [|c s IH]; simpl; [reflexivity|].
  destruct (Ascii.eqb c slash); simpl; [discriminate|].
  intros H. now rewrite IH.
Qed.

Lemma Split_pieces_no_slash (s : string) :
  Forall (fun c => os.no_slash c = true) (strings.Split slash s).
Proof.
  induction s as [|c s IH]; simpl; [now repeat constructor|].
  destruct (Ascii.eqb c slash) eqn:E; [now constructor|].
  destruct (strings.Split slash s) as [|p ps]; [now repeat constructor; simpl; rewrite E|].
  apply Forall_cons in IH as [Hp Hps]. constructor; [|exact Hps].
  simpl. now rewrite E.
Qed.

Lemma valid_no_slash (c : string) : valid c -> os.no_slash c = true.
Proof. unfold valid, os.valid_name. intros H. now apply andb_prop in H as [_ H]. Qed.

Lemma valid_not_empty (c : string) : valid c -> c <> EmptyString.
Proof. intros H ->. discriminate H. Qed.

Lemma Split_Join (cs : list string) :
  Forall valid cs -> cs <> [] -> strings.Split slash (strings.Join cs "/") = cs.
Proof.
  induction 1 as [|c cs Hc Hcs IH]; intros Hne; [congruence|].
  destruct cs as [|c' cs].
  - simpl. now apply Split_no_slash, valid_no_slash.
  - change (strings.Join (c :: c' :: cs) "/")
      with (c +:+ String slash (strings.Join (c' :: cs) "/")).
    rewrite Split_app, IH by discriminate.
    now rewrite Split_no_slash by now apply valid_no_slash.
Qed.

Lemma Join_injective (cs cs' : list string) :
  Forall valid cs -> Forall valid cs' -> cs <> [] -> cs' <> [] ->
  strings.Join cs "/" = strings.Join cs' "/" -> cs = cs'.
Proof.
  intros H H' Hne Hne' E.
  rewrite <- (Split_Join cs H Hne), <- (Split_Join cs' H' Hne'). now rewrite E.
Qed.

Lemma push_valid (r : bool) (stk : list string) (c : string) :
  valid c -> filepath.push r stk c = c :: stk.
Proof.
  unfold valid, os.valid_name, filepath.push. intros H.
  apply andb_prop in H as [H _]. apply andb_prop in H as [H H3].
  apply andb_prop in H as [H1 H2].
  apply negb_true_iff in H1, H2, H3. now rewrite H1, H2, H3.
Qed.

Lemma fold_push_valid (r : bool) (cs : list string) :
  Forall valid cs ->
  forall stk, List.fold_left (filepath.push r) cs stk = List.rev cs ++ stk.
Proof.
  induction 1 as [|c cs Hc _ IH]; intros stk; simpl; [reflexivity|].
  rewrite push_valid by exact Hc. rewrite IH. now rewrite <- List.app_assoc.
Qed.

Lemma Split_rooted (cs : list string) :
  Forall valid cs -> cs <> [] ->
  strings.Split slash (filepath.rooted cs) = EmptyString :: cs.
Proof.
  intros H Hne.
  change (EmptyString :: strings.Split slash (strings.Join cs "/") = EmptyString :: cs).
  now rewrite Split_Join.
Qed.

Lemma elems_rooted (cs : list string) :
  Forall valid cs -> filepath.elems (filepath.rooted cs) = cs.
Proof.
  intros H. unfold filepath.elems. destruct cs as [|c cs]; [reflexivity|].
  rewrite Split_rooted by (exact H || discriminate).
  change (filepath.IsAbs (filepath.rooted (c :: cs))) with true.
  apply Forall_cons in H as [Hc Hcs].
  cbn [List.fold_left]. change (filepath.push true [] "") with (@nil string).
  rewrite push_valid by exact Hc. rewrite fold_push_valid by exact Hcs.
  rewrite List.rev_app_distr. now rewrite List.rev_involutive.
Qed.

Lemma rooted_injective (cs cs' : list string) :
  Forall valid cs -> Forall valid cs' ->
  filepath.rooted cs = filepath.rooted cs' -> cs = cs'.
Proof.
  intros H H' E. rewrite <- (elems_rooted cs H), <- (elems_rooted cs' H').
  now rewrite E.
Qed.

Lemma Clean_rooted (cs : list string) :
  Forall valid cs -> filepath.Clean (filepath.rooted cs) = filepath.rooted cs.
Proof.
  intros H. unfold filepath.Clean. rewrite elems_rooted by exact H. reflexivity.
Qed.

Lemma push_keeps_valid (stk : list string) (c : string) :
  Forall valid stk -> os.no_slash c = true ->
  Forall valid (filepath.push true stk c).
Proof.
  intros Hstk Hc. unfold filepath.push.
  destruct (String.eqb c "") eqn:E1; [exact Hstk|].
  destruct (String.eqb c ".") eqn:E2; [exact Hstk|]. cbn [orb].
  destruct (String.eqb c "..") eqn:E3.
  - destruct stk as [|top rest]; [constructor|].
    apply Forall_cons in Hstk as [Htop Hrest].
    destruct (String.eqb_spec top "..") as [->|_]; [discriminate Htop | exact Hrest].
  - constructor; [|exact Hstk]. unfold valid, os.valid_name.
    now rewrite E1, E2, E3, Hc.
Qed.

Lemma fold_push_keeps_valid (cs : list string) :
  Forall (fun c => os.no_slash c = true) cs ->
  forall stk, Forall valid stk ->
    Forall valid (List.fold_left (filepath.push true) cs stk).
Proof.
  induction 1 as [|c cs Hc _ IH]; intros stk Hstk; simpl; [exact Hstk|].
  apply IH. now apply push_keeps_valid.
Qed.

Lemma Clean_abs (p : string) :
  filepath.IsAbs p = true ->
  filepath.Clean p = filepath.rooted (filepath.elems p)
  /\ Forall valid (filepath.elems p).
Proof.
  intros H. unfold filepath.Clean, filepath.elems. rewrite H. split; [reflexivity|].
  apply Forall_rev, fold_push_keeps_valid; [apply Split_pieces_no_slash | constructor].
Qed.

Lemma IsAbs_app (a b : string) :
  filepath.IsAbs a = true -> filepath.IsAbs (a +:+ b) = true.
Proof. destruct a as [|c a]; [discriminate|]. exact id. Qed.

(** The resolved root is a rooted list of valid names. *)
Lemma Abs_rooted (wd src : string) :
  filepath.IsAbs wd = true ->
  exists R : list string,
    Forall valid R /\ filepath.Abs wd src = filepath.rooted R.
Proof.
  intros Hwd. unfold filepath.Abs.
  destruct (filepath.IsAbs src) eqn:Hsrc.
  - destruct (Clean_abs src Hsrc) as [-> HR]. eauto.
  - unfold filepath.Join. destruct wd as [|c wd]; [discriminate|].
    destruct src as [|d src].
    + destruct (Clean_abs _ Hwd) as [-> HR]. eauto.
    + destruct (Clean_abs (String c wd +:+ "/" +:+ String d src)) as [-> HR];
        [now apply IsAbs_app | eauto].
Qed.

Lemma fold_rooted (R : list string) :
  Forall valid R ->
  List.fold_left (filepath.push true) (strings.Split slash (filepath.rooted R)) []
  = List.rev R.
Proof.
  intros H. pose proof (elems_rooted R H) as E. unfold filepath.elems in E.
  change (filepath.IsAbs (filepath.rooted R)) with true in E.
  rewrite <- E at 2. now rewrite List.rev_involutive.
Qed.

(** What [walk] computes for an entry [name] of the directory at the
    rooted path [R]. *)
Lemma Join_rooted_name (R : list string) (name : string) :
  Forall valid R -> valid name ->
  filepath.Join (filepath.rooted R) name = filepath.rooted (R ++ [name]).
Proof.
  intros HR Hn. unfold filepath.Join.
  change (filepath.rooted R) with (String "/" (strings.Join R "/")) at 1.
  destruct name as [|c name]; [discriminate Hn|].
  change (String "/" (strings.Join R "/")) with (filepath.rooted R).
  destruct (Clean_abs (filepath.rooted R +:+ "/" +:+ String c name)) as [-> _];
    [reflexivity|].
  f_equal. unfold filepath.elems.
  change (filepath.IsAbs (filepath.rooted R +:+ "/" +:+ String c name)) with true.
  change (filepath.rooted R +:+ "/" +:+ String c name)
    with (filepath.rooted R +:+ String slash (String c name)).
  rewrite Split_app, List.fold_left_app, fold_rooted by exact HR.
  rewrite Split_no_slash by now apply valid_no_slash.
  cbn [List.fold_left]. rewrite push_valid by exact Hn.
  cbn [List.rev]. now rewrite List.rev_involutive.
Qed.

Lemma strip_common_prefix (R S : list string) :
  filepath.strip_common R (R ++ S) = ([], S).
Proof.
  induction R as [|c R IH]; simpl; [now destruct S|].
  now rewrite String.eqb_refl.
Qed.

Lemma rel_elems_rooted (cs : list string) :
  Forall valid cs -> filepath.rel_elems (filepath.rooted cs) = EmptyString :: cs.
Proof.
  intros H. destruct cs as [|c cs]; [reflexivity|].
  unfold filepath.rel_elems.
  change (String.eqb (filepath.rooted (c :: cs)) "") with false. cbn iota.
  destruct (String.eqb_spec (filepath.rooted (c :: cs)) "/") as [E|_].
  - apply (rooted_injective (c :: cs) []) in E; [discriminate | exact H | constructor].
  - now apply Split_rooted.
Qed.

(** What the callback computes for a path below the root. *)
Lemma Rel_rooted (R S : list string) :
  Forall valid R -> Forall valid S -> S <> [] ->
  filepath.Rel (filepath.rooted R) (filepath.rooted (R ++ S))
  = Ok (strings.Join S "/").
Proof.
  intros HR HS Hne.
  assert (HRS : Forall valid (R ++ S)) by now apply Forall_app.
  unfold filepath.Rel. rewrite !Clean_rooted by assumption.
  destruct (String.eqb_spec (filepath.rooted (R ++ S)) (filepath.rooted R)) as [E|_].
  { apply rooted_injective in E; [|assumption..].
    rewrite <- (List.app_nil_r R) in E at 2. apply List.app_inv_head in E.
    congruence. }
  change (String.eqb (filepath.rooted R) ".") with false. cbn iota.
  change (filepath.IsAbs (filepath.rooted R)) with true.
  change (filepath.IsAbs (filepath.rooted (R ++ S))) with true. cbn [Bool.eqb negb].
  rewrite !rel_elems_rooted by assumption.
  change (EmptyString :: R ++ S) with ((EmptyString :: R) ++ S).
  now rewrite strip_common_prefix.
Qed.

(** ** The walk of a directory tree *)

Lemma regular_paths_Dir_cons (l : bool) (name : string) (child : os.node)
    (rest : list (string * os.node)) :
  regular_paths (os.Dir l ((name, child) :: rest))
  = List.map (cons name) (regular_paths child) ++ regular_paths (os.Dir l rest).
Proof. reflexivity. Qed.

Lemma wf_Dir_cons (l : bool) (name : string) (child : os.node)
    (rest : list (string * os.node)) :
  os.wf (os.Dir l ((name, child) :: rest))
  = os.valid_name name && os.fresh name rest && os.wf child
    && os.wf (os.Dir l rest).
Proof. reflexivity. Qed.

Lemma all_listable_Dir_cons (name : string) (child : os.node)
    (rest : list (string * os.node)) :
  os.all_listable (os.Dir true ((name, child) :: rest))
  = os.all_listable child && os.all_listable (os.Dir true rest).
Proof. reflexivity. Qed.

Lemma all_listable_Dir (l : bool) (es : list (string * os.node)) :
  os.all_listable (os.Dir l es) = true -> l = true.
Proof. destruct l; [reflexivity | discriminate]. Qed.

(** A tree without regular files starts no upload. *)
Lemma walk_no_regular (absRoot : string) (n : os.node) :
  regular_paths n = [] ->
  forall (p : string) (tasks : list string),
    walk (walkFn absRoot) p n tasks = WReturn None tasks.
Proof.
  induction n as [content| |l es IH] using node_induction; intros Hrp p tasks.
  - discriminate.
  - reflexivity.
  - rewrite walk_Dir, walkFn_Dir. destruct l; [|reflexivity].
    cbn [spawn]. revert tasks.
    induction IH as [|[name child] rest Hc _ IHrest]; intros tasks; [reflexivity|].
    rewrite regular_paths_Dir_cons in Hrp. apply List.app_eq_nil in Hrp as [H1 H2].
    apply List.map_eq_nil in H1. cbn [walk_each]. cbn [snd] in Hc.
    rewrite (Hc H1). now apply IHrest.
Qed.

(** ** Listings in the order of the names *)

Lemma sorted_Dir (l : bool) (es : list (string * os.node)) :
  os.sorted (os.Dir l es) = os.Dir l (sort_entries es).
Proof. reflexivity. Qed.

Lemma sort_entries_cons (name : string) (child : os.node)
    (rest : list (string * os.node)) :
  sort_entries ((name, child) :: rest)
  = os.insert (name, os.sorted child) (sort_entries rest).
Proof. reflexivity. Qed.

Lemma insert_Permutation (e : string * os.node) (es : list (string * os.node)) :
  os.insert e es ≡ₚ e :: es.
Proof.
  induction es as [|e' rest IH]; [reflexivity|]. cbn.
  destruct (String.leb (fst e) (fst e')); [reflexivity|].
  rewrite IH. apply Permutation_swap.
Qed.

Lemma regular_paths_Permutation (l : bool) (es es' : list (string * os.node)) :
  es ≡ₚ es' -> regular_paths (os.Dir l es) ≡ₚ regular_paths (os.Dir l es').
Proof.
  induction 1 as [|[name child] es es' _ IH|[n1 c1] [n2 c2] es|es es' es'' _ IH1 _ IH2].
  - reflexivity.
  - rewrite !regular_paths_Dir_cons. now rewrite IH.
  - rewrite !regular_paths_Dir_cons, !List.app_assoc.
    apply Permutation_app_tail, Permutation_app_comm.
  - now rewrite IH1.
Qed.

Lemma regular_paths_sorted (n : os.node) :
  regular_paths (os.sorted n) ≡ₚ regular_paths n.
Proof.
  induction n as [content| |l es IH] using node_induction; [reflexivity..|].
  rewrite sorted_Dir.
  induction IH as [|[name child] rest Hc _ IHrest]; [reflexivity|].
  rewrite sort_entries_cons.
  rewrite (regular_paths_Permutation l _ _ (insert_Permutation _ _)).
  rewrite !regular_paths_Dir_cons. cbn [snd] in Hc.
  apply Permutation_app; [|exact IHrest].
  change (cons name <$> regular_paths (os.sorted child)
          ≡ₚ cons name <$> regular_paths child).
  now rewrite Hc.
Qed.

Lemma fresh_insert (name : string) (e : string * os.node)
    (es : list (string * os.node)) :
  os.fresh name (os.insert e es)
  = negb (String.eqb (fst e) name) && os.fresh name es.
Proof.
  destruct e as [n c]. cbn [fst].
  induction es as [|[n' c'] rest IH]; [reflexivity|]. cbn.
  destruct (String.leb n n'); cbn; [reflexivity|].
  rewrite IH. now destruct (String.eqb n' name), (String.eqb n name).
Qed.

Lemma fresh_sort_entries (name : string) (es : list (string * os.node)) :
  os.fresh name (sort_entries es) = os.fresh name es.
Proof.
  induction es as [|[n c] rest IH]; [reflexivity|].
  rewrite sort_entries_cons, fresh_insert. cbn. now rewrite IH.
Qed.

Lemma wf_insert (l : bool) (name : string) (child : os.node)
    (es : list (string * os.node)) :
  os.wf (os.Dir l (os.insert (name, child) es))
  = os.wf (os.Dir l ((name, child) :: es)).
Proof.
  induction es as [|[n' c'] rest IH]; [reflexivity|].
  cbn [os.insert fst]. destruct (String.leb name n'); [reflexivity|].
  rewrite (wf_Dir_cons l n' c'), IH, fresh_insert, !wf_Dir_cons.
  cbn [os.fresh fst]. rewrite (String.eqb_sym name n').
  destruct (os.valid_name name), (os.valid_name n'), (String.eqb n' name),
    (os.fresh name rest), (os.fresh n' rest), (os.wf child), (os.wf c'),
    (os.wf (os.Dir l rest)); reflexivity.
Qed.

(** Sorting the listings keeps a tree well formed. *)
Lemma wf_sorted (n : os.node) : os.wf n = true -> os.wf (os.sorted n) = true.
Proof.
  induction n as [content| |l es IH] using node_induction; [easy..|].
  rewrite sorted_Dir.
  induction IH as [|[name child] rest Hc _ IHrest]; [easy|].
  rewrite sort_entries_cons, wf_insert, !wf_Dir_cons, fresh_sort_entries.
  intros H. apply andb_prop in H as [H Hrest]. apply andb_prop in H as [H Hchild].
  cbn [snd] in Hc. now rewrite H, (Hc Hchild), (IHrest Hrest).
Qed.

(** ** The regular files of a tree *)

Lemma regular_paths_Dir_elem (l : bool) (es : list (string * os.node))
    (T : list string) :
  T ∈ regular_paths (os.Dir l es) <->
  exists (name : string) (child : os.node) (T' : list string),
    T = name :: T' /\ (name, child) ∈ es /\ T' ∈ regular_paths child.
Proof.
  induction es as [|[name child] rest IH].
  - split; [intros H; inversion H|]. intros (? & ? & ? & _ & H & _). inversion H.
  - rewrite regular_paths_Dir_cons, elem_of_app, IH. split.
    + intros [H|(name' & child' & T' & -> & Hin & HT')].
      * change (List.map (cons name) (regular_paths child))
          with (cons name <$> regular_paths child) in H.
        apply list_elem_of_fmap in H as (T' & -> & HT').
        exists name, child, T'. split; [reflexivity|]. split; [left | exact HT'].
      * exists name', child', T'. split; [reflexivity|]. split; [now right | exact HT'].
    + intros (name' & child' & T' & -> & Hin & HT').
      apply elem_of_cons in Hin as [[= -> ->]|Hin].
      * left. change (List.map (cons name) (regular_paths child))
          with (cons name <$> regular_paths child).
        apply list_elem_of_fmap. now exists T'.
      * right. now exists name', child', T'.
Qed.

Lemma entry_elem (name : string) (child : os.node) (es : list (string * os.node)) :
  os.entry name es = Some child -> (name, child) ∈ es.
Proof.
  induction es as [|[n c] rest IH]; simpl; [discriminate|].
  destruct (String.eqb_spec n name) as [->|_].
  - intros [= ->]. left.
  - intros H. right. now apply IH.
Qed.

Lemma fresh_not_elem (name : string) (child : os.node)
    (es : list (string * os.node)) :
  os.fresh name es = true -> (name, child) ∉ es.
Proof.
  induction es as [|[n c] rest IH]; simpl; intros H Hin; [inversion Hin|].
  apply andb_prop in H as [Hn Hrest].
  apply elem_of_cons in Hin as [[= <- <-]|Hin].
  - now rewrite String.eqb_refl in Hn.
  - now apply IH.
Qed.

Lemma elem_entry (l : bool) (name : string) (child : os.node)
    (es : list (string * os.node)) :
  os.wf (os.Dir l es) = true -> (name, child) ∈ es ->
  os.entry name es = Some child.
Proof.
  induction es as [|[n c] rest IH]; intros Hwf Hin; [inversion Hin|].
  rewrite wf_Dir_cons in Hwf.
  apply andb_prop in Hwf as [Hwf Hwrest]. apply andb_prop in Hwf as [Hwf _].
  apply andb_prop in Hwf as [_ Hfresh]. simpl.
  apply elem_of_cons in Hin as [[= <- <-]|Hin].
  - now rewrite String.eqb_refl.
  - destruct (String.eqb_spec n name) as [->|_]; [|now apply IH].
    now apply fresh_not_elem with (child := child) in Hfresh.
Qed.

Lemma wf_Dir_elem (l : bool) (name : string) (child : os.node)
    (es : list (string * os.node)) :
  os.wf (os.Dir l es) = true -> (name, child) ∈ es ->
  valid name /\ os.wf child = true.
Proof.
  induction es as [|[n c] rest IH]; intros Hwf Hin; [inversion Hin|].
  rewrite wf_Dir_cons in Hwf.
  apply andb_prop in Hwf as [Hwf Hwrest]. apply andb_prop in Hwf as [Hwf Hwc].
  apply andb_prop in Hwf as [Hname _].
  apply elem_of_cons in Hin as [[= -> ->]|Hin]; [now split | now apply IH].
Qed.

(** In a well-formed tree the listed paths are exactly the paths that
    lead to a regular file. *)
Lemma regular_paths_find (n : os.node) :
  os.wf n = true ->
  forall T : list string,
    T ∈ regular_paths n <-> exists content, os.find n T = Some (os.Reg content).
Proof.
  induction n as [content| |l es IH] using node_induction; intros Hwf T.
  - cbn. rewrite list_elem_of_singleton. destruct T as [|t T]; cbn.
    + split; eauto.
    + split; [discriminate|]. intros [? ?]. discriminate.
  - split; [intros H; inversion H|]. intros [c H]. destruct T; discriminate.
  - rewrite regular_paths_Dir_elem. rewrite Forall_forall in IH. split.
    + intros (name & child & T' & -> & Hin & HT').
      destruct (wf_Dir_elem _ _ _ _ Hwf Hin) as [_ Hwc].
      apply (IH _ Hin Hwc) in HT' as [c Hc]. exists c. cbn.
      now rewrite (elem_entry _ _ _ _ Hwf Hin).
    + intros [c H]. destruct T as [|t T']; [discriminate|]. cbn in H.
      destruct (os.entry t es) as [child|] eqn:E; [|discriminate].
      apply entry_elem in E. exists t, child, T'. split; [reflexivity|].
      split; [exact E|]. destruct (wf_Dir_elem _ _ _ _ Hwf E) as [_ Hwc].
      apply (IH _ E Hwc). eauto.
Qed.

Lemma regular_paths_valid (n : os.node) :
  os.wf n = true ->
  forall T : list string, T ∈ regular_paths n -> Forall valid T.
Proof.
  induction n as [content| |l es IH] using node_induction; intros Hwf T HT.
  - apply list_elem_of_singleton in HT as ->. constructor.
  - inversion HT.
  - apply regular_paths_Dir_elem in HT as (name & child & T' & -> & Hin & HT').
    destruct (wf_Dir_elem _ _ _ _ Hwf Hin) as [Hname Hwc].
    rewrite Forall_forall in IH. constructor; [exact Hname|].
    exact (IH _ Hin Hwc _ HT').
Qed.

Lemma regular_paths_NoDup (n : os.node) :
  os.wf n = true -> NoDup (regular_paths n).
Proof.
  induction n as [content| |l es IH] using node_induction; intros Hwf.
  - apply NoDup_singleton.
  - constructor.
  - induction IH as [|[name child] rest Hc _ IHrest]; [constructor|].
    rewrite regular_paths_Dir_cons. pose proof Hwf as Hwf'.
    rewrite wf_Dir_cons in Hwf.
    apply andb_prop in Hwf as [Hwf Hwrest]. apply andb_prop in Hwf as [Hwf Hwc].
    apply andb_prop in Hwf as [_ Hfresh].
    apply NoDup_app. split; [|split].
    + change (List.map (cons name) (regular_paths child))
        with (cons name <$> regular_paths child).
      apply NoDup_fmap_2_strong; [|now apply Hc]. now intros ? ? _ _ [= ->].
    + intros T HT Hrest.
      change (List.map (cons name) (regular_paths child))
        with (cons name <$> regular_paths child) in HT.
      apply list_elem_of_fmap in HT as (T' & -> & _).
      apply regular_paths_Dir_elem in Hrest as (n' & c' & T'' & [= <- <-] & Hin & _).
      now apply fresh_not_elem with (child := c') in Hfresh.
    + now apply IHrest.
Qed.

(** Different regular files have different relative path strings. *)
Lemma task_strings_NoDup (l : bool) (es : list (string * os.node)) :
  os.wf (os.Dir l es) = true ->
  NoDup (List.map (fun T => strings.Join T "/") (regular_paths (os.Dir l es))).
Proof.
  intros Hwf.
  change (NoDup ((fun T => strings.Join T "/") <$> regular_paths (os.Dir l es))).
  apply NoDup_fmap_2_strong; [|now apply regular_paths_NoDup].
  intros T T' HT HT' E.
  apply Join_injective; [now apply (regular_paths_valid _ Hwf)..| | |exact E].
  - apply regular_paths_Dir_elem in HT as (? & ? & ? & -> & _). discriminate.
  - apply regular_paths_Dir_elem in HT' as (? & ? & ? & -> & _). discriminate.
Qed.

Lemma collect_size_from (l : list uploaded) :
  forall m : gmap string string,
    NoDup (List.map path l) ->
    (forall u, u ∈ l -> m !! path u = None) ->
    size (List.fold_left (fun m f => <[path f := sha f]> m) l m)
    = (length l + size m)%nat.
Proof.
  induction l as [|u l IH]; intros m Hnd Hm; [reflexivity|].
  cbn [List.fold_left List.map length] in *. apply NoDup_cons in Hnd as [Hu Hnd].
  rewrite IH; [|exact Hnd|].
  - rewrite map_size_insert_None; [lia|]. apply Hm. left.
  - intros u' Hu'. rewrite lookup_insert_ne; [apply Hm; now right|].
    intros E. apply Hu. rewrite E.
    change (path u' ∈ path <$> l). apply list_elem_of_fmap. now exists u'.
Qed.

Lemma collect_size (l : list uploaded) :
  NoDup (List.map path l) -> size (collect l) = length l.
Proof.
  intros H. unfold collect. rewrite collect_size_from; [|exact H|].
  - rewrite map_size_empty. lia.
  - intros u _. apply lookup_empty.
Qed.

(** ** The goroutines, step by step *)

Lemma insert_split {A : Type} (l : list A) (i : nat) (x y : A) :
  l !! i = Some x ->
  exists l1 l2 : list A, l = l1 ++ x :: l2 /\ <[i := y]> l = l1 ++ y :: l2.
Proof.
  intros H. exists (take i l), (drop (S i) l). split.
  - symmetry. now apply take_drop_middle.
  - apply insert_take_drop. now apply lookup_lt_Some in H.
Qed.

Lemma collect_snoc (l : list uploaded) (u : uploaded) :
  collect (l ++ [u]) = <[path u := sha u]> (collect l).
Proof. unfold collect. now rewrite List.fold_left_app. Qed.

Section Pipeline.
Variable w : World.
Variable gcsPath : string.
Variable tasks : list string.

Lemma start_invariant (b : storage.Bucket) : invariant w tasks (start tasks b).
Proof.
  split; cbn; try reflexivity; try discriminate.
  - induction tasks as [|t ts IH]; cbn; [reflexivity | now rewrite IH].
  - rewrite List.app_nil_r.
    induction tasks as [|t ts IH]; cbn; [reflexivity | now rewrite IH].
  - constructor.
  - apply Forall_forall. intros g Hg. apply list_elem_of_In in Hg.
    apply List.in_map_iff in Hg as (t & <- & _). exact I.
Qed.

Ltac project :=
  cbn [routines counter closed remote manifest received ranging].

Lemma step_invariant (st st' : pipeline) :
  invariant w tasks st -> step w gcsPath st st' -> invariant w tasks st'.
Proof.
  intros [Hc Hm Hcl Hr Ht Hrec Hrou] Hstep.
  destruct Hstep as [st i relPath s Hi Hup|st i u Hi Hclosed Hrange|st i Hi
                    |st Hzero Hclosed|st Hclosed Hrange].
  - destruct (insert_split _ i _ (Sending (mkUploaded s relPath)) Hi)
      as (l1 & l2 & El & Ei).
    split; project; try assumption.
    + rewrite Ei, Hc, El. now rewrite !sum_list_with_app.
    + rewrite Ei. rewrite El in Ht.
      now rewrite List.map_app, List.concat_app in Ht |- *.
    + rewrite Ei. rewrite El in Hrou.
      apply Forall_app in Hrou as [H1 H2]. apply Forall_cons in H2 as [_ H2].
      apply Forall_app. split; [exact H1|]. constructor; [|exact H2].
      destruct (uploadFile_Ok _ _ _ _ _ Hup) as (content & HL & Hd & _).
      now exists content.
  - destruct (insert_split _ i _ Sent Hi) as (l1 & l2 & El & Ei).
    rewrite El in Hrou. apply Forall_app in Hrou as [H1 H2].
    apply Forall_cons in H2 as [Hu H2].
    split; project; try assumption.
    + rewrite Ei, Hc, El. now rewrite !sum_list_with_app.
    + now rewrite collect_snoc, Hm.
    + rewrite Ei. rewrite El in Ht.
      rewrite List.map_app, List.concat_app in Ht |- *.
      cbn [List.map List.concat owes app] in Ht |- *.
      rewrite List.map_app. cbn [List.map]. rewrite <- Ht.
      rewrite <- !List.app_assoc. apply Permutation_app_head.
      cbn. rewrite (Permutation_app_comm _ [path u]). cbn.
      now rewrite Permutation_middle.
    + apply Forall_app. split; [exact Hrec | now constructor].
    + rewrite Ei. apply Forall_app. split; [exact H1 | now constructor].
  - destruct (insert_split _ i _ Finished Hi) as (l1 & l2 & El & Ei).
    split; project; try assumption.
    + rewrite Ei, Hc, El. rewrite !sum_list_with_app. cbn. lia.
    + intros H. rewrite (Hcl H). reflexivity.
    + rewrite Ei. rewrite El in Ht.
      now rewrite List.map_app, List.concat_app in Ht |- *.
    + rewrite Ei. rewrite El in Hrou.
      apply Forall_app in Hrou as [H1 H2]. apply Forall_cons in H2 as [_ H2].
      apply Forall_app. split; [exact H1 | now constructor].
  - split; project; try assumption; intros; auto.
  - split; project; try assumption. intros _. exact Hclosed.
Qed.

Lemma reachable_invariant (b : storage.Bucket) (st : pipeline) :
  rtc (step w gcsPath) (start tasks b) st -> invariant w tasks st.
Proof.
  revert st. apply (rtc_ind_r (invariant w tasks) (start tasks b)).
  - apply start_invariant.
  - intros y z _ Hyz IH. exact (step_invariant _ _ IH Hyz).
Qed.

Lemma no_weight_no_debt (l : list goroutine) :
  sum_list_with weight l = 0%nat -> List.concat (List.map owes l) = [].
Proof.
  induction l as [|g l IH]; cbn; [reflexivity|].
  destruct g; cbn; try lia. exact IH.
Qed.

(** When the range loop has ended, every task has been received exactly
    once, and the map holds what was received. *)
Lemma pipeline_end (b : storage.Bucket) (st : pipeline) :
  rtc (step w gcsPath) (start tasks b) st ->
  ranging st = false ->
  List.map path (received st) ≡ₚ tasks
  /\ manifest st = collect (received st)
  /\ Forall (faithful w) (received st).
Proof.
  intros Hreach Hend.
  destruct (reachable_invariant _ _ Hreach) as [Hc Hm Hcl Hr Ht Hrec _].
  specialize (Hcl (Hr Hend)). rewrite Hc in Hcl.
  rewrite (no_weight_no_debt _ Hcl) in Ht. now repeat split.
Qed.

(** The channel is never used after it was closed: once it is closed no
    goroutine is still running or sending. *)
Lemma closed_channel_is_idle (b : storage.Bucket) (st : pipeline) (g : goroutine) :
  rtc (step w gcsPath) (start tasks b) st ->
  closed st = true -> g ∈ routines st -> g = Finished.
Proof.
  intros Hreach Hclosed Hg.
  destruct (reachable_invariant _ _ Hreach) as [Hc _ Hcl _ _ _ _].
  specialize (Hcl Hclosed). rewrite Hc in Hcl.
  pose proof (sum_list_with_in g weight _ Hg) as Hle.
  destruct g; cbn in Hle; try lia. reflexivity.
Qed.

Lemma idle_or_busy (l : list goroutine) :
  sum_list_with weight l = 0%nat
  \/ exists (i : nat) (g : goroutine), l !! i = Some g /\ g <> Finished.
Proof.
  induction l as [|g l [IH|(i & g' & Hi & Hne)]].
  - now left.
  - destruct g; [right; eexists 0%nat, _; split; [reflexivity|discriminate]..|].
    now left.
  - right. now exists (S i), g'.
Qed.

(** The pipeline cannot get stuck: as long as the main goroutine is in
    the range loop, some goroutine can move, unless an upload fails
    (which ends the process). *)
Lemma pipeline_progress (b : storage.Bucket) (st : pipeline) :
  rtc (step w gcsPath) (start tasks b) st ->
  ranging st = true ->
  (exists st', step w gcsPath st st')
  \/ (exists i relPath e,
        routines st !! i = Some (Running relPath)
        /\ up_ret (uploadFile w (remote st) relPath gcsPath) = Err e).
Proof.
  intros Hreach Hrange.
  destruct (reachable_invariant _ _ Hreach) as [Hc _ Hcl _ _ _ _].
  destruct (closed st) eqn:Hclosed;
    [left; eexists; now apply step_leave|].
  destruct (idle_or_busy (routines st)) as [Hidle|(i & g & Hi & Hne)].
  - left. eexists. apply step_close; [|exact Hclosed]. now rewrite Hc.
  - destruct g as [relPath|u| |]; [| | |congruence].
    + destruct (up_ret (uploadFile w (remote st) relPath gcsPath)) as [s|e] eqn:Hup.
      * left. eexists. exact (step_upload w gcsPath st i relPath s Hi Hup).
      * right. now exists i, relPath, e.
    + left. eexists. exact (step_receive w gcsPath st i u Hi Hclosed Hrange).
    + left. eexists. exact (step_done w gcsPath st i Hi).
Qed.

(** The run that takes the goroutines one after the other is one of the
    interleavings, so the range loop can be left whenever every upload
    succeeds. *)
Lemma pipeline_in_turn (rest : list string) :
  forall (n : nat) (b b' : storage.Bucket) (m : gmap string string)
         (recv us : list uploaded),
    run_uploads w b gcsPath rest = (Ok us, b') ->
    rtc (step w gcsPath)
      (mkPipeline (replicate n Finished ++ List.map Running rest) (length rest)
         false b m recv true)
      (mkPipeline (replicate (n + length rest) Finished) 0 false b'
         (List.fold_left (fun m f => <[path f := sha f]> m) us m) (recv ++ us) true).
Proof.
  induction rest as [|t rest IH]; intros n b b' m recv us; cbn [run_uploads].
  - intros [= <- <-]. cbn. rewrite !List.app_nil_r, Nat.add_0_r. apply rtc_refl.
  - destruct (up_ret (uploadFile w b t gcsPath)) as [s|e] eqn:Hup; [|discriminate].
    destruct (run_uploads w _ gcsPath rest) as [[us'|e] b''] eqn:Hrest;
      [|discriminate].
    intros [= <- <-].
    assert (Hat : forall (g : goroutine) (tl : list goroutine),
               (replicate n Finished ++ g :: tl) !! n = Some g).
    { intros g tl. rewrite lookup_app_r by (rewrite length_replicate; lia).
      now rewrite length_replicate, Nat.sub_diag. }
    assert (Hput : forall (g g' : goroutine) (tl : list goroutine),
               <[n := g']> (replicate n Finished ++ g :: tl)
               = replicate n Finished ++ g' :: tl).
    { intros g g' tl. rewrite insert_app_r_alt by (rewrite length_replicate; lia).
      now rewrite length_replicate, Nat.sub_diag. }
    cbn [List.map length].
    eapply rtc_l.
    { apply (step_upload w gcsPath _ n t s); [apply Hat | exact Hup]. }
    project. rewrite Hput.
    eapply rtc_l.
    { apply (step_receive w gcsPath _ n (mkUploaded s t)); [apply Hat|reflexivity..]. }
    project. rewrite Hput.
    eapply rtc_l.
    { apply (step_done w gcsPath _ n). apply Hat. }
    project. rewrite Hput.
    replace (replicate n Finished ++ Finished :: List.map Running rest)
      with (replicate (S n) Finished ++ List.map Running rest)
      by (rewrite replicate_S_end, <- List.app_assoc; reflexivity).
    replace (S (length rest) - 1)%nat with (length rest) by lia.
    specialize (IH (S n) _ _ (<[t := s]> m) (recv ++ [mkUploaded s t]) _ Hrest).
    replace (n + S (length rest))%nat with (S n + length rest)%nat by lia.
    cbn [List.fold_left path sha]. rewrite <- List.app_assoc in IH. exact IH.
Qed.

Lemma pipeline_can_finish (b b' : storage.Bucket) (us : list uploaded) :
  run_uploads w b gcsPath tasks = (Ok us, b') ->
  exists st : pipeline,
    rtc (step w gcsPath) (start tasks b) st
    /\ ranging st = false /\ manifest st = collect us /\ remote st = b'.
Proof.
  intros Hrun.
  exists (mkPipeline (replicate (0 + length tasks) Finished) 0 true b'
            (collect us) ([] ++ us) false).
  split; [|now repeat split].
  eapply rtc_trans; [exact (pipeline_in_turn tasks 0 b b' ∅ [] us Hrun)|].
  eapply rtc_l; [now apply step_close|]. project.
  eapply rtc_l; [now apply step_leave|]. project. apply rtc_refl.
Qed.

End Pipeline.

(** Faithful values with the same paths give the same map, whatever
    their order. *)
Lemma collect_determined (w : World) (l l' : list uploaded) :
  Forall (faithful w) l -> Forall (faithful w) l' ->
  List.map path l ≡ₚ List.map path l' ->
  collect l = collect l'.
Proof.
  intros Hl Hl' Hperm.
  assert (Hdom : dom (collect l) = dom (collect l')).
  { rewrite !dom_collect. apply set_eq. intros k.
    rewrite !elem_of_list_to_set. now rewrite Hperm. }
  apply map_eq. intros k.
  destruct (collect l !! k) as [d|] eqn:E; destruct (collect l' !! k) as [d'|] eqn:E'.
  - apply collect_lookup in E as (u & Hu & Hp & Hs).
    apply collect_lookup in E' as (u' & Hu' & Hp' & Hs').
    rewrite Forall_forall in Hl, Hl'.
    destruct (Hl _ Hu) as (c & Hc & Hd). destruct (Hl' _ Hu') as (c' & Hc' & Hd').
    rewrite Hp in Hc. rewrite Hp' in Hc'. rewrite Hc in Hc'. injection Hc' as <-.
    congruence.
  - apply (elem_of_dom_2 (collect l)) in E. rewrite Hdom in E.
    apply elem_of_dom in E as [? E]. congruence.
  - apply (elem_of_dom_2 (collect l')) in E'. rewrite <- Hdom in E'.
    apply elem_of_dom in E' as [? E']. congruence.
  - reflexivity.
Qed.

(** ** A directory that cannot be listed *)

(** C5, the code at a failing input: [/data/secret] cannot be listed.
    [filepath.Walk] reports the error to the callback, which never looks
    at it and returns nil, so the walk returns nil too; the run returns
    normally and publishes a manifest that lacks the regular file
    [secret/k.txt], where a traversal error is meant to end the run (as
    the [log.Fatal] after the walk does for an error the walk returns). *)
Theorem unlistable_directory_is_left_out :
  Walk locked_world "/data" (walkFn "/data") = WReturn None ["a.txt"]
  /\ returned (main (mkFlags "." "gs://bkt/pre" ".") locked_world [] []) = true
  /\ Lstat locked_world "/data/secret/k.txt" = Some (os.Reg (text "key"))
  /\ final_manifest (main (mkFlags "." "gs://bkt/pre" ".") locked_world [] [])
       !! "secret/k.txt" = None
  /\ dom (final_manifest (main (mkFlags "." "gs://bkt/pre" ".") locked_world [] []))
     = {["a.txt"]}.
Proof. repeat split; vm_compute; reflexivity. Qed.

(** ** The fuel of [appendString] *)

Lemma drop_prefix_length (n : nat) :
  forall s : string,
    String.length (strings.drop_prefix n s) = (String.length s - n)%nat.
Proof.
  induction n as [|n IH]; intros s; [cbn; lia|].
  destruct s as [|c s]; [reflexivity|]. cbn. apply IH.
Qed.

Lemma DecodeRuneInString_size (c : ascii) (s : string) :
  (1 <= snd (utf8.DecodeRuneInString (String c s)))%nat.
Proof.
  unfold utf8.DecodeRuneInString. cbn [String.length Nat.ltb Nat.leb].
  repeat match goal with
         | |- context [if ?b then _ else _] => destruct b
         | |- context [match ?o with Some _ => _ | None => _ end] => destruct o
         | |- context [let '(_, _) := ?x in _] => destruct x
         end; cbn; lia.
Qed.

(** More fuel than the length of the source changes nothing. *)
Lemma appendString_fuel (fuel : nat) :
  forall (fuel' : nat) (s : string),
    (String.length s <= fuel)%nat -> (String.length s <= fuel')%nat ->
    json.appendString fuel s = json.appendString fuel' s.
Proof.
  induction fuel as [|fuel IH]; intros fuel' s Hf Hf'.
  - destruct s; [|cbn in Hf; lia]. now destruct fuel'.
  - destruct s as [|b rest]; [now destruct fuel'|].
    destruct fuel' as [|fuel']; [cbn in Hf'; lia|].
    cbn [json.appendString String.length] in *.
    destruct (utf8.code b <? utf8.RuneSelf)%Z.
    + f_equal. apply IH; lia.
    + pose proof (DecodeRuneInString_size b (String.substring 0 3 rest)) as Hsize.
      change (String b (String.substring 0 3 rest))
        with (String.substring 0 utf8.UTFMax (String b rest)) in Hsize.
      destruct (utf8.DecodeRuneInString _) as [c size]. cbn [snd] in Hsize.
      assert (Hdrop : (String.length (strings.drop_prefix size (String b rest))
                       <= String.length rest)%nat)
        by (rewrite drop_prefix_length; cbn [String.length]; lia).
      destruct ((c =? utf8.RuneError)%Z && (size =? 1)%nat);
        [f_equal; apply IH; lia|].
      rewrite (IH fuel' (strings.drop_prefix size (String b rest))) by lia.
      reflexivity.
Qed.

Lemma escaped_fuel (fuel : nat) (s : string) :
  (String.length s <= fuel)%nat -> json.appendString fuel s = json.escaped s.
Proof. intros H. apply appendString_fuel; [exact H | lia]. Qed.

(** ** A tree without regular files *)

Lemma Marshal_empty : json.Marshal ∅ = "{}".
Proof. reflexivity. Qed.

(** C8: when the root is a directory with no regular file below it, and
    the client, the remote manifest stream and the local write do not
    fail, the run returns normally with an empty manifest; [{}] is
    written to the remote manifest object and committed, written to the
    local manifest file and printed, in that order. *)
Theorem empty_tree_publishes_empty_manifest (fl : flags) (w : World)
    (cs rs : list nat) (bucketName gcsPath : string) (l : bool)
    (es : list (string * os.node)) :
  parseUri (dst fl) = Ok (bucketName, gcsPath) ->
  client_fault w = None ->
  Lstat w (filepath.Abs (wd w) (src fl)) = Some (os.Dir l es) ->
  regular_paths (os.Dir l es) = [] ->
  storage.write_fault (bucket w) (filepath.Join gcsPath "manifest.json") 0 = None ->
  storage.close_fault (bucket w) (filepath.Join gcsPath "manifest.json") = false ->
  local_fault w = None ->
  exists b : storage.Bucket,
    main fl w cs rs
    = Exit0 ∅ b
        [ActNewClient; ActWalk (filepath.Abs (wd w) (src fl));
         ActRemoteWrite (filepath.Join gcsPath "manifest.json") "{}";
         ActWriteFile (filepath.Join (manifestPath fl) "manifest.json") "{}";
         ActPrint "{}";
         ActRemoteClose (filepath.Join gcsPath "manifest.json") None]
    /\ storage.objects b
       = <[filepath.Join gcsPath "manifest.json" := text "{}"]>
           (storage.objects (bucket w)).
Proof.
  intros Hparse Hclient Hroot Hrp Hwrite Hclose Hlocal.
  unfold main. rewrite Hparse, Hclient. unfold Walk. rewrite Hroot.
  pose proof (regular_paths_sorted (os.Dir l es)) as Hsorted.
  rewrite Hrp in Hsorted. apply Permutation_nil_r in Hsorted.
  rewrite (walk_no_regular _ _ Hsorted). rewrite schedule_nil. cbn [run_uploads].
  rewrite schedule_nil. change (collect []) with (∅ : gmap string string).
  rewrite Marshal_empty. unfold storage.Write.
  cbn [storage.NewWriter storage.name storage.calls]. rewrite Hwrite, Hlocal.
  unfold storage.Close. cbn [storage.name storage.failed storage.sent orb app].
  rewrite Hclose. eexists. split; reflexivity.
Qed.

Lemma empty_tree_witness :
  exists b : storage.Bucket,
    main (mkFlags "/data" "bkt/pre" "/out") bare_world [] []
    = Exit0 ∅ b
        [ActNewClient; ActWalk (filepath.Abs "/srv" "/data");
         ActRemoteWrite (filepath.Join "pre" "manifest.json") "{}";
         ActWriteFile (filepath.Join "/out" "manifest.json") "{}";
         ActPrint "{}";
         ActRemoteClose (filepath.Join "pre" "manifest.json") None]
    /\ storage.objects b
       = <[filepath.Join "pre" "manifest.json" := text "{}"]> ∅.
Proof.
  apply (empty_tree_publishes_empty_manifest
           (mkFlags "/data" "bkt/pre" "/out") bare_world [] [] "bkt" "pre" true
           [("empty", os.Dir true []); ("lnk", os.Irregular)]);
    reflexivity.
Defined.

(** * Further properties of the code *)

(** ** [uploadFile]: when it returns a digest, and what a failure leaves *)

Lemma pieces_nonempty (n : nat) :
  (0 < n)%nat ->
  forall (fuel : nat) (l : list byte), Forall (fun p => p <> []) (pieces fuel n l).
Proof.
  intros Hn. induction fuel as [|fuel IH]; intros l; [constructor|].
  destruct l as [|x l]; [constructor|]. cbn [pieces]. constructor; [|apply IH].
  destruct n; [lia | discriminate].
Qed.

Lemma pieces_length (n : nat) :
  (0 < n)%nat ->
  forall (fuel : nat) (l : list byte),
    (length l <= fuel)%nat ->
    length (pieces fuel n l) = ((length l + n - 1) / n)%nat.
Proof.
  intros Hn. induction fuel as [|fuel IH]; intros l Hl.
  - destruct l; [|simpl in Hl; lia]. cbn. symmetry. apply Nat.div_small. lia.
  - destruct l as [|x l]; [cbn; symmetry; apply Nat.div_small; lia|].
    cbn [pieces length]. rewrite IH by (rewrite List.length_skipn; simpl in *; lia).
    rewrite List.length_skipn. cbn [length].
    destruct (Nat.le_gt_cases (S (length l)) n) as [Hle|Hgt].
    + replace (S (length l) - n)%nat with 0%nat by lia.
      rewrite (Nat.div_small (0 + n - 1) n) by lia.
      symmetry. replace (S (length l) + n - 1)%nat with (length l + 1 * n)%nat by lia.
      rewrite Nat.div_add by lia. rewrite Nat.div_small by lia. reflexivity.
    + replace (S (length l) + n - 1)%nat with ((S (length l) - n + n - 1) + 1 * n)%nat
        by lia.
      rewrite Nat.div_add by lia. lia.
Qed.

(** A copy ends without error exactly when no read of the source fails
    and the sink accepts every write. *)
Lemma Copy_outcome (b : storage.Bucket) (f : io.Reader) :
  forall (h : sha256.digest) (w : storage.Writer),
    c_err (Copy b h f w) = None
    <-> ends_well f = true
        /\ forall k, (k < writes f)%nat ->
              storage.write_fault b (storage.name w) (storage.calls w + k) = None.
Proof.
  induction f as [|[p er] rest IH]; intros h w.
  - cbn. split; [|reflexivity]. intros _. split; [reflexivity|]. intros k Hk. lia.
  - destruct p as [|x p].
    + cbn [Copy tee_Read length Nat.ltb Nat.leb writes ends_well].
      destruct er as [[|e]|]; cbn.
      * split; [|reflexivity]. intros _. split; [reflexivity|]. intros k Hk. lia.
      * split; [discriminate | intros [H _]; discriminate H].
      * apply IH.
    + cbn [Copy tee_Read length Nat.ltb Nat.leb writes ends_well].
      unfold storage.Write.
      destruct (storage.write_fault b (storage.name w) (storage.calls w))
        as [n|] eqn:Hw0.
      * cbn. split; [discriminate|]. intros [_ H].
        specialize (H 0%nat ltac:(lia)). rewrite Nat.add_0_r in H. congruence.
      * destruct er as [[|e]|]; cbn.
        -- split; [|reflexivity]. intros _. split; [reflexivity|].
           intros k Hk. replace k with 0%nat by lia. now rewrite Nat.add_0_r.
        -- split; [discriminate | intros [H _]; discriminate H].
        -- match goal with |- context [Copy b ?h' rest ?w'] =>
             rewrite (IH h' w') end.
           cbn [storage.name storage.calls].
           split; intros [He H]; (split; [exact He|]); intros k Hk.
           ++ destruct k as [|k]; [now rewrite Nat.add_0_r|].
              replace (storage.calls w + S k)%nat with (S (storage.calls w) + k)%nat
                by lia.
              apply H. lia.
           ++ replace (S (storage.calls w) + k)%nat with (storage.calls w + S k)%nat
                by lia.
              apply H. lia.
Qed.

Lemma chunks_reader (chunks : list (list byte)) :
  Forall (fun p => p <> []) chunks ->
  ends_well (List.map (fun p => (p, None)) chunks) = true
  /\ writes (List.map (fun p => (p, None)) chunks) = length chunks.
Proof.
  induction 1 as [|p chunks Hp _ [IHe IHw]]; [now split|].
  destruct p as [|x p]; [congruence|]. cbn. now rewrite IHw.
Qed.

(** An open regular file is read without error, and takes one write
    per started buffer of [io.Copy] (32 KiB), none when it is empty. *)
Lemma file_reader_writes (content : list byte) :
  ends_well (file_reader content) = true
  /\ writes (file_reader content)
     = ((length content + copy_buf - 1) / copy_buf)%nat.
Proof.
  unfold file_reader.
  destruct (chunks_reader (pieces (length content) copy_buf content)) as [He Hw].
  { apply pieces_nonempty. unfold copy_buf. lia. }
  split; [exact He|]. rewrite Hw.
  apply pieces_length; [unfold copy_buf; lia | lia].
Qed.

(** [uploadFile] returns a digest exactly when [os.Open] succeeds, no
    read of the file fails and the service accepts the write of every
    non-empty chunk that the copy reads; what the deferred [Close]
    returns plays no part. *)
Theorem uploadFile_returns_digest_iff (w : World) (b : storage.Bucket)
    (relPath gcsPath : string) :
  (exists d, up_ret (uploadFile w b relPath gcsPath) = Ok d) <->
  exists f : io.Reader,
    Open w relPath = Ok f
    /\ ends_well f = true
    /\ forall k, (k < writes f)%nat ->
         storage.write_fault b (filepath.Join gcsPath relPath) k = None.
Proof.
  unfold uploadFile. destruct (Open w relPath) as [f|e].
  - pose proof (Copy_outcome b f sha256.New
                  (storage.NewWriter (filepath.Join gcsPath relPath))) as HC.
    cbn [storage.NewWriter storage.name storage.calls Nat.add] in HC.
    destruct (storage.Close b _) as [cerr b'].
    destruct (c_err _) as [e|].
    + split; [intros [d Hd]; discriminate Hd|].
      intros (f' & [= <-] & He & Hk).
      assert (Hbad : Some e = None) by (apply HC; now split). discriminate Hbad.
    + split; [|cbn; eauto]. intros _. exists f.
      destruct (proj1 HC eq_refl) as [He Hk]. now repeat split.
  - destruct (storage.Close b _) as [cerr b']. cbn.
    split; [intros [d Hd]; discriminate Hd | intros (f & Hf & _); discriminate Hf].
Qed.

(** When the local file cannot be opened, [uploadFile] returns that
    error; the remote stream was created first and its deferred [Close]
    still runs, so an empty object is committed under the destination
    name unless the service refuses the commit. *)
Theorem failed_open_still_commits_an_empty_object (w : World)
    (b : storage.Bucket) (relPath gcsPath e : string) :
  Open w relPath = Err e ->
  up_ret (uploadFile w b relPath gcsPath) = Err e
  /\ (storage.close_fault b (filepath.Join gcsPath relPath) = false ->
      storage.objects (up_bucket (uploadFile w b relPath gcsPath))
      = <[filepath.Join gcsPath relPath := []]> (storage.objects b))
  /\ (storage.close_fault b (filepath.Join gcsPath relPath) = true ->
      up_bucket (uploadFile w b relPath gcsPath) = b).
Proof.
  intros Ho. unfold uploadFile. rewrite Ho. unfold storage.Close.
  cbn [storage.NewWriter storage.failed storage.name storage.sent orb].
  destruct (storage.close_fault b (filepath.Join gcsPath relPath)); cbn;
    repeat split; intros; congruence.
Qed.

Lemma failed_open_witness :
  up_ret (uploadFile twin_world quiet_bucket "sub/b.txt" "pre")
  = Err "open sub/b.txt: no such file or directory"
  /\ (storage.close_fault quiet_bucket (filepath.Join "pre" "sub/b.txt") = false ->
      storage.objects (up_bucket (uploadFile twin_world quiet_bucket "sub/b.txt" "pre"))
      = <[filepath.Join "pre" "sub/b.txt" := []]> (storage.objects quiet_bucket))
  /\ (storage.close_fault quiet_bucket (filepath.Join "pre" "sub/b.txt") = true ->
      up_bucket (uploadFile twin_world quiet_bucket "sub/b.txt" "pre") = quiet_bucket).
Proof.
  apply (failed_open_still_commits_an_empty_object twin_world quiet_bucket
           "sub/b.txt" "pre" "open sub/b.txt: no such file or directory").
  reflexivity.
Defined.

(** A refused write fails the copy and the stream. *)
Lemma Copy_refused (b : storage.Bucket) (f : io.Reader) :
  forall (h : sha256.digest) (w : storage.Writer) (k : nat),
    (k < writes f)%nat ->
    storage.write_fault b (storage.name w) (storage.calls w + k) <> None ->
    c_err (Copy b h f w) <> None
    /\ storage.failed (c_sink (Copy b h f w)) = true.
Proof.
  induction f as [|[p er] rest IH]; intros h w k Hk Hfault; [cbn in Hk; lia|].
  destruct p as [|x p].
  - cbn [Copy tee_Read length Nat.ltb Nat.leb writes] in *.
    destruct er as [[|e]|]; cbn in *; [lia..|]. now apply (IH h w k).
  - cbn [Copy tee_Read length Nat.ltb Nat.leb writes] in *.
    unfold storage.Write.
    destruct (storage.write_fault b (storage.name w) (storage.calls w))
      as [n|] eqn:Hw0.
    + cbn. split; [discriminate | reflexivity].
    + destruct k as [|k]; [rewrite Nat.add_0_r in Hfault; congruence|].
      destruct er as [[|e]|]; cbn in Hk; [lia..|]. cbn.
      match goal with |- context [Copy b ?h' rest ?w'] =>
        apply (IH h' w' k); [lia|] end.
      cbn [storage.name storage.calls].
      now replace (S (storage.calls w) + k)%nat with (storage.calls w + S k)%nat
        by lia.
Qed.

(** When the file has been opened and the service refuses one of the
    writes of its chunks, [uploadFile] returns an error, the deferred
    [Close] reports the failed stream, and the bucket is left as it
    was: nothing is committed under the destination name. *)
Theorem refused_write_commits_nothing (w : World) (b : storage.Bucket)
    (relPath gcsPath : string) (f : io.Reader) (k : nat) :
  Open w relPath = Ok f ->
  (k < writes f)%nat ->
  storage.write_fault b (filepath.Join gcsPath relPath) k <> None ->
  is_err (up_ret (uploadFile w b relPath gcsPath)) = true
  /\ up_close (uploadFile w b relPath gcsPath) <> None
  /\ up_bucket (uploadFile w b relPath gcsPath) = b.
Proof.
  intros Ho Hk Hfault. unfold uploadFile. rewrite Ho.
  destruct (Copy_refused b f sha256.New
              (storage.NewWriter (filepath.Join gcsPath relPath)) k Hk Hfault)
    as [He Hf].
  unfold storage.Close. rewrite Hf. cbn [orb].
  destruct (c_err _) as [e|]; [|congruence]. cbn.
  repeat split. discriminate.
Qed.

Lemma refused_write_witness :
  is_err (up_ret (uploadFile tree_world (stalling "pre/a.txt" 2) "a.txt" "pre")) = true
  /\ up_close (uploadFile tree_world (stalling "pre/a.txt" 2) "a.txt" "pre") <> None
  /\ up_bucket (uploadFile tree_world (stalling "pre/a.txt" 2) "a.txt" "pre")
     = stalling "pre/a.txt" 2.
Proof.
  apply (refused_write_commits_nothing tree_world (stalling "pre/a.txt" 2)
           "a.txt" "pre" (file_reader (text "hello")) 0).
  - reflexivity.
  - vm_compute. lia.
  - discriminate.
Defined.

(** ** The uploads of a run *)

Lemma Copy_same_service (b b' : storage.Bucket) (f : io.Reader) :
  storage.write_fault b = storage.write_fault b' ->
  forall (h : sha256.digest) (w : storage.Writer), Copy b h f w = Copy b' h f w.
Proof.
  intros E. induction f as [|[p er] rest IH]; intros h w; [reflexivity|].
  cbn [Copy tee_Read]. unfold storage.Write. rewrite E.
  destruct (0 <? length p)%nat.
  - destruct (storage.write_fault b' (storage.name w) (storage.calls w));
      [reflexivity|].
    destruct er as [[|e]|]; [reflexivity..|]. now rewrite IH.
  - destruct er as [[|e]|]; [reflexivity..|]. now rewrite IH.
Qed.

Lemma Close_service (b : storage.Bucket) (w : storage.Writer) :
  storage.write_fault (storage.Close b w).2 = storage.write_fault b
  /\ storage.close_fault (storage.Close b w).2 = storage.close_fault b.
Proof. unfold storage.Close. now destruct (_ || _). Qed.

Lemma uploadFile_service (w : World) (b : storage.Bucket) (relPath gcsPath : string) :
  storage.write_fault (up_bucket (uploadFile w b relPath gcsPath))
  = storage.write_fault b
  /\ storage.close_fault (up_bucket (uploadFile w b relPath gcsPath))
     = storage.close_fault b.
Proof.
  unfold uploadFile. destruct (Open w relPath) as [f|e].
  - pose proof (Close_service b (c_sink (Copy b sha256.New f
                  (storage.NewWriter (filepath.Join gcsPath relPath))))) as H.
    destruct (storage.Close b _) as [cerr b']. now destruct (c_err _).
  - pose proof (Close_service b (storage.NewWriter (filepath.Join gcsPath relPath))) as H.
    now destruct (storage.Close b _) as [cerr b'].
Qed.

(** Whether an upload succeeds, and with which digest, does not depend
    on what the bucket holds. *)
Lemma uploadFile_ret_same_service (w : World) (b b' : storage.Bucket)
    (relPath gcsPath : string) :
  storage.write_fault b = storage.write_fault b' ->
  up_ret (uploadFile w b relPath gcsPath) = up_ret (uploadFile w b' relPath gcsPath).
Proof.
  intros E. unfold uploadFile. destruct (Open w relPath) as [f|e].
  - rewrite (Copy_same_service b b' f E).
    destruct (storage.Close b _), (storage.Close b' _). now destruct (c_err _).
  - now destruct (storage.Close b _), (storage.Close b' _).
Qed.

Lemma run_uploads_service (w : World) (gcsPath : string) (tasks : list string) :
  forall b : storage.Bucket,
    storage.write_fault (run_uploads w b gcsPath tasks).2 = storage.write_fault b
    /\ storage.close_fault (run_uploads w b gcsPath tasks).2 = storage.close_fault b.
Proof.
  induction tasks as [|t rest IH]; intros b; cbn [run_uploads]; [now split|].
  destruct (uploadFile_service w b t gcsPath) as [Hw Hc].
  destruct (up_ret (uploadFile w b t gcsPath)); [|now split].
  specialize (IH (up_bucket (uploadFile w b t gcsPath))).
  destruct (run_uploads w _ gcsPath rest) as [[us|e] b']; cbn in *;
    destruct IH; split; congruence.
Qed.

(** The uploads all succeed exactly when each of them succeeds on its
    own. *)
Lemma run_uploads_Ok_iff (w : World) (gcsPath : string) (tasks : list string) :
  forall b : storage.Bucket,
    is_err (run_uploads w b gcsPath tasks).1 = false
    <-> Forall (fun t => is_err (up_ret (uploadFile w b t gcsPath)) = false) tasks.
Proof.
  induction tasks as [|t rest IH]; intros b; cbn [run_uploads].
  - split; [constructor | reflexivity].
  - destruct (uploadFile_service w b t gcsPath) as [Hw _].
    destruct (up_ret (uploadFile w b t gcsPath)) as [s|e] eqn:Eu.
    + specialize (IH (up_bucket (uploadFile w b t gcsPath))).
      assert (Hsame : Forall (fun t0 => is_err (up_ret (uploadFile w
                          (up_bucket (uploadFile w b t gcsPath)) t0 gcsPath)) = false) rest
                      <-> Forall (fun t0 => is_err (up_ret (uploadFile w b t0 gcsPath))
                                            = false) rest).
      { apply Forall_iff. intros t0.
        now rewrite (uploadFile_ret_same_service w _ b t0 gcsPath Hw). }
      rewrite Hsame in IH.
      destruct (run_uploads w _ gcsPath rest) as [[us|e] b']; cbn in *.
      * split; [|reflexivity]. intros _.
        constructor; [now rewrite Eu | now apply IH].
      * split; [discriminate|]. intros H. apply Forall_cons in H as [_ H].
        now apply IH in H.
    + cbn. split; [discriminate|]. intros H. apply Forall_cons in H as [H _].
      rewrite Eu in H. discriminate H.
Qed.

(** ** All or nothing *)

(** If the upload of any one file that the walk found fails, the run
    ends with a fatal error whatever the schedule, and the main
    goroutine has done no more than create the client, walk and start
    the goroutines: no manifest is written anywhere or printed. *)
Theorem failed_upload_is_fatal_and_nothing_is_published (fl : flags) (w : World)
    (cs rs : list nat) (bucketName gcsPath : string) (tasks : list string)
    (relPath : string) :
  parseUri (dst fl) = Ok (bucketName, gcsPath) ->
  client_fault w = None ->
  Walk w (filepath.Abs (wd w) (src fl)) (walkFn (filepath.Abs (wd w) (src fl)))
  = WReturn None tasks ->
  relPath ∈ tasks ->
  is_err (up_ret (uploadFile w (bucket w) relPath gcsPath)) = true ->
  exists e : string,
    main fl w cs rs
    = Fatal e ([ActNewClient; ActWalk (filepath.Abs (wd w) (src fl))]
               ++ List.map ActGo tasks).
Proof.
  intros Hparse Hclient Hwalk Hin Hfail. unfold main.
  rewrite Hparse, Hclient, Hwalk.
  pose proof (run_uploads_Ok_iff w gcsPath (schedule cs tasks) (bucket w)) as Hiff.
  destruct (run_uploads w (bucket w) gcsPath (schedule cs tasks)) as [[done|e] b1].
  - exfalso. cbn in Hiff. destruct Hiff as [Hall _]. specialize (Hall eq_refl).
    rewrite Forall_forall in Hall.
    rewrite (Hall relPath) in Hfail; [discriminate|].
    now rewrite (schedule_Permutation cs tasks).
  - now exists e.
Qed.

Lemma failed_upload_witness :
  exists e : string,
    main (mkFlags "/data" "gs://bkt/pre" ".")
         (mkWorld "/srv" tree_fs quiet_bucket None None openable) [1] [0]
    = Fatal e ([ActNewClient; ActWalk (filepath.Abs "/srv" "/data")]
               ++ List.map ActGo ["a.txt"; "sub/b.txt"]).
Proof.
  apply (failed_upload_is_fatal_and_nothing_is_published
           (mkFlags "/data" "gs://bkt/pre" ".")
           (mkWorld "/srv" tree_fs quiet_bucket None None openable) [1] [0]
           "bkt" "pre" ["a.txt"; "sub/b.txt"] "sub/b.txt").
  - reflexivity.
  - reflexivity.
  - reflexivity.
  - right. left.
  - reflexivity.
Defined.

Lemma spawned_not_concluding (tasks : list string) :
  Forall (fun a => concluding a = false) (List.map ActGo tasks).
Proof. induction tasks; cbn; constructor; auto. Qed.

(** A run that does not return normally (fatal error or panic) has
    neither printed the manifest nor closed, and so committed, the
    remote manifest object; this holds also when the remote manifest
    was already written and the local write then failed, because the
    exit skips the deferred [Close]. *)
Theorem unsuccessful_run_never_prints_or_commits (fl : flags) (w : World)
    (cs rs : list nat) :
  returned (main fl w cs rs) = false ->
  Forall (fun a => concluding a = false) (final_acts (main fl w cs rs)).
Proof.
  unfold main.
  destruct (parseUri (dst fl)) as [[bucketName gcsPath]|e]; [|constructor].
  destruct (client_fault w) as [e|]; [intros _; now repeat constructor|].
  destruct (Walk _ _ _) as [|[e|] tasks];
    [intros _; now repeat constructor
    |intros _; cbn; repeat constructor; apply spawned_not_concluding|].
  destruct (run_uploads _ _ _ _) as [[done|e] b1];
    [|intros _; cbn; repeat constructor; apply spawned_not_concluding].
  destruct (storage.Write _ _ _) as [[n [e|]] o].
  - intros _. cbn. repeat constructor. apply Forall_app. split;
      [apply spawned_not_concluding | now repeat constructor].
  - destruct (local_fault w) as [e|].
    + intros _. cbn. repeat constructor. apply Forall_app. split;
        [apply spawned_not_concluding | now repeat constructor].
    + destruct (storage.Close _ _). discriminate.
Qed.

Lemma unsuccessful_run_witness :
  Forall (fun a => concluding a = false)
    (final_acts (main (mkFlags "." "gs://bkt/pre" "/out")
                   (mkWorld "/data" tree_fs quiet_bucket None (Some "disk full") openable)
                   [] [])).
Proof.
  apply (unsuccessful_run_never_prints_or_commits
           (mkFlags "." "gs://bkt/pre" "/out")
           (mkWorld "/data" tree_fs quiet_bucket None (Some "disk full") openable) [] []).
  vm_compute. reflexivity.
Defined.

(** ** Independence of the schedule *)

Lemma faithful_collect_lookup (w : World) (l : list uploaded) (u : uploaded) :
  Forall (faithful w) l -> u ∈ l -> collect l !! path u = Some (sha u).
Proof.
  intros Hl Hu.
  assert (Hdom : path u ∈ dom (collect l)).
  { rewrite dom_collect, elem_of_list_to_set.
    change (path u ∈ path <$> l). apply list_elem_of_fmap. now exists u. }
  apply elem_of_dom in Hdom as [d Hd]. rewrite Hd. f_equal.
  apply collect_lookup in Hd as (u' & Hu' & Hp & <-).
  rewrite Forall_forall in Hl.
  destruct (Hl _ Hu) as (c & Hc & ->). destruct (Hl _ Hu') as (c' & Hc' & ->).
  rewrite Hp, Hc in Hc'. now injection Hc' as <-.
Qed.

(** A run that returns under one schedule returns under every
    schedule, with the same manifest and the same actions of the main
    goroutine: neither the order in which the uploads commit nor the
    order in which their results arrive on the channel can be
    observed in what is published. *)
Theorem published_manifest_is_independent_of_the_schedule (fl : flags)
    (w : World) (cs rs cs' rs' : list nat) (mfst : gmap string string)
    (b : storage.Bucket) (acts : list action) :
  main fl w cs rs = Exit0 mfst b acts ->
  exists b' : storage.Bucket, main fl w cs' rs' = Exit0 mfst b' acts.
Proof.
  intros Hmain.
  destruct (main_Exit0 _ _ _ _ _ _ _ Hmain)
    as (bn & gp & tasks & done & b1 & Hparse & Hclient & Hlocal & Hwalk & Hrun
        & Hm & Hwrite & Hb & Hacts).
  unfold main. rewrite Hparse, Hclient, Hwalk.
  pose proof (run_uploads_Ok_iff w gp (schedule cs tasks) (bucket w)) as Hiff.
  pose proof (run_uploads_Ok_iff w gp (schedule cs' tasks) (bucket w)) as Hiff'.
  pose proof (run_uploads_service w gp (schedule cs tasks) (bucket w)) as [Hw1 Hc1].
  pose proof (run_uploads_service w gp (schedule cs' tasks) (bucket w)) as [Hw2 Hc2].
  rewrite Hrun in Hiff, Hw1, Hc1. cbn in Hiff, Hw1, Hc1.
  destruct (run_uploads w (bucket w) gp (schedule cs' tasks)) as [[done'|e] b2] eqn:Hrun'.
  2: { exfalso. cbn in Hiff'. destruct Hiff' as [_ Hbad].
       enough (true = false) by discriminate. apply Hbad.
       rewrite (schedule_Permutation cs' tasks), <- (schedule_Permutation cs tasks).
       now apply Hiff. }
  cbn in Hw2, Hc2.
  apply run_uploads_Ok in Hrun as [Hp Hf]. apply run_uploads_Ok in Hrun' as [Hp' Hf'].
  assert (Hsame : collect (schedule rs' done') = mfst).
  { rewrite Hm. apply (collect_determined w).
    - now rewrite (schedule_Permutation rs' done').
    - now rewrite (schedule_Permutation rs done).
    - change (path <$> schedule rs' done' ≡ₚ path <$> schedule rs done).
      rewrite (schedule_Permutation rs' done'), (schedule_Permutation rs done).
      change (List.map path done' ≡ₚ List.map path done). rewrite Hp, Hp'.
      now rewrite (schedule_Permutation cs' tasks), (schedule_Permutation cs tasks). }
  rewrite Hsame. unfold storage.Write.
  cbn [storage.NewWriter storage.name storage.calls].
  rewrite Hw2, <- Hw1, Hwrite, Hlocal.
  cbn [storage.sent storage.failed app].
  unfold storage.Close in Hacts |- *. cbn [storage.failed storage.name orb] in Hacts |- *.
  rewrite Hc1 in Hacts. rewrite Hc2.
  destruct (storage.close_fault (bucket w) _); cbn in Hacts |- *;
    eexists; rewrite Hacts; reflexivity.
Qed.

Lemma schedule_independence_witness :
  exists b' : storage.Bucket,
    main (mkFlags "." "gs://bkt/pre" ".") tree_world [0] [0]
    = Exit0 (final_manifest (main (mkFlags "." "gs://bkt/pre" ".") tree_world [1] [1]))
        b' (final_acts (main (mkFlags "." "gs://bkt/pre" ".") tree_world [1] [1])).
Proof.
  apply (published_manifest_is_independent_of_the_schedule
           (mkFlags "." "gs://bkt/pre" ".") tree_world [1] [1] [0] [0]
           (final_manifest (main (mkFlags "." "gs://bkt/pre" ".") tree_world [1] [1]))
           (final_bucket (main (mkFlags "." "gs://bkt/pre" ".") tree_world [1] [1]))
           (final_acts (main (mkFlags "." "gs://bkt/pre" ".") tree_world [1] [1]))).
  vm_compute. reflexivity.
Defined.

(** ** What a run leaves in the bucket *)

Lemma uploadFile_Ok_bucket (w : World) (b : storage.Bucket)
    (relPath gcsPath s : string) :
  up_ret (uploadFile w b relPath gcsPath) = Ok s ->
  exists content : list byte,
    Lstat w relPath = Some (os.Reg content) /\ s = digest_of content
    /\ (storage.objects (up_bucket (uploadFile w b relPath gcsPath))
        = storage.objects b
        \/ storage.objects (up_bucket (uploadFile w b relPath gcsPath))
           = <[filepath.Join gcsPath relPath := content]> (storage.objects b)).
Proof.
  intros Hret. destruct (uploadFile_Ok _ _ _ _ _ Hret) as (content & HL & Hd & Hs & Hc).
  exists content. split; [exact HL|]. split; [exact Hd|].
  rewrite Hs in Hc. unfold storage.Close in Hc.
  cbn [storage.failed storage.name storage.sent orb] in Hc.
  destruct (storage.close_fault b _); injection Hc as _ <-; [now left | now right].
Qed.

Lemma run_uploads_objects (w : World) (gcsPath : string) (tasks : list string) :
  forall (b b' : storage.Bucket) (done : list uploaded),
    run_uploads w b gcsPath tasks = (Ok done, b') ->
    (forall o, is_Some (storage.objects b !! o) -> is_Some (storage.objects b' !! o))
    /\ (forall o c,
          storage.objects b' !! o = Some c ->
          storage.objects b !! o = Some c
          \/ exists u, u ∈ done /\ o = filepath.Join gcsPath (path u)
                       /\ Lstat w (path u) = Some (os.Reg c)).
Proof.
  induction tasks as [|t rest IH]; intros b b' done; cbn [run_uploads].
  - intros [= <- <-]. split; [auto | now left].
  - destruct (up_ret (uploadFile w b t gcsPath)) as [s|e] eqn:Eu; [|discriminate].
    destruct (run_uploads w _ gcsPath rest) as [[us|e] b''] eqn:Er; [|discriminate].
    intros [= <- <-]. destruct (IH _ _ _ Er) as [Hkeep Hnew].
    destruct (uploadFile_Ok_bucket _ _ _ _ _ Eu) as (content & HL & _ & [Eo|Eo]).
    + rewrite Eo in Hkeep, Hnew. split; [exact Hkeep|].
      intros o c Ho. destruct (Hnew o c Ho) as [H|(u & Hu & H)]; [now left|].
      right. exists u. split; [now right | exact H].
    + rewrite Eo in Hkeep, Hnew. split.
      * intros o Ho. apply Hkeep.
        destruct (decide (filepath.Join gcsPath t = o)) as [<-|Hne].
        -- rewrite lookup_insert_eq. eauto.
        -- now rewrite lookup_insert_ne.
      * intros o c Ho. destruct (Hnew o c Ho) as [H|(u & Hu & H)].
        -- destruct (decide (filepath.Join gcsPath t = o)) as [<-|Hne].
           ++ rewrite lookup_insert_eq in H. injection H as <-. right.
              exists (mkUploaded s t). split; [left|]. now split.
           ++ rewrite lookup_insert_ne in H by exact Hne. now left.
        -- right. exists u. split; [now right | exact H].
Qed.

(** A run that returns has removed no object from the bucket, and every
    object the bucket then holds is an object it held before, or the
    serialized manifest under [manifest.json] below the prefix, or the
    bytes of the local file opened for a key of the manifest, under that
    key joined to the prefix. *)
Theorem run_only_adds_file_objects_and_the_manifest (fl : flags) (w : World)
    (cs rs : list nat) (mfst : gmap string string) (b : storage.Bucket)
    (acts : list action) (bucketName gcsPath : string) :
  parseUri (dst fl) = Ok (bucketName, gcsPath) ->
  main fl w cs rs = Exit0 mfst b acts ->
  (forall o : string,
      is_Some (storage.objects (bucket w) !! o) -> is_Some (storage.objects b !! o))
  /\ (forall (o : string) (c : list byte),
        storage.objects b !! o = Some c ->
        storage.objects (bucket w) !! o = Some c
        \/ (o = filepath.Join gcsPath "manifest.json"
            /\ c = bytes_of_string (json.Marshal mfst))
        \/ exists k : string,
             mfst !! k = Some (digest_of c)
             /\ Lstat w k = Some (os.Reg c)
             /\ o = filepath.Join gcsPath k).
Proof.
  intros Hparse Hmain.
  destruct (main_Exit0 _ _ _ _ _ _ _ Hmain)
    as (bn & gp & tasks & done & b1 & Hparse' & _ & _ & _ & Hrun & Hm & _ & Hb & _).
  rewrite Hparse in Hparse'. injection Hparse' as <- <-.
  destruct (run_uploads_objects _ _ _ _ _ _ Hrun) as [Hkeep Hnew].
  apply run_uploads_Ok in Hrun as [_ Hfaith].
  assert (Hobj : storage.objects b = storage.objects b1
                 \/ storage.objects b
                    = <[filepath.Join gcsPath "manifest.json"
                        := bytes_of_string (json.Marshal mfst)]> (storage.objects b1)).
  { rewrite Hb. unfold storage.Close.
    cbn [storage.failed storage.name storage.sent orb].
    destruct (storage.close_fault b1 _); [now left | now right]. }
  assert (Hfile : forall o c,
             storage.objects b1 !! o = Some c ->
             storage.objects (bucket w) !! o = Some c
             \/ exists k, mfst !! k = Some (digest_of c)
                          /\ Lstat w k = Some (os.Reg c)
                          /\ o = filepath.Join gcsPath k).
  { intros o c Ho. destruct (Hnew o c Ho) as [H|(u & Hu & -> & HL)]; [now left|].
    right. exists (path u). split; [|now split]. rewrite Hm.
    assert (Hfs : Forall (faithful w) (schedule rs done))
      by now rewrite (schedule_Permutation rs done).
    rewrite (faithful_collect_lookup w _ u Hfs)
      by now rewrite (schedule_Permutation rs done).
    rewrite Forall_forall in Hfaith. destruct (Hfaith _ Hu) as (c' & Hc' & ->).
    rewrite HL in Hc'. now injection Hc' as <-. }
  destruct Hobj as [Eo|Eo]; rewrite Eo.
  - split; [exact Hkeep|]. intros o c Ho.
    destruct (Hfile o c Ho) as [H|H]; [now left | now right; right].
  - split.
    + intros o Ho. destruct (decide (filepath.Join gcsPath "manifest.json" = o)) as [<-|Hne].
      * rewrite lookup_insert_eq. eauto.
      * rewrite lookup_insert_ne by exact Hne. now apply Hkeep.
    + intros o c Ho.
      destruct (decide (filepath.Join gcsPath "manifest.json" = o)) as [<-|Hne].
      * rewrite lookup_insert_eq in Ho. injection Ho as <-. right. now left.
      * rewrite lookup_insert_ne in Ho by exact Hne.
        destruct (Hfile o c Ho) as [H|H]; [now left | now right; right].
Qed.

Lemma bucket_contents_witness :
  (forall o : string,
      is_Some (storage.objects (bucket tree_world) !! o) ->
      is_Some (storage.objects
                 (final_bucket (main (mkFlags "." "gs://bkt/pre" ".") tree_world [1] [1]))
                 !! o))
  /\ (forall (o : string) (c : list byte),
        storage.objects
          (final_bucket (main (mkFlags "." "gs://bkt/pre" ".") tree_world [1] [1]))
          !! o = Some c ->
        storage.objects (bucket tree_world) !! o = Some c
        \/ (o = filepath.Join "pre" "manifest.json"
            /\ c = bytes_of_string
                     (json.Marshal
                        (final_manifest
                           (main (mkFlags "." "gs://bkt/pre" ".") tree_world [1] [1]))))
        \/ exists k : string,
             final_manifest (main (mkFlags "." "gs://bkt/pre" ".") tree_world [1] [1])
               !! k = Some (digest_of c)
             /\ Lstat tree_world k = Some (os.Reg c)
             /\ o = filepath.Join "pre" k).
Proof.
  apply (run_only_adds_file_objects_and_the_manifest
           (mkFlags "." "gs://bkt/pre" ".") tree_world [1] [1]
           (final_manifest (main (mkFlags "." "gs://bkt/pre" ".") tree_world [1] [1]))
           (final_bucket (main (mkFlags "." "gs://bkt/pre" ".") tree_world [1] [1]))
           (final_acts (main (mkFlags "." "gs://bkt/pre" ".") tree_world [1] [1]))
           "bkt" "pre").
  - reflexivity.
  - vm_compute. reflexivity.
Defined.

(** If the commit of the remote manifest is not refused, the object
    [manifest.json] below the prefix holds the serialized manifest at
    the end of a run that returns.  This is so also when the tree has a
    file of that name at its top: the upload of that file and the
    manifest use the same object name, and the manifest, committed
    last, replaces the file. *)
Theorem manifest_object_holds_the_manifest (fl : flags) (w : World)
    (cs rs : list nat) (mfst : gmap string string) (b : storage.Bucket)
    (acts : list action) (bucketName gcsPath : string) :
  parseUri (dst fl) = Ok (bucketName, gcsPath) ->
  storage.close_fault (bucket w) (filepath.Join gcsPath "manifest.json") = false ->
  main fl w cs rs = Exit0 mfst b acts ->
  storage.objects b !! filepath.Join gcsPath "manifest.json"
  = Some (bytes_of_string (json.Marshal mfst)).
Proof.
  intros Hparse Hclose Hmain.
  destruct (main_Exit0 _ _ _ _ _ _ _ Hmain)
    as (bn & gp & tasks & done & b1 & Hparse' & _ & _ & _ & Hrun & _ & _ & Hb & _).
  rewrite Hparse in Hparse'. injection Hparse' as <- <-.
  pose proof (run_uploads_service w gcsPath (schedule cs tasks) (bucket w)) as [_ Hc].
  rewrite Hrun in Hc. cbn in Hc.
  rewrite Hb. unfold storage.Close. cbn [storage.failed storage.name storage.sent orb].
  rewrite Hc, Hclose. cbn. apply lookup_insert_eq.
Qed.

Lemma manifest_object_witness :
  storage.objects
    (final_bucket (main (mkFlags "." "gs://bkt/pre" ".") clash_world [] []))
    !! filepath.Join "pre" "manifest.json"
  = Some (bytes_of_string
            (json.Marshal
               (final_manifest (main (mkFlags "." "gs://bkt/pre" ".") clash_world [] []))))
  /\ is_Some (final_manifest (main (mkFlags "." "gs://bkt/pre" ".") clash_world [] [])
                !! "manifest.json").
Proof.
  split.
  - apply (manifest_object_holds_the_manifest
             (mkFlags "." "gs://bkt/pre" ".") clash_world [] []
             (final_manifest (main (mkFlags "." "gs://bkt/pre" ".") clash_world [] []))
             (final_bucket (main (mkFlags "." "gs://bkt/pre" ".") clash_world [] []))
             (final_acts (main (mkFlags "." "gs://bkt/pre" ".") clash_world [] []))
             "bkt" "pre").
    + reflexivity.
    + reflexivity.
    + vm_compute. reflexivity.
  - vm_compute. eauto.
Defined.

(** ** The walk, whatever can be listed *)

Lemma visible_paths_Dir_cons (name : string) (child : os.node)
    (rest : list (string * os.node)) :
  visible_paths (os.Dir true ((name, child) :: rest))
  = List.map (cons name) (visible_paths child) ++ visible_paths (os.Dir true rest).
Proof. reflexivity. Qed.

Lemma visible_sublist (n : os.node) : visible_paths n `sublist_of` regular_paths n.
Proof.
  induction n as [content| |l es IH] using node_induction; [reflexivity..|].
  destruct l; [|apply sublist_nil_l].
  induction IH as [|[name child] rest Hc _ IHrest]; [reflexivity|].
  rewrite visible_paths_Dir_cons, regular_paths_Dir_cons.
  apply sublist_app; [|exact IHrest].
  change (cons name <$> visible_paths child `sublist_of` cons name <$> regular_paths child).
  now apply fmap_sublist.
Qed.

Section Seen.
Variable R : list string.
Hypothesis HR : Forall valid R.

Lemma walk_each_seen (S : list string) (es : list (string * os.node)) :
  Forall valid S ->
  Forall (fun e => sees R (snd e)) es ->
  os.wf (os.Dir true es) = true ->
  forall tasks : list string,
    walk_each (walkFn (filepath.rooted R)) (filepath.rooted (R ++ S)) es tasks
    = WReturn None
        (tasks ++ List.map (fun T => strings.Join (S ++ T) "/")
                           (visible_paths (os.Dir true es))).
Proof.
  intros HS. induction 1 as [|[name child] rest Hc _ IH]; intros Hwf tasks.
  - cbn. now rewrite List.app_nil_r.
  - rewrite wf_Dir_cons in Hwf.
    apply andb_prop in Hwf as [Hwf Hwrest]. apply andb_prop in Hwf as [Hwf Hwchild].
    apply andb_prop in Hwf as [Hname _].
    cbn [walk_each]. rewrite Join_rooted_name; [|now apply Forall_app|exact Hname].
    rewrite <- List.app_assoc. cbn [snd] in Hc. unfold sees in Hc.
    rewrite (Hc Hwchild (S ++ [name]) tasks);
      [|apply Forall_app; split; [exact HS | now constructor]
       |now destruct S].
    rewrite (IH Hwrest). rewrite visible_paths_Dir_cons.
    rewrite List.map_app, List.map_map, <- List.app_assoc. do 3 f_equal.
    apply List.map_ext. intros T. now rewrite <- List.app_assoc.
Qed.

Lemma walk_seen (n : os.node) : sees R n.
Proof.
  induction n as [content| |l es IH] using node_induction;
    unfold sees; intros Hwf S tasks HS Hne.
  - cbn [walk os.info_of]. unfold walkFn.
    cbn [os.Mode os.IsRegular negb].
    destruct (String.eqb_spec (filepath.rooted R) (filepath.rooted (R ++ S))) as [E|_].
    { apply rooted_injective in E; [|exact HR|now apply Forall_app].
      rewrite <- (List.app_nil_r R) in E at 1. apply List.app_inv_head in E.
      congruence. }
    rewrite Rel_rooted by assumption. cbn. now rewrite List.app_nil_r.
  - cbn. now rewrite List.app_nil_r.
  - rewrite walk_Dir, walkFn_Dir. cbn [spawn]. destruct l.
    + now apply walk_each_seen.
    + cbn. now rewrite List.app_nil_r.
Qed.

Lemma walk_root_seen (n : os.node) :
  os.wf n = true ->
  exists tasks : list string,
    walk (walkFn (filepath.rooted R)) (filepath.rooted R) n [] = WReturn None tasks
    /\ forall l es, n = os.Dir l es ->
         tasks = List.map (fun T => strings.Join T "/") (visible_paths n).
Proof.
  intros Hwf. destruct n as [content|l es|].
  - eexists. split; [|discriminate]. cbn. now rewrite String.eqb_refl.
  - eexists. split; [|reflexivity]. rewrite walk_Dir, walkFn_Dir. cbn [spawn].
    destruct l; [|reflexivity].
    assert (Hbelow : Forall (fun e => sees R (snd e)) es)
      by (apply Forall_forall; intros e _; apply walk_seen).
    pose proof (walk_each_seen [] es (List.Forall_nil _) Hbelow Hwf []) as H.
    rewrite List.app_nil_r in H. exact H.
  - eexists. split; [reflexivity | discriminate].
Qed.

End Seen.

(** The walk of [main] never returns an error: on a root that exists
    (with well-formed names below it) it returns nil, also when some
    directory cannot be listed, so the [log.Fatal] that follows the walk
    is not reached. *)
Theorem walk_of_main_never_returns_an_error (fl : flags) (w : World) (n : os.node) :
  filepath.IsAbs (wd w) = true ->
  Lstat w (filepath.Abs (wd w) (src fl)) = Some n ->
  os.wf n = true ->
  exists tasks : list string,
    Walk w (filepath.Abs (wd w) (src fl)) (walkFn (filepath.Abs (wd w) (src fl)))
    = WReturn None tasks.
Proof.
  intros Hwd Hroot Hwf. unfold Walk. rewrite Hroot.
  destruct (Abs_rooted (wd w) (src fl) Hwd) as (R & HR & ->).
  destruct (walk_root_seen R HR (os.sorted n) (wf_sorted n Hwf)) as (tasks & H & _).
  eauto.
Qed.

Lemma walk_of_main_witness :
  exists tasks : list string,
    Walk locked_world (filepath.Abs "/data" ".") (walkFn (filepath.Abs "/data" "."))
    = WReturn None tasks.
Proof.
  apply (walk_of_main_never_returns_an_error (mkFlags "." "gs://bkt/pre" ".")
           locked_world
           (os.Dir true
              [("a.txt", os.Reg (text "hello"));
               ("secret", os.Dir false [("k.txt", os.Reg (text "key"))])]));
    reflexivity.
Defined.

(** ** The manifest of any well-formed tree *)

Lemma visible_paths_Dir_elem (es : list (string * os.node)) (T : list string) :
  T ∈ visible_paths (os.Dir true es) <->
  exists (name : string) (child : os.node) (T' : list string),
    T = name :: T' /\ (name, child) ∈ es /\ T' ∈ visible_paths child.
Proof.
  induction es as [|[name child] rest IH].
  - split; [intros H; inversion H|]. intros (? & ? & ? & _ & H & _). inversion H.
  - rewrite visible_paths_Dir_cons, elem_of_app, IH. split.
    + intros [H|(n & c & T' & -> & Hin & HT')].
      * change (T ∈ cons name <$> visible_paths child) in H.
        apply list_elem_of_fmap in H as (T' & -> & HT').
        exists name, child, T'. repeat split; [left|exact HT'].
      * exists n, c, T'. repeat split; [now right|exact HT'].
    + intros (n & c & T' & -> & Hin & HT').
      apply elem_of_cons in Hin as [[= -> ->]|Hin].
      * left. change (name :: T' ∈ cons name <$> visible_paths child).
        apply list_elem_of_fmap. eauto.
      * right. exists n, c, T'. eauto.
Qed.

Lemma visible_paths_find (n : os.node) :
  os.wf n = true ->
  forall T : list string,
    T ∈ visible_paths n <-> exists content, find_listed n T = Some (os.Reg content).
Proof.
  induction n as [content| |l es IH] using node_induction; intros Hwf T.
  - cbn. rewrite list_elem_of_singleton. destruct T as [|t T]; cbn.
    + split; eauto.
    + split; [discriminate|]. intros [? ?]. discriminate.
  - split; [intros H; inversion H|]. intros [c H]. destruct T; discriminate.
  - destruct l.
    + rewrite visible_paths_Dir_elem. rewrite Forall_forall in IH. split.
      * intros (name & child & T' & -> & Hin & HT').
        destruct (wf_Dir_elem _ _ _ _ Hwf Hin) as [_ Hwc].
        apply (IH _ Hin Hwc) in HT' as [c Hc]. exists c. cbn.
        now rewrite (elem_entry _ _ _ _ Hwf Hin).
      * intros [c H]. destruct T as [|t T']; [discriminate|]. cbn in H.
        destruct (os.entry t es) as [child|] eqn:E; [|discriminate].
        apply entry_elem in E. exists t, child, T'. split; [reflexivity|].
        split; [exact E|]. destruct (wf_Dir_elem _ _ _ _ Hwf E) as [_ Hwc].
        apply (IH _ E Hwc). eauto.
    + split; [intros H; inversion H|]. intros [c H]. destruct T; discriminate.
Qed.

Lemma find_listed_find (n : os.node) (T : list string) (m : os.node) :
  find_listed n T = Some m -> os.find n T = Some m.
Proof.
  revert n. induction T as [|t T IH]; intros n; [easy|]. cbn.
  destruct n as [|[] es|]; try discriminate.
  destruct (os.entry t es); [apply IH | discriminate].
Qed.

Lemma visible_strings_NoDup (l : bool) (es : list (string * os.node)) :
  os.wf (os.Dir l es) = true ->
  NoDup (List.map (fun T => strings.Join T "/") (visible_paths (os.Dir l es))).
Proof.
  intros Hwf. apply (sublist_NoDup _ _ (task_strings_NoDup l es Hwf)).
  change ((fun T => strings.Join T "/") <$> visible_paths (os.Dir l es)
          `sublist_of` (fun T => strings.Join T "/") <$> regular_paths (os.Dir l es)).
  apply fmap_sublist, visible_sublist.
Qed.

Lemma visible_paths_Permutation (es es' : list (string * os.node)) :
  es ≡ₚ es' -> visible_paths (os.Dir true es) ≡ₚ visible_paths (os.Dir true es').
Proof.
  induction 1 as [|[name child] es es' _ IH|[n1 c1] [n2 c2] es|es es' es'' _ IH1 _ IH2].
  - reflexivity.
  - rewrite !visible_paths_Dir_cons. now rewrite IH.
  - rewrite !visible_paths_Dir_cons, !List.app_assoc.
    apply Permutation_app_tail, Permutation_app_comm.
  - now rewrite IH1.
Qed.

(** The order of the listings does not change which files are seen. *)
Lemma visible_paths_sorted (n : os.node) :
  visible_paths (os.sorted n) ≡ₚ visible_paths n.
Proof.
  induction n as [content| |l es IH] using node_induction; [reflexivity..|].
  rewrite sorted_Dir. destruct l; [|reflexivity].
  induction IH as [|[name child] rest Hc _ IHrest]; [reflexivity|].
  rewrite sort_entries_cons.
  rewrite (visible_paths_Permutation _ _ (insert_Permutation _ _)).
  rewrite !visible_paths_Dir_cons. cbn [snd] in Hc.
  apply Permutation_app; [|exact IHrest].
  change (cons name <$> visible_paths (os.sorted child)
          ≡ₚ cons name <$> visible_paths child).
  now rewrite Hc.
Qed.

Lemma Walk_any_directory (fl : flags) (w : World) (l : bool)
    (es : list (string * os.node)) :
  filepath.IsAbs (wd w) = true ->
  Lstat w (filepath.Abs (wd w) (src fl)) = Some (os.Dir l es) ->
  os.wf (os.Dir l es) = true ->
  Walk w (filepath.Abs (wd w) (src fl)) (walkFn (filepath.Abs (wd w) (src fl)))
  = WReturn None
      (List.map (fun T => strings.Join T "/")
                (visible_paths (os.sorted (os.Dir l es)))).
Proof.
  intros Hwd Hroot Hwf. unfold Walk. rewrite Hroot.
  destruct (Abs_rooted (wd w) (src fl) Hwd) as (R & HR & ->).
  destruct (walk_root_seen R HR _ (wf_sorted _ Hwf)) as (tasks & -> & Htasks).
  now rewrite (Htasks l (sort_entries es) (sorted_Dir l es)).
Qed.

Lemma walked_paths (l : bool) (es : list (string * os.node)) :
  List.map (fun T => strings.Join T "/") (visible_paths (os.sorted (os.Dir l es)))
  ≡ₚ List.map (fun T => strings.Join T "/") (visible_paths (os.Dir l es)).
Proof.
  change ((fun T => strings.Join T "/") <$> visible_paths (os.sorted (os.Dir l es))
          ≡ₚ (fun T => strings.Join T "/") <$> visible_paths (os.Dir l es)).
  now rewrite visible_paths_sorted.
Qed.

Lemma received_paths (fl : flags) (w : World) (cs rs : list nat)
    (mfst : gmap string string) (b : storage.Bucket) (acts : list action)
    (l : bool) (es : list (string * os.node)) :
  filepath.IsAbs (wd w) = true ->
  Lstat w (filepath.Abs (wd w) (src fl)) = Some (os.Dir l es) ->
  os.wf (os.Dir l es) = true ->
  main fl w cs rs = Exit0 mfst b acts ->
  exists done : list uploaded,
    mfst = collect done
    /\ Forall (faithful w) done
    /\ List.map path done
       ≡ₚ List.map (fun T => strings.Join T "/") (visible_paths (os.Dir l es)).
Proof.
  intros Hwd Hroot Hwf Hmain.
  destruct (main_Exit0 _ _ _ _ _ _ _ Hmain)
    as (bn & gp & tasks & done & b1 & _ & _ & _ & Hwalk & Hrun & -> & _).
  rewrite (Walk_any_directory fl w l es Hwd Hroot Hwf) in Hwalk.
  injection Hwalk as <-.
  apply run_uploads_Ok in Hrun as [Hpaths Hdone].
  exists (schedule rs done). split; [reflexivity|]. split.
  { now rewrite (schedule_Permutation rs done). }
  rewrite <- walked_paths.
  change (path <$> schedule rs done
          ≡ₚ List.map (fun T => strings.Join T "/")
               (visible_paths (os.sorted (os.Dir l es)))).
  rewrite (schedule_Permutation rs done).
  change (path <$> done) with (List.map path done).
  rewrite Hpaths. apply schedule_Permutation.
Qed.

(** For a root that is a directory with a well-formed tree, whether or
    not all of its directories can be listed: the keys of the manifest
    of a run that returns are exactly the [/]-joined relative paths of
    the regular files that can be reached from the root through
    directories that can be listed, one entry for each.  What lies below
    a directory that cannot be listed is left out without any error. *)
Theorem manifest_keys_are_the_reachable_files (fl : flags) (w : World)
    (cs rs : list nat) (mfst : gmap string string) (b : storage.Bucket)
    (acts : list action) (l : bool) (es : list (string * os.node)) :
  filepath.IsAbs (wd w) = true ->
  Lstat w (filepath.Abs (wd w) (src fl)) = Some (os.Dir l es) ->
  os.wf (os.Dir l es) = true ->
  main fl w cs rs = Exit0 mfst b acts ->
  (forall k : string,
      k ∈ dom mfst <->
      exists (T : list string) (content : list byte),
        find_listed (os.Dir l es) T = Some (os.Reg content)
        /\ k = strings.Join T "/")
  /\ size mfst = length (visible_paths (os.Dir l es)).
Proof.
  intros Hwd Hroot Hwf Hmain.
  destruct (received_paths _ _ _ _ _ _ _ _ _ Hwd Hroot Hwf Hmain)
    as (done & -> & _ & Hperm).
  split.
  - intros k. rewrite dom_collect, elem_of_list_to_set, Hperm.
    change (List.map (fun T => strings.Join T "/") (visible_paths (os.Dir l es)))
      with ((fun T => strings.Join T "/") <$> visible_paths (os.Dir l es)).
    rewrite list_elem_of_fmap. split.
    + intros (T & -> & HT). apply (visible_paths_find _ Hwf) in HT as [c Hc]. eauto.
    + intros (T & c & Hc & ->). exists T. split; [reflexivity|].
      apply (visible_paths_find _ Hwf). eauto.
  - rewrite collect_size.
    + rewrite <- (List.length_map path), Hperm. apply List.length_map.
    + rewrite Hperm. now apply visible_strings_NoDup.
Qed.

Lemma reachable_files_witness :
  (forall k : string,
      k ∈ dom (final_manifest (main (mkFlags "." "gs://bkt/pre" ".") locked_world [] []))
      <->
      exists (T : list string) (content : list byte),
        find_listed
          (os.Dir true
             [("a.txt", os.Reg (text "hello"));
              ("secret", os.Dir false [("k.txt", os.Reg (text "key"))])]) T
        = Some (os.Reg content)
        /\ k = strings.Join T "/")
  /\ size (final_manifest (main (mkFlags "." "gs://bkt/pre" ".") locked_world [] []))
     = 1%nat.
Proof.
  apply (manifest_keys_are_the_reachable_files
           (mkFlags "." "gs://bkt/pre" ".") locked_world [] []
           (final_manifest (main (mkFlags "." "gs://bkt/pre" ".") locked_world [] []))
           (final_bucket (main (mkFlags "." "gs://bkt/pre" ".") locked_world [] []))
           (final_acts (main (mkFlags "." "gs://bkt/pre" ".") locked_world [] []))
           true
           [("a.txt", os.Reg (text "hello"));
            ("secret", os.Dir false [("k.txt", os.Reg (text "key"))])]).
  - reflexivity.
  - vm_compute. reflexivity.
  - reflexivity.
  - vm_compute. reflexivity.
Defined.

Lemma visible_all_listable (n : os.node) :
  os.all_listable n = true -> visible_paths n = regular_paths n.
Proof.
  induction n as [content| |l es IH] using node_induction; [reflexivity..|].
  intros Hl. pose proof (all_listable_Dir _ _ Hl) as ->.
  induction IH as [|[name child] rest Hc _ IHrest]; [reflexivity|].
  rewrite all_listable_Dir_cons in Hl. apply andb_prop in Hl as [Hlc Hlrest].
  rewrite visible_paths_Dir_cons, regular_paths_Dir_cons. cbn [snd] in Hc.
  now rewrite (Hc Hlc), (IHrest Hlrest).
Qed.

(** When no traversal error occurs the code does what the specification
    asks: for a root that is a directory whose tree is well formed and in
    which every directory can be listed, a run that returns (so every
    upload succeeded) has a manifest whose keys are exactly the
    [/]-joined relative paths of the regular files below the root, one
    entry per regular file, whatever the order in which the uploads
    commit and their results are received.  Directories and irregular
    entries contribute no entry.  The goroutines that the walk started,
    taken step by step in any interleaving, leave the range loop with
    this very manifest: no update is lost or made twice. *)
Theorem manifest_keys_are_the_regular_files (fl : flags) (w : World)
    (cs rs : list nat) (mfst : gmap string string) (b : storage.Bucket)
    (acts : list action) (l : bool) (es : list (string * os.node)) :
  filepath.IsAbs (wd w) = true ->
  Lstat w (filepath.Abs (wd w) (src fl)) = Some (os.Dir l es) ->
  os.wf (os.Dir l es) = true ->
  os.all_listable (os.Dir l es) = true ->
  main fl w cs rs = Exit0 mfst b acts ->
  (forall k : string,
      k ∈ dom mfst <->
      exists (T : list string) (content : list byte),
        os.find (os.Dir l es) T = Some (os.Reg content)
        /\ k = strings.Join T "/")
  /\ size mfst = length (regular_paths (os.Dir l es))
  /\ (forall (gcsPath : string) (tasks : list string) (st : pipeline),
        Walk w (filepath.Abs (wd w) (src fl)) (walkFn (filepath.Abs (wd w) (src fl)))
        = WReturn None tasks ->
        rtc (step w gcsPath) (start tasks (bucket w)) st ->
        ranging st = false ->
        manifest st = mfst).
Proof.
  intros Hwd Hroot Hwf Hl Hmain.
  destruct (received_paths _ _ _ _ _ _ _ _ _ Hwd Hroot Hwf Hmain)
    as (done & -> & Hdone & Hperm).
  rewrite (visible_all_listable _ Hl) in Hperm.
  split; [|split].
  - intros k. rewrite dom_collect, elem_of_list_to_set, Hperm.
    change (List.map (fun T => strings.Join T "/") (regular_paths (os.Dir l es)))
      with ((fun T => strings.Join T "/") <$> regular_paths (os.Dir l es)).
    rewrite list_elem_of_fmap. split.
    + intros (T & -> & HT). apply (regular_paths_find _ Hwf) in HT as [c Hc]. eauto.
    + intros (T & c & Hc & ->). exists T. split; [reflexivity|].
      apply (regular_paths_find _ Hwf). eauto.
  - rewrite collect_size.
    + rewrite <- (List.length_map path), Hperm. apply List.length_map.
    + rewrite Hperm. now apply task_strings_NoDup.
  - intros gcsPath tasks st Hwalk Hreach Hend.
    rewrite (Walk_any_directory fl w l es Hwd Hroot Hwf) in Hwalk.
    injection Hwalk as <-.
    destruct (pipeline_end _ _ _ _ _ Hreach Hend) as (Hrecv & -> & Hfaith).
    apply (collect_determined w); [exact Hfaith | exact Hdone|].
    etransitivity; [exact Hrecv|]. etransitivity; [apply walked_paths|].
    rewrite (visible_all_listable _ Hl). now symmetry.
Qed.

Lemma manifest_keys_witness :
  (forall k : string,
      k ∈ dom (final_manifest (main (mkFlags "." "gs://bkt/pre" ".") tree_world [1] [1]))
      <->
      exists (T : list string) (content : list byte),
        os.find (os.Dir true
                   [("a.txt", os.Reg (text "hello"));
                    ("sub", os.Dir true [("b.txt", os.Reg (text "abc"));
                                         ("lnk", os.Irregular)])]) T
        = Some (os.Reg content)
        /\ k = strings.Join T "/")
  /\ size (final_manifest (main (mkFlags "." "gs://bkt/pre" ".") tree_world [1] [1]))
     = 2%nat.
Proof.
  destruct (manifest_keys_are_the_regular_files
              (mkFlags "." "gs://bkt/pre" ".") tree_world [1] [1]
              (final_manifest (main (mkFlags "." "gs://bkt/pre" ".") tree_world [1] [1]))
              (final_bucket (main (mkFlags "." "gs://bkt/pre" ".") tree_world [1] [1]))
              (final_acts (main (mkFlags "." "gs://bkt/pre" ".") tree_world [1] [1]))
              true
              [("a.txt", os.Reg (text "hello"));
               ("sub", os.Dir true [("b.txt", os.Reg (text "abc"));
                                    ("lnk", os.Irregular)])])
    as (Hkeys & Hsize & _).
  - reflexivity.
  - vm_compute. reflexivity.
  - reflexivity.
  - reflexivity.
  - vm_compute. reflexivity.
  - split; [exact Hkeys | exact Hsize].
Defined.

(** ** A run from inside the tree *)

Lemma find_app (n : os.node) (R T : list string) :
  os.find n (R ++ T)
  = match os.find n R with
    | Some m => os.find m T
    | None => None
    end.
Proof.
  revert n. induction R as [|r R IH]; intros n; [reflexivity|]. cbn.
  destruct n as [|l es|]; try reflexivity.
  destruct (os.entry r es); [apply IH | reflexivity].
Qed.

Lemma valid_not_rooted (a : ascii) (c rest : string) :
  valid (String a c) -> filepath.IsAbs (String a rest) = false.
Proof.
  unfold valid, os.valid_name. intros H.
  apply andb_prop in H as [_ H]. cbn [os.no_slash] in H.
  apply andb_prop in H as [H _].
  change (filepath.IsAbs (String a rest))
    with (if Ascii.eqb slash a then true else false).
  rewrite Ascii.eqb_sym. now destruct (Ascii.eqb a slash).
Qed.

Lemma Join_valid_relative (T : list string) :
  Forall valid T -> T <> [] ->
  strings.Join T "/" <> EmptyString /\ filepath.IsAbs (strings.Join T "/") = false.
Proof.
  intros HT Hne. destruct T as [|t T]; [congruence|].
  inversion HT as [|? ? Ht HT']; subst.
  destruct t as [|a c]; [discriminate Ht|].
  assert (E : exists rest, strings.Join (String a c :: T) "/" = String a rest)
    by (destruct T; eexists; reflexivity).
  destruct E as [rest ->]. split; [discriminate|].
  exact (valid_not_rooted a c rest Ht).
Qed.

(** A relative path of valid names is looked up below the working
    directory. *)
Lemma Lstat_below_wd (w : World) (T : list string) :
  filepath.IsAbs (wd w) = true ->
  Forall valid T -> T <> [] ->
  Lstat w (strings.Join T "/") = os.find (fs w) (filepath.elems (wd w) ++ T).
Proof.
  intros Hwd HT Hne.
  destruct (Join_valid_relative T HT Hne) as [Hk Hrel].
  unfold Lstat. destruct (String.eqb_spec (strings.Join T "/") "") as [E|_]; [congruence|].
  f_equal. unfold filepath.Abs. rewrite Hrel.
  assert (HJ : filepath.Join (wd w) (strings.Join T "/")
               = filepath.Clean (wd w +:+ String slash (strings.Join T "/"))).
  { unfold filepath.Join. destruct (wd w); [discriminate Hwd|].
    destruct (strings.Join T "/"); [congruence | reflexivity]. }
  rewrite HJ.
  pose proof (IsAbs_app (wd w) (String slash (strings.Join T "/")) Hwd) as Habs.
  destruct (Clean_abs _ Habs) as [-> Hval]. rewrite (elems_rooted _ Hval).
  unfold filepath.elems. rewrite Habs, Hwd, Split_app, List.fold_left_app.
  rewrite (Split_Join T HT Hne), (fold_push_valid true T HT).
  now rewrite List.rev_app_distr, List.rev_involutive.
Qed.

Lemma Lstat_wd (w : World) :
  filepath.IsAbs (wd w) = true ->
  Lstat w (filepath.Clean (wd w)) = os.find (fs w) (filepath.elems (wd w)).
Proof.
  intros Hwd. destruct (Clean_abs _ Hwd) as [E Hval]. rewrite E.
  unfold Lstat. change (filepath.rooted (filepath.elems (wd w)) =? "")%string with false.
  cbn iota. f_equal. unfold filepath.Abs.
  change (filepath.IsAbs (filepath.rooted (filepath.elems (wd w)))) with true.
  cbn iota. rewrite (Clean_rooted _ Hval). now apply elems_rooted.
Qed.

(** When the root of the upload is the working directory (as with the
    default [--src .]) and it is a directory with a well-formed tree,
    the manifest of a run that returns is exactly the map from the
    relative path of every regular file that can be reached through
    directories that can be listed to [sha256:] and the digest of the
    content of that very file. *)
Theorem run_in_the_root_digests_each_file (fl : flags) (w : World)
    (cs rs : list nat) (mfst : gmap string string) (b : storage.Bucket)
    (acts : list action) (l : bool) (es : list (string * os.node)) :
  filepath.IsAbs (wd w) = true ->
  filepath.Abs (wd w) (src fl) = filepath.Clean (wd w) ->
  Lstat w (filepath.Abs (wd w) (src fl)) = Some (os.Dir l es) ->
  os.wf (os.Dir l es) = true ->
  main fl w cs rs = Exit0 mfst b acts ->
  forall k d : string,
    mfst !! k = Some d <->
    exists (T : list string) (content : list byte),
      find_listed (os.Dir l es) T = Some (os.Reg content)
      /\ k = strings.Join T "/"
      /\ d = digest_of content.
Proof.
  intros Hwd Hsrc Hroot Hwf Hmain k d.
  destruct (received_paths _ _ _ _ _ _ _ _ _ Hwd Hroot Hwf Hmain)
    as (done & E & _ & Hperm).
  assert (Hfile : forall T c,
             find_listed (os.Dir l es) T = Some (os.Reg c) ->
             Lstat w (strings.Join T "/") = Some (os.Reg c)
             /\ strings.Join T "/" ∈ dom mfst).
  { intros T c Hc.
    assert (HT : T ∈ visible_paths (os.Dir l es))
      by (apply (visible_paths_find _ Hwf); eauto).
    split.
    - rewrite Lstat_below_wd; [| exact Hwd | |].
      + rewrite find_app. rewrite <- (Lstat_wd w Hwd), <- Hsrc, Hroot.
        now apply find_listed_find.
      + apply (regular_paths_valid _ Hwf).
        exact (elem_of_sublist _ _ _ HT (visible_sublist _)).
      + destruct T; [discriminate Hc | discriminate].
    - rewrite E, dom_collect, elem_of_list_to_set, Hperm.
      change (List.map (fun T => strings.Join T "/") (visible_paths (os.Dir l es)))
        with ((fun T => strings.Join T "/") <$> visible_paths (os.Dir l es)).
      apply list_elem_of_fmap. eauto. }
  split.
  - intros Hk.
    assert (Hdom : k ∈ dom mfst) by (apply elem_of_dom; eauto).
    rewrite E, dom_collect, elem_of_list_to_set, Hperm in Hdom.
    change (List.map (fun T => strings.Join T "/") (visible_paths (os.Dir l es)))
      with ((fun T => strings.Join T "/") <$> visible_paths (os.Dir l es)) in Hdom.
    apply list_elem_of_fmap in Hdom as (T & -> & HT).
    apply (visible_paths_find _ Hwf) in HT as [c Hc].
    destruct (manifest_entry _ _ _ _ _ _ _ _ _ Hmain Hk) as (c' & Hc' & ->).
    destruct (Hfile T c Hc) as [Hl _]. rewrite Hl in Hc'. injection Hc' as <-.
    eauto.
  - intros (T & c & Hc & -> & ->).
    destruct (Hfile T c Hc) as [Hl Hdom].
    apply elem_of_dom in Hdom as [d Hd]. rewrite Hd. f_equal.
    destruct (manifest_entry _ _ _ _ _ _ _ _ _ Hmain Hd) as (c' & Hc' & ->).
    rewrite Hl in Hc'. now injection Hc' as <-.
Qed.

Lemma run_in_the_root_witness :
  final_manifest (main (mkFlags "." "gs://bkt/pre" ".") tree_world [1] [0])
    !! "sub/b.txt"
  = Some (digest_of (text "abc"))
  /\ final_manifest (main (mkFlags "." "gs://bkt/pre" ".") tree_world [1] [0])
       !! "sub/lnk"
     = None.
Proof.
  pose proof (run_in_the_root_digests_each_file
                (mkFlags "." "gs://bkt/pre" ".") tree_world [1] [0]
                (final_manifest (main (mkFlags "." "gs://bkt/pre" ".") tree_world [1] [0]))
                (final_bucket (main (mkFlags "." "gs://bkt/pre" ".") tree_world [1] [0]))
                (final_acts (main (mkFlags "." "gs://bkt/pre" ".") tree_world [1] [0]))
                true
                [("a.txt", os.Reg (text "hello"));
                 ("sub", os.Dir true [("b.txt", os.Reg (text "abc"));
                                      ("lnk", os.Irregular)])]
                eq_refl eq_refl eq_refl eq_refl eq_refl) as H.
  split.
  - apply H. exists ["sub"; "b.txt"], (text "abc"). repeat split.
  - vm_compute. reflexivity.
Defined.

(** ** The goroutines in any interleaving *)

(** The interleaving that leads to [crossed true]: both uploads run
    before anything is received, and the values are received in the
    order opposite to the one of the walk. *)
Lemma crossed_run :
  rtc (step tree_world "pre") (start two_tasks quiet_bucket) (crossed true).
Proof.
  eapply rtc_l.
  { apply (step_upload tree_world "pre" (start two_tasks quiet_bucket) 1 "sub/b.txt"
             (sha file_b)); [reflexivity | vm_compute; reflexivity]. }
  eapply rtc_l.
  { apply (step_upload tree_world "pre" _ 0 "a.txt" (sha file_a));
      [reflexivity | vm_compute; reflexivity]. }
  eapply rtc_l; [apply (step_receive tree_world "pre" _ 1 file_b); reflexivity|].
  eapply rtc_l; [apply (step_done tree_world "pre" _ 1); reflexivity|].
  eapply rtc_l; [apply (step_receive tree_world "pre" _ 0 file_a); reflexivity|].
  eapply rtc_l; [apply (step_done tree_world "pre" _ 0); reflexivity|].
  eapply rtc_l; [apply step_close; reflexivity|].
  apply rtc_refl.
Qed.

Lemma crossed_run_left :
  rtc (step tree_world "pre") (start two_tasks quiet_bucket) (crossed false).
Proof.
  eapply rtc_r; [exact crossed_run|].
  exact (step_leave tree_world "pre" (crossed true) eq_refl eq_refl).
Qed.

(** However the uploading goroutines, the closing goroutine and the
    range loop of [main] interleave: when the range loop has ended,
    every started goroutine has finished, every task was received
    exactly once, and the map is the one that results from uploading
    the files one after the other in the order of the walk. *)
Theorem every_interleaving_ends_with_the_same_manifest (w : World)
    (gcsPath : string) (tasks : list string) (b b' : storage.Bucket)
    (us : list uploaded) (st : pipeline) :
  run_uploads w b gcsPath tasks = (Ok us, b') ->
  rtc (step w gcsPath) (start tasks b) st ->
  ranging st = false ->
  manifest st = collect us
  /\ List.map path (received st) ≡ₚ tasks
  /\ Forall (fun g => g = Finished) (routines st).
Proof.
  intros Hrun Hreach Hend.
  destruct (pipeline_end _ _ _ _ _ Hreach Hend) as (Hrecv & Hm & Hfaith).
  apply run_uploads_Ok in Hrun as [Hpaths Hdone].
  split; [|split].
  - rewrite Hm. apply (collect_determined w); [exact Hfaith | exact Hdone|].
    now rewrite Hrecv, Hpaths.
  - exact Hrecv.
  - destruct (reachable_invariant _ _ _ _ _ Hreach) as [Hc _ Hcl Hr _ _ _].
    specialize (Hcl (Hr Hend)). rewrite Hc in Hcl.
    apply Forall_forall. intros g Hg.
    pose proof (sum_list_with_in g weight _ Hg) as Hle.
    destruct g; cbn in Hle; try lia. reflexivity.
Qed.

Lemma every_interleaving_witness :
  manifest (crossed false) = collect [file_a; file_b]
  /\ List.map path (received (crossed false)) ≡ₚ two_tasks
  /\ Forall (fun g => g = Finished) (routines (crossed false)).
Proof.
  assert (Hrun : run_uploads tree_world quiet_bucket "pre" two_tasks
                 = (Ok [file_a; file_b],
                    up_bucket (uploadFile tree_world
                                 (up_bucket (uploadFile tree_world quiet_bucket
                                               "a.txt" "pre"))
                                 "sub/b.txt" "pre")))
    by (vm_compute; reflexivity).
  exact (every_interleaving_ends_with_the_same_manifest tree_world "pre" two_tasks
           quiet_bucket _ [file_a; file_b] (crossed false)
           Hrun crossed_run_left eq_refl).
Defined.

Lemma closed_channel_witness :
  closed (crossed true) = true
  /\ length (routines (crossed true)) = 2%nat
  /\ Forall (fun g => g = Finished) (routines (crossed true)).
Proof.
  split; [reflexivity|]. split; [reflexivity|].
  apply Forall_forall. intros g Hg.
  exact (closed_channel_is_idle tree_world "pre" two_tasks quiet_bucket
           (crossed true) g crossed_run eq_refl Hg).
Defined.

Lemma pipeline_progress_witness :
  (exists st', step tree_world "pre" (start ["a.txt"; "sub/b.txt"] quiet_bucket) st')
  \/ (exists i relPath e,
        routines (start ["a.txt"; "sub/b.txt"] quiet_bucket) !! i
        = Some (Running relPath)
        /\ up_ret (uploadFile tree_world
                     (remote (start ["a.txt"; "sub/b.txt"] quiet_bucket))
                     relPath "pre") = Err e).
Proof.
  apply (pipeline_progress tree_world "pre" ["a.txt"; "sub/b.txt"] quiet_bucket
           (start ["a.txt"; "sub/b.txt"] quiet_bucket)).
  - apply rtc_refl.
  - reflexivity.
Defined.

(** ** When a run returns *)

(** The run returns normally exactly when the destination parses, the
    client can be created, the walk returns without error, the upload
    of every file the walk started a goroutine for succeeds on its own,
    the first write to the remote manifest is accepted and the local
    manifest can be written.  Neither the schedule of the goroutines
    nor an error on closing any object keeps the run from returning. *)
Theorem run_returns_iff (fl : flags) (w : World) (cs rs : list nat) :
  returned (main fl w cs rs) = true <->
  exists (bucketName gcsPath : string) (tasks : list string),
    parseUri (dst fl) = Ok (bucketName, gcsPath)
    /\ client_fault w = None
    /\ Walk w (filepath.Abs (wd w) (src fl)) (walkFn (filepath.Abs (wd w) (src fl)))
       = WReturn None tasks
    /\ Forall (fun t => is_err (up_ret (uploadFile w (bucket w) t gcsPath)) = false)
              tasks
    /\ storage.write_fault (bucket w) (filepath.Join gcsPath "manifest.json") 0 = None
    /\ local_fault w = None.
Proof.
  unfold main.
  destruct (parseUri (dst fl)) as [[bn gp]|e];
    [|split; [discriminate | intros (? & ? & ? & H & _); discriminate H]].
  destruct (client_fault w) as [e|];
    [split; [discriminate | intros (? & ? & ? & _ & H & _); discriminate H]|].
  cbv zeta.
  destruct (Walk w _ _) as [|[e|] tasks];
    [split; [discriminate | intros (? & ? & ? & _ & _ & H & _); discriminate H]..|].
  pose proof (run_uploads_Ok_iff w gp (schedule cs tasks) (bucket w)) as Hiff.
  pose proof (run_uploads_service w gp (schedule cs tasks) (bucket w)) as [Hsw _].
  assert (Hall : Forall (fun t => is_err (up_ret (uploadFile w (bucket w) t gp)) = false)
                        (schedule cs tasks)
                 <-> Forall (fun t => is_err (up_ret (uploadFile w (bucket w) t gp))
                                      = false) tasks)
    by now rewrite (schedule_Permutation cs tasks).
  rewrite Hall in Hiff. clear Hall.
  destruct (run_uploads w (bucket w) gp (schedule cs tasks)) as [[done|e] b1];
    cbn [fst snd is_err] in Hiff, Hsw.
  - unfold storage.Write.
    cbn [storage.NewWriter storage.name storage.calls]. rewrite Hsw.
    destruct (storage.write_fault (bucket w) (filepath.Join gp "manifest.json") 0)
      as [n|] eqn:Hwf0.
    + split; [discriminate | intros (? & ? & ? & [= <- <-] & _ & _ & _ & H & _)].
      rewrite Hwf0 in H. discriminate H.
    + destruct (local_fault w) as [e|].
      * split; [discriminate | intros (? & ? & ? & _ & _ & _ & _ & _ & H)].
        discriminate H.
      * destruct (storage.Close b1 _) as [cerr b']. split; [|reflexivity].
        intros _. exists bn, gp, tasks.
        repeat split; try reflexivity; try assumption. now apply Hiff.
  - split; [discriminate | intros (? & ? & ? & [= <- <-] & _ & [= <-] & H & _)].
    apply Hiff in H. discriminate H.
Qed.

(** ** The destination *)

Lemma strip_scheme_added (u : string) : strip_scheme ("gs://" +:+ u) = u.
Proof. reflexivity. Qed.

(** A destination written as [gs://], a bucket name without [/], a [/]
    and a prefix is parsed back into that bucket and that prefix; the
    scheme is removed once only and may be left out when what remains
    does not begin with [gs://] itself. *)
Theorem parseUri_round_trip (bkt pre : string) :
  ~ strings.contains slash bkt ->
  parseUri ("gs://" +:+ bkt +:+ "/" +:+ pre) = Ok (bkt, pre)
  /\ (strings.HasPrefix (bkt +:+ "/" +:+ pre) "gs://" = false ->
      parseUri (bkt +:+ "/" +:+ pre) = Ok (bkt, pre)).
Proof.
  intros Hno. split.
  - rewrite parseUri_cut, strip_scheme_added.
    change (bkt +:+ "/" +:+ pre) with (bkt +:+ String slash pre).
    now rewrite (cut_app slash bkt pre Hno).
  - intros Hs. rewrite parseUri_cut. unfold strip_scheme. rewrite Hs.
    change (bkt +:+ "/" +:+ pre) with (bkt +:+ String slash pre).
    now rewrite (cut_app slash bkt pre Hno).
Qed.

Lemma parseUri_round_trip_witness :
  parseUri ("gs://" +:+ "gs:" +:+ "/" +:+ "/b/x") = Ok ("gs:", "/b/x")
  /\ parseUri ("bkt" +:+ "/" +:+ "a/b") = Ok ("bkt", "a/b").
Proof.
  split.
  - apply (parseUri_round_trip "gs:" "/b/x"). cbn. intros H.
    repeat (destruct H as [H|H]; [discriminate H|]). exact H.
  - apply (parseUri_round_trip "bkt" "a/b"); [|reflexivity]. cbn. intros H.
    repeat (destruct H as [H|H]; [discriminate H|]). exact H.
Defined.
